(** * ytdl-core: a shallow embedding of the format pipeline, the retry and
    resolution logic, the cipher application step, the DASH manifest reader,
    the chunked downloader and the TTL cache, with the properties of each.

    Source files embedded here (TypeScript; the files under [src/unnamed]
    are named after the modules the other files import them as):
    - [src/src/format-utils.ts]                      -> [Module FormatUtils]
    - [cache.ts] ([src/unnamed/part_004], class [Cache]) -> [Module Cache]
    - [sig.ts] ([src/unnamed/part_007]: [setDownloadURL],
      [decipherFormats])                             -> [Module Sig]
    - [utils.ts] ([src/unnamed/part_008]: [playError],
      [applyPlayerClients])                          -> [Module Utils]
    - [info.ts] ([src/unnamed/part_005]: [retryFunc], [getBasicInfo],
      [getInfo], [getDashManifest], [getM3U8])       -> [Module Info]
    - [index.ts] ([src/unnamed/part_006]: the chunked branch of
      [downloadFromInfoCallback])                    -> [Module Download]
    Each [Module M] of definitions is followed by a [Module MFacts] with
    the properties proved of it.

    Further parts of the same files, and the files they call, follow:
    - the string methods the code calls             -> [Module JsText]
    - [cache.ts], the methods one by one            -> [Module CacheMethodFacts]
    - [src/src/url-utils.ts]                        -> [Module UrlUtils]
    - [utils.ts]: [between], [cutAfterJS]           -> [Module UtilsText]
    - [info.ts]: [wrapWithCache]                    -> [Module InfoCache]
    - [utils.ts]: [findPropKeyInsensitive], [getPropInsensitive],
      [setPropInsensitive], [applyDefaultHeaders]   -> [Module UtilsProps]
    - [format-utils.ts]: [sortFormats] as an order  -> [Module SortFormatsFacts]
    - [sig.ts]: the record of [decipherFormats]     -> [Module DecipherFacts]
    - [info.ts]: [getM3U8]; [utils.ts]: [playError];
      [index.ts]: [_destroy]    -> [Module ManifestFacts], [Module PlayErrorFacts],
                                   [Module DestroyFacts]
    - [info.ts]: the formats [getInfo] ends up with  -> [Module ReconciliationFacts]
    - [index.ts]: the start of [downloadFromInfoCallback]
                                                    -> [Module DownloadStart]
    - [info.ts] (info-extras): [getLikes]           -> [Module InfoExtras]
    - [sig.ts]: the fallback n-transform            -> [Module SigFallback]
    - [utils.ts]: [generateClientPlaybackNonce]     -> [Module UtilsRandom]
    - [utils.ts]: [isIPv6], [normalizeIP], [getRandomIPv6]
                                -> [Module JsRegExp], [Module UtilsIPv6]
    - [format-utils.ts]: [addFormatMeta]; [info.ts]: the end of [getInfo]
                                                    -> [Module FormatMeta]
    - [src/src/agent.ts]: [addCookies], [addCookiesFromString]
                                                    -> [Module Agent]

    Conventions.  A JavaScript [number] that the code only uses as an integer
    (itags, bitrates, byte offsets, retry counters, delays) is a [Z]; [NaN] is
    written out as [None] where the code can produce it ([parseInt]).  An
    optional property is an [option]; truthiness ([!!x], [x || d], [if (x)])
    is written out on each type.  A function that can throw returns a
    [result]. *)

From Stdlib Require Import ZArith Lia Bool List Ascii String Permutation Sorted.
From Stdlib Require Import HexadecimalString DecimalString.
From Stdlib Require Import QArith Qround.
From stdpp Require Import base option gmap strings.
Import ListNotations.

Local Open Scope string_scope.
Local Open Scope Z_scope.

(* ===================================================================== *)
(** ** JavaScript values shared by all modules *)
(* ===================================================================== *)

Module Js.

(** The error objects the code constructs: [new Error(msg)],
    [new TypeError(msg)], [new UnrecoverableError(msg)] (utils.ts), and the
    error [utils.request] throws for a non-2xx status, which carries
    [statusCode]. *)
Inductive JsError :=
| Error (message : string)
| TypeError (message : string)
| UnrecoverableError (message : string)
| StatusError (statusCode : Z).

Inductive result (A : Type) :=
| Ok (value : A)
| Throw (err : JsError).
Arguments Ok {A} value.
Arguments Throw {A} err.

Definition rbind {A B} (r : result A) (k : A -> result B) : result B :=
  match r with
  | Ok a => k a
  | Throw e => Throw e
  end.

(** [!!s] for an optional string: [undefined] and [''] are falsy. *)
Definition truthyS (s : option string) : bool :=
  match s with
  | Some s => negb (String.eqb s "")
  | None => false
  end.

(** [!!b] for an optional boolean. *)
Definition truthyB (b : option bool) : bool :=
  match b with
  | Some true => true
  | _ => false
  end.

(** [n || 0] for an optional number. *)
Definition orZero (n : option Z) : Z :=
  match n with
  | Some n => n
  | None => 0
  end.

(** [s || d] for an optional string. *)
Definition orString (s : option string) (d : string) : string :=
  match s with
  | Some s => if String.eqb s "" then d else s
  | None => d
  end.

(** [arr[arr.length - 1]] *)
Fixpoint lastItem {A} (l : list A) : option A :=
  match l with
  | [] => None
  | [x] => Some x
  | _ :: xs => lastItem xs
  end.

(** [!!n] for an optional number: [undefined], [NaN] and [0] are falsy. *)
Definition truthyN (n : option Z) : bool :=
  match n with
  | Some n => negb (n =? 0)
  | None => false
  end.

(** [`${n}`] for an integer. *)
Definition numToString (n : Z) : string := NilZero.string_of_int (Z.to_int n).

(** *** [parseInt(s)] with no radix argument

    Leading white space is skipped, then an optional sign, then an optional
    [0x]/[0X] prefix selecting radix 16, then the longest prefix of digits.
    No digit at all gives [NaN] ([None]).  White space is the ASCII part of
    the ECMAScript [StrWhiteSpaceChar] class. *)

Definition isWhiteSpace (c : ascii) : bool :=
  let n := Z.of_nat (nat_of_ascii c) in
  (n =? 32) || ((9 <=? n) && (n <=? 13)).

Fixpoint trimStart (s : string) : string :=
  match s with
  | String c r => if isWhiteSpace c then trimStart r else s
  | EmptyString => s
  end.

Definition digitValue (radix : Z) (c : ascii) : option Z :=
  let n := Z.of_nat (nat_of_ascii c) in
  let v :=
    if (48 <=? n) && (n <=? 57) then Some (n - 48)
    else if (97 <=? n) && (n <=? 122) then Some (n - 87)
    else if (65 <=? n) && (n <=? 90) then Some (n - 55)
    else None in
  match v with
  | Some d => if d <? radix then Some d else None
  | None => None
  end.

Fixpoint parseDigits (radix : Z) (s : string) (acc : option Z) : option Z :=
  match s with
  | String c r =>
      match digitValue radix c with
      | Some d =>
          parseDigits radix r
            (Some (match acc with Some a => a * radix + d | None => d end))
      | None => acc
      end
  | EmptyString => acc
  end.

Definition parseInt (s : string) : option Z :=
  let s := trimStart s in
  let '(sign, s) :=
    match s with
    | String "-"%char r => (-1, r)
    | String "+"%char r => (1, r)
    | _ => (1, s)
    end in
  let '(radix, s) :=
    match s with
    | String "0"%char (String "x"%char r) => (16, r)
    | String "0"%char (String "X"%char r) => (16, r)
    | _ => (10, s)
    end in
  option_map (Z.mul sign) (parseDigits radix s None).

(** *** [Array.prototype.sort(cmp)]

    The sort is stable, and a comparator result of [NaN] counts as [+0]
    (ECMAScript [SortCompare]).  For a consistent comparator every stable
    sort gives the same array; this is the insertion form of it.  [cmp a b]
    positive moves [a] behind [b]. *)

Definition cmpPositive (v : option Z) : bool :=
  match v with
  | Some z => 0 <? z
  | None => false
  end.

Fixpoint sortInsert {A} (cmp : A -> A -> option Z) (x : A) (l : list A) : list A :=
  match l with
  | [] => [x]
  | y :: ys =>
      if cmpPositive (cmp x y) then y :: sortInsert cmp x ys
      else x :: y :: ys
  end.

Fixpoint arraySort {A} (cmp : A -> A -> option Z) (l : list A) : list A :=
  match l with
  | [] => []
  | x :: xs => sortInsert cmp x (arraySort cmp xs)
  end.

(** [arr.findIndex(p)], [-1] when nothing matches. *)
Fixpoint findIndexFrom {A} (p : A -> bool) (l : list A) (i : Z) : Z :=
  match l with
  | [] => -1
  | x :: xs => if p x then i else findIndexFrom p xs (i + 1)
  end.

Definition findIndex {A} (p : A -> bool) (l : list A) : Z := findIndexFrom p l 0.

(** [s.includes(sub)]. *)
Fixpoint includes (s sub : string) : bool :=
  String.prefix sub s ||
  match s with
  | String _ r => includes r sub
  | EmptyString => false
  end.

(** The part of [s] before the first [sep] and the part after it, if any. *)
Fixpoint cutAt (sep : ascii) (s : string) : string * option string :=
  match s with
  | EmptyString => (EmptyString, None)
  | String c r =>
      if Ascii.eqb c sep then (EmptyString, Some r)
      else let '(a, b) := cutAt sep r in (String c a, b)
  end.

(** [s.split(sep)] for a one-character separator. *)
Fixpoint splitOn (sep : ascii) (s : string) : list string :=
  match s with
  | EmptyString => [EmptyString]
  | String c r =>
      let parts := splitOn sep r in
      if Ascii.eqb c sep then EmptyString :: parts
      else match parts with
           | p :: ps => String c p :: ps
           | [] => [String c EmptyString]
           end
  end.

(** [s] without its first [n] characters. *)
Fixpoint skip (n : nat) (s : string) : string :=
  match n, s with
  | S n, String _ r => skip n r
  | _, _ => s
  end.

(** The longest prefix of decimal digits, and the rest. *)
Fixpoint takeDigits (s : string) : string * string :=
  match s with
  | String c r =>
      match digitValue 10 c with
      | Some _ => let '(ds, rest) := takeDigits r in (String c ds, rest)
      | None => (EmptyString, s)
      end
  | EmptyString => (EmptyString, EmptyString)
  end.

End Js.

Export Js.

Example parseInt_360p : parseInt "360p" = Some 360.
Proof. reflexivity. Qed.

Example parseInt_hd : parseInt "hd" = None.
Proof. reflexivity. Qed.

Example parseInt_neg : parseInt "  -12px" = Some (-12).
Proof. reflexivity. Qed.

Example parseInt_hex : parseInt "0x1F" = Some 31.
Proof. reflexivity. Qed.

Example numToString_18 : numToString 18 = "18".
Proof. reflexivity. Qed.

Example includes_mp4a : includes "avc1.42001E, mp4a.40.2" "mp4a" = true.
Proof. reflexivity. Qed.

(* ===================================================================== *)
(** ** src/format-utils.ts *)
(* ===================================================================== *)

Module FormatUtils.

(** [interface VideoFormat]: the properties the modelled code reads or
    writes.  Numeric properties hold [None] for [undefined] (and for [NaN],
    which every reader below treats alike through [x || 0] or [!!x]). *)
Record VideoFormat := mkVideoFormat {
  itag : Z;
  url : option string;
  mimeType : option string;
  bitrate : option Z;
  audioBitrate : option Z;
  width : option Z;
  height : option Z;
  fps : option Z;
  contentLength : option string;
  qualityLabel : option string;
  audioSampleRate : option string;
  codecs : option string;
  hasVideo : option bool;
  hasAudio : option bool;
  isLive : option bool;
  isHLS : option bool;
  isDashMPD : option bool;
  signatureCipher : option string;
  cipher : option string
}.

(** A format object with only [itag] set. *)
Definition bareFormat (i : Z) : VideoFormat :=
  mkVideoFormat i None None None None None None None None None None None
                None None None None None None None.

Definition withUrl (u : option string) (f : VideoFormat) : VideoFormat :=
  mkVideoFormat (itag f) u (mimeType f) (bitrate f) (audioBitrate f) (width f)
    (height f) (fps f) (contentLength f) (qualityLabel f) (audioSampleRate f)
    (codecs f) (hasVideo f) (hasAudio f) (isLive f) (isHLS f) (isDashMPD f)
    (signatureCipher f) (cipher f).

Definition withMimeType (m : option string) (f : VideoFormat) : VideoFormat :=
  mkVideoFormat (itag f) (url f) m (bitrate f) (audioBitrate f) (width f)
    (height f) (fps f) (contentLength f) (qualityLabel f) (audioSampleRate f)
    (codecs f) (hasVideo f) (hasAudio f) (isLive f) (isHLS f) (isDashMPD f)
    (signatureCipher f) (cipher f).

Definition withQualityLabel (q : option string) (f : VideoFormat) : VideoFormat :=
  mkVideoFormat (itag f) (url f) (mimeType f) (bitrate f) (audioBitrate f) (width f)
    (height f) (fps f) (contentLength f) q (audioSampleRate f)
    (codecs f) (hasVideo f) (hasAudio f) (isLive f) (isHLS f) (isDashMPD f)
    (signatureCipher f) (cipher f).

Definition withAV (v a : option bool) (f : VideoFormat) : VideoFormat :=
  mkVideoFormat (itag f) (url f) (mimeType f) (bitrate f) (audioBitrate f) (width f)
    (height f) (fps f) (contentLength f) (qualityLabel f) (audioSampleRate f)
    (codecs f) v a (isLive f) (isHLS f) (isDashMPD f)
    (signatureCipher f) (cipher f).

Definition withAudioBitrate (b : option Z) (f : VideoFormat) : VideoFormat :=
  mkVideoFormat (itag f) (url f) (mimeType f) (bitrate f) b (width f)
    (height f) (fps f) (contentLength f) (qualityLabel f) (audioSampleRate f)
    (codecs f) (hasVideo f) (hasAudio f) (isLive f) (isHLS f) (isDashMPD f)
    (signatureCipher f) (cipher f).

Definition withBitrate (b : option Z) (f : VideoFormat) : VideoFormat :=
  mkVideoFormat (itag f) (url f) (mimeType f) b (audioBitrate f) (width f)
    (height f) (fps f) (contentLength f) (qualityLabel f) (audioSampleRate f)
    (codecs f) (hasVideo f) (hasAudio f) (isLive f) (isHLS f) (isDashMPD f)
    (signatureCipher f) (cipher f).

Definition withPicture (w h r : option Z) (f : VideoFormat) : VideoFormat :=
  mkVideoFormat (itag f) (url f) (mimeType f) (bitrate f) (audioBitrate f) w
    h r (contentLength f) (qualityLabel f) (audioSampleRate f)
    (codecs f) (hasVideo f) (hasAudio f) (isLive f) (isHLS f) (isDashMPD f)
    (signatureCipher f) (cipher f).

Definition withAudioSampleRate (r : option string) (f : VideoFormat) : VideoFormat :=
  mkVideoFormat (itag f) (url f) (mimeType f) (bitrate f) (audioBitrate f) (width f)
    (height f) (fps f) (contentLength f) (qualityLabel f) r
    (codecs f) (hasVideo f) (hasAudio f) (isLive f) (isHLS f) (isDashMPD f)
    (signatureCipher f) (cipher f).

Definition withContentLength (l : option string) (f : VideoFormat) : VideoFormat :=
  mkVideoFormat (itag f) (url f) (mimeType f) (bitrate f) (audioBitrate f) (width f)
    (height f) (fps f) l (qualityLabel f) (audioSampleRate f)
    (codecs f) (hasVideo f) (hasAudio f) (isLive f) (isHLS f) (isDashMPD f)
    (signatureCipher f) (cipher f).

Definition withCipher (sc c : option string) (f : VideoFormat) : VideoFormat :=
  mkVideoFormat (itag f) (url f) (mimeType f) (bitrate f) (audioBitrate f) (width f)
    (height f) (fps f) (contentLength f) (qualityLabel f) (audioSampleRate f)
    (codecs f) (hasVideo f) (hasAudio f) (isLive f) (isHLS f) (isDashMPD f)
    sc c.

(** [type FormatFilter]: a string (the six names, or any other string a
    JavaScript caller passes) or a predicate. *)
Inductive FormatFilter :=
| FilterName (name : string)
| FilterFn (fn : VideoFormat -> bool).

(** An itag as a caller writes it: [string | number]. *)
Inductive QualityItem :=
| QStr (s : string)
| QNum (n : Z).

(** [quality?: string | number | string[] | number[]]. *)
Inductive Quality :=
| QOne (q : QualityItem)
| QMany (qs : list QualityItem).

Record FormatOptions := mkFormatOptions {
  quality : option Quality;
  filter : option FormatFilter;
  format : option VideoFormat
}.

Definition audioEncodingRanks : list string :=
  ["mp4a"; "mp3"; "vorbis"; "aac"; "opus"; "flac"].

Definition videoEncodingRanks : list string :=
  ["mp4v"; "avc1"; "Sorenson H.283"; "MPEG-4 Visual"; "VP8"; "VP9"; "H.264"].

Definition getVideoBitrate (format : VideoFormat) : option Z :=
  Some (orZero (bitrate format)).

(** [format.codecs?.includes(enc) || false] *)
Definition codecsInclude (format : VideoFormat) (enc : string) : bool :=
  match codecs format with
  | Some c => includes c enc
  | None => false
  end.

Definition getVideoEncodingRank (format : VideoFormat) : option Z :=
  Some (findIndex (codecsInclude format) videoEncodingRanks).

Definition getAudioBitrate (format : VideoFormat) : option Z :=
  Some (orZero (audioBitrate format)).

Definition getAudioEncodingRank (format : VideoFormat) : option Z :=
  Some (findIndex (codecsInclude format) audioEncodingRanks).

(** [x - y] on numbers, [None] being [NaN]. *)
Definition numSub (x y : option Z) : option Z :=
  match x, y with
  | Some x, Some y => Some (x - y)
  | _, _ => None
  end.

(** [res !== 0] *)
Definition notZero (res : option Z) : bool :=
  match res with
  | Some z => negb (z =? 0)
  | None => true
  end.

(** [res === 0] *)
Definition isZero (res : option Z) : bool := negb (notZero res).

Fixpoint sortFormatsBy (a b : VideoFormat)
    (sortBy : list (VideoFormat -> option Z)) : option Z :=
  match sortBy with
  | [] => Some 0
  | fn :: rest =>
      let res := numSub (fn b) (fn a) in
      if notZero res then res else sortFormatsBy a b rest
  end.

(** [parseInt(format.qualityLabel || '0')] *)
Definition qualityLabelInt (format : VideoFormat) : option Z :=
  parseInt (orString (qualityLabel format) "0").

(** [parseInt(format.qualityLabel || '0') || 0] *)
Definition qualityLabelNum (format : VideoFormat) : Z :=
  orZero (qualityLabelInt format).

Definition sortFormatsByVideo (a b : VideoFormat) : option Z :=
  sortFormatsBy a b [qualityLabelInt; getVideoBitrate; getVideoEncodingRank].

Definition sortFormatsByAudio (a b : VideoFormat) : option Z :=
  sortFormatsBy a b [getAudioBitrate; getAudioEncodingRank].

Definition boolNum (b : bool) : option Z := Some (if b then 1 else 0).

(** [parseInt(format.contentLength || '0') > 0] *)
Definition hasContentLength (format : VideoFormat) : bool :=
  match parseInt (orString (contentLength format) "0") with
  | Some n => 0 <? n
  | None => false
  end.

Definition sortFormats (a b : VideoFormat) : option Z :=
  sortFormatsBy a b [
    (fun format => boolNum (truthyB (isHLS format)));
    (fun format => boolNum (truthyB (isDashMPD format)));
    (fun format => boolNum (hasContentLength format));
    (fun format => boolNum (truthyB (hasVideo format) && truthyB (hasAudio format)));
    (fun format => boolNum (truthyB (hasVideo format)));
    (fun format => Some (qualityLabelNum format));
    getVideoBitrate;
    getAudioBitrate;
    getVideoEncodingRank;
    getAudioEncodingRank
  ].

Definition itemToString (q : QualityItem) : string :=
  match q with
  | QStr s => s
  | QNum n => numToString n
  end.

(** Truthiness of an itag as written by the caller. *)
Definition truthyItem (q : QualityItem) : bool :=
  match q with
  | QStr s => negb (String.eqb s "")
  | QNum n => negb (n =? 0)
  end.

(** [`${quality}`]: an array prints as its items joined by commas. *)
Definition qualityToString (q : Quality) : string :=
  match q with
  | QOne q => itemToString q
  | QMany qs => String.concat "," (map itemToString qs)
  end.

(** The inner [getFormat] of [getFormatByQuality]. *)
Definition getFormat (formats : list VideoFormat) (i : QualityItem) : option VideoFormat :=
  find (fun format => String.eqb (numToString (itag format)) (itemToString i)) formats.

Definition getFormatByQuality (quality : Quality) (formats : list VideoFormat)
    : option VideoFormat :=
  match quality with
  | QMany qs =>
      match find (fun q => match getFormat formats q with Some _ => true | None => false end) qs with
      | Some foundQuality =>
          if truthyItem foundQuality then getFormat formats foundQuality else None
      | None => None
      end
  | QOne q => getFormat formats q
  end.

(** The predicate the [switch] of [filterFormats] selects; the [default]
    branch throws for a string that is not one of the six names. *)
Definition filterPredicate (filter : FormatFilter) : result (VideoFormat -> bool) :=
  match filter with
  | FilterName name =>
      if String.eqb name "videoandaudio" || String.eqb name "audioandvideo" then
        Ok (fun format => truthyB (hasVideo format) && truthyB (hasAudio format))
      else if String.eqb name "video" then
        Ok (fun format => truthyB (hasVideo format))
      else if String.eqb name "videoonly" then
        Ok (fun format => truthyB (hasVideo format) && negb (truthyB (hasAudio format)))
      else if String.eqb name "audio" then
        Ok (fun format => truthyB (hasAudio format))
      else if String.eqb name "audioonly" then
        Ok (fun format => truthyB (hasAudio format) && negb (truthyB (hasVideo format)))
      else
        Throw (TypeError ("Given filter (" +:+ name +:+ ") is not supported"))
  | FilterFn fn => Ok fn
  end.

Definition filterFormats (formats : list VideoFormat) (filter : FormatFilter)
    : result (list VideoFormat) :=
  rbind (filterPredicate filter) (fun fn =>
  Ok (List.filter (fun format => truthyS (url format) && fn format) formats)).

(** [if (options.filter)]: a predicate is truthy, a string unless empty. *)
Definition truthyFilter (f : option FormatFilter) : bool :=
  match f with
  | Some (FilterName name) => negb (String.eqb name "")
  | Some (FilterFn _) => true
  | None => false
  end.

(** [options.quality || 'highest'] *)
Definition effectiveQuality (q : option Quality) : Quality :=
  match q with
  | Some (QOne i) => if truthyItem i then QOne i else QOne (QStr "highest")
  | Some (QMany qs) => QMany qs
  | None => QOne (QStr "highest")
  end.

(** [a - b] as the comparator of a number array. *)
Definition numCompare (a b : Z) : option Z := Some (a - b).

(** The [highestaudio] / [highestvideo] cases: after the sort, keep the
    formats that compare equal to the first one, then return the first of
    them whose other dimension is the least. *)
Definition pickCheapest (cmp : VideoFormat -> VideoFormat -> option Z)
    (other : VideoFormat -> Z) (sorted : list VideoFormat) : option VideoFormat :=
  match sorted with
  | [] => None
  | best :: _ =>
      let formats := List.filter (fun f => isZero (cmp best f)) sorted in
      match arraySort numCompare (map other formats) with
      | [] => None
      | worst :: _ => find (fun f => other f =? worst) formats
      end
  end.

Definition isNamed (q : Quality) (name : string) : bool :=
  match q with
  | QOne (QStr s) => String.eqb s name
  | _ => false
  end.

Definition chooseFormat (formats : list VideoFormat) (options : FormatOptions)
    : result VideoFormat :=
  match format options with
  | Some given =>
      if truthyS (url given) then Ok given
      else Throw (Error "Invalid format given, did you use `ytdl.getInfo()`?")
  | None =>
      rbind (if truthyFilter (filter options)
             then match filter options with
                  | Some flt => filterFormats formats flt
                  | None => Ok formats
                  end
             else Ok formats) (fun formats =>
      let formats :=
        if existsb (fun fmt => truthyB (isHLS fmt)) formats
        then List.filter (fun fmt => truthyB (isHLS fmt) || negb (truthyB (isLive fmt))) formats
        else formats in
      let quality := effectiveQuality (quality options) in
      rbind (
        if isNamed quality "highest" then Ok (hd_error formats)
        else if isNamed quality "lowest" then Ok (lastItem formats)
        else if isNamed quality "highestaudio" then
          rbind (filterFormats formats (FilterName "audio")) (fun formats =>
          Ok (pickCheapest sortFormatsByAudio qualityLabelNum
                (arraySort sortFormatsByAudio formats)))
        else if isNamed quality "lowestaudio" then
          rbind (filterFormats formats (FilterName "audio")) (fun formats =>
          Ok (lastItem (arraySort sortFormatsByAudio formats)))
        else if isNamed quality "highestvideo" then
          rbind (filterFormats formats (FilterName "video")) (fun formats =>
          Ok (pickCheapest sortFormatsByVideo (fun f => orZero (audioBitrate f))
                (arraySort sortFormatsByVideo formats)))
        else if isNamed quality "lowestvideo" then
          rbind (filterFormats formats (FilterName "video")) (fun formats =>
          Ok (lastItem (arraySort sortFormatsByVideo formats)))
        else Ok (getFormatByQuality quality formats)) (fun format =>
      match format with
      | Some f => Ok f
      | None => Throw (Error ("No such format found: " +:+ qualityToString quality))
      end))
  end.

End FormatUtils.

Module FormatUtilsFacts.
Import FormatUtils.

(** *** Membership through the list operations *)

Lemma sortInsert_perm {A} (cmp : A -> A -> option Z) (x : A) (l : list A) :
  Permutation (x :: l) (sortInsert cmp x l).
Proof.
  induction l as [|y ys IH]; simpl.
  - apply Permutation_refl.
  - destruct (cmpPositive (cmp x y)).
    + eapply perm_trans; [apply perm_swap|]. apply perm_skip, IH.
    + apply Permutation_refl.
Qed.

Lemma arraySort_perm {A} (cmp : A -> A -> option Z) (l : list A) :
  Permutation l (arraySort cmp l).
Proof.
  induction l as [|x xs IH]; simpl.
  - apply perm_nil.
  - eapply perm_trans; [apply perm_skip, IH|]. apply sortInsert_perm.
Qed.

Lemma arraySort_In {A} (cmp : A -> A -> option Z) (l : list A) (x : A) :
  In x (arraySort cmp l) <-> In x l.
Proof.
  split; intros H.
  - eapply Permutation_in; [apply Permutation_sym, arraySort_perm|exact H].
  - eapply Permutation_in; [apply arraySort_perm|exact H].
Qed.

Lemma hd_error_In {A} (l : list A) (x : A) : hd_error l = Some x -> In x l.
Proof. destruct l; simpl; [discriminate|]. intros [= ->]. now left. Qed.

Lemma lastItem_In {A} (l : list A) (x : A) : lastItem l = Some x -> In x l.
Proof.
  induction l as [|y [|z zs] IH]; simpl; try discriminate.
  - intros [= ->]. now left.
  - intros H. right. apply IH. exact H.
Qed.

Lemma lastItem_nonempty {A} (l : list A) : l <> [] -> exists x, lastItem l = Some x.
Proof.
  induction l as [|y [|z zs] IH]; intros Hne; [congruence| |].
  - now exists y.
  - destruct IH as [x Hx]; [discriminate|]. exists x. exact Hx.
Qed.

Lemma filterFormats_In formats flt out f :
  filterFormats formats flt = Ok out -> In f out -> In f formats.
Proof.
  unfold filterFormats. destruct (filterPredicate flt); simpl; [|discriminate].
  intros [= <-] H. apply filter_In in H. tauto.
Qed.

Lemma pickCheapest_In cmp other sorted f :
  pickCheapest cmp other sorted = Some f -> In f sorted.
Proof.
  unfold pickCheapest. destruct sorted as [|best rest]; [discriminate|].
  destruct (arraySort numCompare _) as [|worst ws]; [discriminate|].
  intros H. apply find_some in H as [H _]. apply filter_In in H. tauto.
Qed.

Lemma getFormat_In formats i f : getFormat formats i = Some f -> In f formats.
Proof. unfold getFormat. intros H. apply find_some in H. tauto. Qed.

Lemma getFormatByQuality_In q formats f :
  getFormatByQuality q formats = Some f -> In f formats.
Proof.
  destruct q as [i|qs]; simpl.
  - apply getFormat_In.
  - destruct (find _ qs) as [found|]; [|discriminate].
    destruct (truthyItem found); [|discriminate]. apply getFormat_In.
Qed.

(** The formats left after the HLS step of [chooseFormat] come from the input. *)
Definition hlsNarrow (formats : list VideoFormat) : list VideoFormat :=
  if existsb (fun fmt => truthyB (isHLS fmt)) formats
  then List.filter (fun fmt => truthyB (isHLS fmt) || negb (truthyB (isLive fmt))) formats
  else formats.

Lemma hlsNarrow_In formats f : In f (hlsNarrow formats) -> In f formats.
Proof.
  unfold hlsNarrow. destruct (existsb _ formats); [|tauto].
  intros H. apply filter_In in H. tauto.
Qed.

(** The value the [switch] of [chooseFormat] leaves in [format]. *)
Definition selected (formats : list VideoFormat) (q : Quality) : result (option VideoFormat) :=
  if isNamed q "highest" then Ok (hd_error formats)
  else if isNamed q "lowest" then Ok (lastItem formats)
  else if isNamed q "highestaudio" then
    rbind (filterFormats formats (FilterName "audio")) (fun formats =>
    Ok (pickCheapest sortFormatsByAudio qualityLabelNum
          (arraySort sortFormatsByAudio formats)))
  else if isNamed q "lowestaudio" then
    rbind (filterFormats formats (FilterName "audio")) (fun formats =>
    Ok (lastItem (arraySort sortFormatsByAudio formats)))
  else if isNamed q "highestvideo" then
    rbind (filterFormats formats (FilterName "video")) (fun formats =>
    Ok (pickCheapest sortFormatsByVideo (fun f => orZero (audioBitrate f))
          (arraySort sortFormatsByVideo formats)))
  else if isNamed q "lowestvideo" then
    rbind (filterFormats formats (FilterName "video")) (fun formats =>
    Ok (lastItem (arraySort sortFormatsByVideo formats)))
  else Ok (getFormatByQuality q formats).

Lemma chooseFormat_unfold formats q :
  chooseFormat formats (mkFormatOptions q None None) =
  rbind (selected (hlsNarrow formats) (effectiveQuality q)) (fun format =>
    match format with
    | Some f => Ok f
    | None => Throw (Error ("No such format found: " +:+ qualityToString (effectiveQuality q)))
    end).
Proof. reflexivity. Qed.

Lemma selected_total formats q : exists o, selected formats q = Ok o.
Proof.
  unfold selected.
  repeat match goal with
         | |- context [if ?b then _ else _] => destruct b
         end; simpl; eauto.
Qed.

Lemma selected_In formats q f :
  selected formats q = Ok (Some f) -> In f formats.
Proof.
  unfold selected.
  repeat match goal with
         | |- context [if isNamed ?a ?b then _ else _] => destruct (isNamed a b)
         end.
  - intros [= H]. now apply hd_error_In.
  - intros [= H]. now apply lastItem_In.
  - destruct (filterFormats formats (FilterName "audio")) as [fs|] eqn:Hf; simpl; [|discriminate].
    intros [= H]. apply pickCheapest_In, arraySort_In in H.
    eapply filterFormats_In; eauto.
  - destruct (filterFormats formats (FilterName "audio")) as [fs|] eqn:Hf; simpl; [|discriminate].
    intros [= H]. apply lastItem_In, arraySort_In in H.
    eapply filterFormats_In; eauto.
  - destruct (filterFormats formats (FilterName "video")) as [fs|] eqn:Hf; simpl; [|discriminate].
    intros [= H]. apply pickCheapest_In, arraySort_In in H.
    eapply filterFormats_In; eauto.
  - destruct (filterFormats formats (FilterName "video")) as [fs|] eqn:Hf; simpl; [|discriminate].
    intros [= H]. apply lastItem_In, arraySort_In in H.
    eapply filterFormats_In; eauto.
  - intros [= H]. now apply getFormatByQuality_In in H.
Qed.

(** C2 -- for every format list and every quality ([undefined], one of the
    six mode names, an itag given as a number or a string, or a list of
    itags), [chooseFormat(formats, {quality})] either returns a format that
    is an element of [formats], or throws [Error] with the message
    "No such format found: " followed by the requested quality (the default
    [highest] when the caller gave none).  It never returns anything else. *)
Theorem chooseFormat_member_or_no_such_format :
  forall (formats : list VideoFormat) (q : option Quality),
    (exists f, chooseFormat formats (mkFormatOptions q None None) = Ok f /\ In f formats)
    \/ chooseFormat formats (mkFormatOptions q None None)
       = Throw (Error ("No such format found: " +:+ qualityToString (effectiveQuality q))).
Proof.
  intros formats q. rewrite chooseFormat_unfold.
  destruct (selected_total (hlsNarrow formats) (effectiveQuality q)) as [[f|] Hs];
    rewrite Hs; simpl.
  - left. exists f. split; [reflexivity|].
    apply hlsNarrow_In. eapply selected_In. exact Hs.
  - right. reflexivity.
Qed.

(** The requested quality is the one the caller wrote whenever it is truthy. *)
Lemma effectiveQuality_given q :
  match q with
  | QOne i => truthyItem i = true
  | QMany _ => True
  end -> effectiveQuality (Some q) = q.
Proof. destruct q as [i|qs]; simpl; [intros ->|]; reflexivity. Qed.

(** With a filter as well the chosen format still comes from the input. *)
Lemma chooseFormat_filter_unfold formats q flt :
  chooseFormat formats (mkFormatOptions q flt None) =
  rbind (if truthyFilter flt
         then match flt with
              | Some flt => filterFormats formats flt
              | None => Ok formats
              end
         else Ok formats) (fun fs =>
  rbind (selected (hlsNarrow fs) (effectiveQuality q)) (fun format =>
    match format with
    | Some f => Ok f
    | None => Throw (Error ("No such format found: " +:+ qualityToString (effectiveQuality q)))
    end)).
Proof. reflexivity. Qed.

Lemma chooseFormat_filtered_member formats q flt f :
  chooseFormat formats (mkFormatOptions q flt None) = Ok f -> In f formats.
Proof.
  rewrite chooseFormat_filter_unfold.
  destruct (if truthyFilter flt then _ else _) as [fs|] eqn:Hflt; cbn [rbind]; [|discriminate].
  destruct (selected (hlsNarrow fs) (effectiveQuality q)) as [[g|]|] eqn:Hs;
    cbn [rbind]; try discriminate.
  intros [= <-]. apply selected_In, hlsNarrow_In in Hs.
  destruct (truthyFilter flt); [|congruence].
  destruct flt as [flt|]; [|congruence].
  eapply filterFormats_In; eauto.
Qed.

(** *** What the sort establishes

    [notAfter cmp x y]: the comparator does not ask for [x] to be moved
    behind [y].  For a comparator that is total and transitive on the
    elements of the array, the sorted array is ordered by it. *)

Definition notAfter {A} (cmp : A -> A -> option Z) (x y : A) : Prop :=
  cmpPositive (cmp x y) = false.

Section SortOrder.
Context {A : Type} (cmp : A -> A -> option Z) (P : A -> Prop).
Hypothesis cmp_total :
  forall x y, P x -> P y -> cmpPositive (cmp x y) = true -> notAfter cmp y x.
Hypothesis cmp_trans :
  forall x y z, P x -> P y -> P z ->
    notAfter cmp x y -> notAfter cmp y z -> notAfter cmp x z.

Lemma notAfter_refl x : P x -> notAfter cmp x x.
Proof.
  intros Hx. unfold notAfter.
  destruct (cmpPositive (cmp x x)) eqn:E; [|reflexivity].
  apply (cmp_total x x Hx Hx) in E as E'. unfold notAfter in E'. congruence.
Qed.

Lemma sortInsert_sorted x l :
  P x -> Forall P l -> StronglySorted (notAfter cmp) l ->
  StronglySorted (notAfter cmp) (sortInsert cmp x l).
Proof.
  intros Hx HP Hs. induction Hs as [|y ys Hs IH Hy]; simpl.
  - constructor; constructor.
  - inversion HP as [|? ? Py Pys]; subst.
    destruct (cmpPositive (cmp x y)) eqn:E.
    + constructor; [apply IH; assumption|].
      apply List.Forall_forall. intros z Hz.
      apply (Permutation_in z (Permutation_sym (sortInsert_perm cmp x ys))) in Hz.
      destruct Hz as [<-|Hz].
      * apply cmp_total; assumption.
      * rewrite List.Forall_forall in Hy. apply Hy, Hz.
    + constructor; [constructor; assumption|].
      constructor; [exact E|].
      rewrite List.Forall_forall in Hy, Pys. apply List.Forall_forall. intros z Hz.
      apply cmp_trans with y; auto.
Qed.

Lemma arraySort_sorted l :
  Forall P l -> StronglySorted (notAfter cmp) (arraySort cmp l).
Proof.
  induction l as [|x xs IH]; intros HP; simpl.
  - constructor.
  - inversion HP; subst. apply sortInsert_sorted; auto.
    apply List.Forall_forall. intros z Hz. apply arraySort_In in Hz.
    rewrite List.Forall_forall in H2. auto.
Qed.

Lemma arraySort_head_first l b rest :
  Forall P l -> arraySort cmp l = b :: rest ->
  forall g, In g l -> notAfter cmp b g.
Proof.
  intros HP E g Hg.
  pose proof (arraySort_sorted l HP) as Hs. rewrite E in Hs.
  apply (arraySort_In cmp) in Hg. rewrite E in Hg.
  inversion Hs as [|? ? _ Hall]; subst.
  destruct Hg as [<-|Hg].
  - apply notAfter_refl. rewrite List.Forall_forall in HP. apply HP.
    apply (arraySort_In cmp). rewrite E. now left.
  - rewrite List.Forall_forall in Hall. auto.
Qed.

Lemma sorted_last_behind l w :
  Forall P l -> StronglySorted (notAfter cmp) l -> lastItem l = Some w ->
  forall g, In g l -> notAfter cmp g w.
Proof.
  intros HP Hs. induction Hs as [|y ys Hs IH Hy]; intros Hl g Hg; [destruct Hg|].
  inversion HP as [|? ? Py Pys]; subst.
  destruct ys as [|z zs].
  - simpl in Hl. injection Hl as <-. destruct Hg as [<-|[]].
    now apply notAfter_refl.
  - change (lastItem (y :: z :: zs)) with (lastItem (z :: zs)) in Hl.
    destruct Hg as [<-|Hg].
    + rewrite List.Forall_forall in Hy. apply Hy. now apply lastItem_In.
    + apply IH; auto.
Qed.

Lemma arraySort_last_behind l w :
  Forall P l -> lastItem (arraySort cmp l) = Some w ->
  forall g, In g l -> notAfter cmp g w.
Proof.
  intros HP Hl g Hg.
  apply sorted_last_behind with (arraySort cmp l); auto.
  - apply List.Forall_forall. intros z Hz. apply arraySort_In in Hz.
    rewrite List.Forall_forall in HP. auto.
  - now apply arraySort_sorted.
  - now apply arraySort_In.
Qed.

End SortOrder.

(** The least number comes first under [(a, b) => a - b]. *)
Lemma numSort_head_least (l : list Z) (w : Z) (rest : list Z) :
  arraySort numCompare l = w :: rest -> forall n, In n l -> w <= n.
Proof.
  intros E n Hn.
  assert (H : notAfter numCompare w n).
  { apply (arraySort_head_first numCompare (fun _ => True)) with l rest; auto.
    - unfold notAfter, numCompare; simpl. intros x y _ _ H.
      apply Z.ltb_lt in H. apply Z.ltb_ge. lia.
    - unfold notAfter, numCompare; simpl. intros x y z _ _ _ H1 H2.
      apply Z.ltb_ge in H1, H2. apply Z.ltb_ge. lia.
    - apply List.Forall_forall. auto. }
  unfold notAfter, numCompare in H; simpl in H. apply Z.ltb_ge in H. lia.
Qed.

(** [pickCheapest] on a non-empty sorted array whose first element compares
    equal to itself: the result compares equal to the first element and no
    format that does so has a smaller other dimension. *)
Lemma pickCheapest_spec cmp other best rest :
  isZero (cmp best best) = true ->
  exists f, pickCheapest cmp other (best :: rest) = Some f /\
    In f (best :: rest) /\ isZero (cmp best f) = true /\
    forall g, In g (best :: rest) -> isZero (cmp best g) = true -> other f <= other g.
Proof.
  intros Hbb. unfold pickCheapest.
  set (tied := List.filter (fun f => isZero (cmp best f)) (best :: rest)).
  assert (Hb : In best tied).
  { apply filter_In. split; [now left|exact Hbb]. }
  destruct (arraySort numCompare (map other tied)) as [|worst ws] eqn:E.
  - exfalso. apply (in_map other) in Hb.
    apply (arraySort_In numCompare) in Hb. rewrite E in Hb. destruct Hb.
  - assert (Hw : In worst (map other tied)).
    { apply (arraySort_In numCompare). rewrite E. now left. }
    apply in_map_iff in Hw as (f0 & Hf0 & Hin0).
    destruct (find (fun f => other f =? worst) tied) as [f|] eqn:Ef.
    + exists f. split; [reflexivity|].
      apply find_some in Ef as [Hin Heq]. apply Z.eqb_eq in Heq.
      apply filter_In in Hin as [Hin Hz].
      repeat split; auto.
      intros g Hg Hgz. rewrite Heq.
      apply (numSort_head_least _ _ _ E). apply in_map.
      apply filter_In. auto.
    + exfalso. apply (find_none _ _ Ef) in Hin0.
      apply Z.eqb_neq in Hin0. congruence.
Qed.

(** *** The audio ranking *)

Definition audioRank (f : VideoFormat) : Z :=
  findIndex (codecsInclude f) audioEncodingRanks.

(** [x] ranks at least as high as [y] by audio bitrate, then codec rank. *)
Definition audioAtLeast (x y : VideoFormat) : Prop :=
  orZero (audioBitrate y) < orZero (audioBitrate x) \/
  (orZero (audioBitrate y) = orZero (audioBitrate x) /\ audioRank y <= audioRank x).

Definition audioTied (x y : VideoFormat) : Prop :=
  orZero (audioBitrate y) = orZero (audioBitrate x) /\ audioRank y = audioRank x.

Lemma sortFormatsByAudio_spec a b :
  sortFormatsByAudio a b =
  Some (if orZero (audioBitrate b) - orZero (audioBitrate a) =? 0
        then audioRank b - audioRank a
        else orZero (audioBitrate b) - orZero (audioBitrate a)).
Proof.
  unfold sortFormatsByAudio, sortFormatsBy, getAudioBitrate, getAudioEncodingRank,
    numSub, notZero, audioRank.
  destruct (orZero (audioBitrate b) - orZero (audioBitrate a) =? 0) eqn:E1; cbn [negb];
    [|reflexivity].
  match goal with
  | |- context [negb (?r =? 0)] => destruct (r =? 0) eqn:E2; cbn [negb]; [|reflexivity]
  end.
  apply Z.eqb_eq in E2. now rewrite E2.
Qed.

Lemma audio_notAfter_iff x y :
  notAfter sortFormatsByAudio x y <-> audioAtLeast x y.
Proof.
  unfold notAfter, audioAtLeast. rewrite sortFormatsByAudio_spec. simpl.
  destruct (_ - _ =? 0) eqn:E; rewrite Z.ltb_ge.
  - apply Z.eqb_eq in E. lia.
  - apply Z.eqb_neq in E. lia.
Qed.

Lemma audio_isZero_iff x y :
  isZero (sortFormatsByAudio x y) = true <-> audioTied x y.
Proof.
  unfold isZero, notZero, audioTied. rewrite sortFormatsByAudio_spec.
  rewrite negb_involutive.
  destruct (_ - _ =? 0) eqn:E; rewrite Z.eqb_eq.
  - apply Z.eqb_eq in E. lia.
  - apply Z.eqb_neq in E. lia.
Qed.

Lemma audio_total x y :
  cmpPositive (sortFormatsByAudio x y) = true -> notAfter sortFormatsByAudio y x.
Proof.
  intros H. apply audio_notAfter_iff.
  assert (Hn : ~ audioAtLeast x y).
  { rewrite <- audio_notAfter_iff. unfold notAfter. congruence. }
  unfold audioAtLeast in *. lia.
Qed.

Lemma audio_trans x y z :
  notAfter sortFormatsByAudio x y -> notAfter sortFormatsByAudio y z ->
  notAfter sortFormatsByAudio x z.
Proof. rewrite !audio_notAfter_iff. unfold audioAtLeast. lia. Qed.

(** *** The video ranking

    [sortFormatsByVideo] compares [parseInt(qualityLabel || '0')] without the
    [|| 0] guard, so a label that does not start with a number makes the
    comparison [NaN]; the order lemmas are for formats whose label is absent
    or numeric. *)

Definition videoRank (f : VideoFormat) : Z :=
  findIndex (codecsInclude f) videoEncodingRanks.

Definition numericLabel (f : VideoFormat) : Prop := qualityLabelInt f <> None.

(** [x] ranks at least as high as [y] by quality label, then bitrate, then
    codec rank. *)
Definition videoAtLeast (x y : VideoFormat) : Prop :=
  qualityLabelNum y < qualityLabelNum x \/
  (qualityLabelNum y = qualityLabelNum x /\
   (orZero (bitrate y) < orZero (bitrate x) \/
    (orZero (bitrate y) = orZero (bitrate x) /\ videoRank y <= videoRank x))).

Definition videoTied (x y : VideoFormat) : Prop :=
  qualityLabelNum y = qualityLabelNum x /\
  orZero (bitrate y) = orZero (bitrate x) /\ videoRank y = videoRank x.

Lemma sortFormatsByVideo_spec a b :
  numericLabel a -> numericLabel b ->
  sortFormatsByVideo a b =
  Some (if qualityLabelNum b - qualityLabelNum a =? 0
        then if orZero (bitrate b) - orZero (bitrate a) =? 0
             then videoRank b - videoRank a
             else orZero (bitrate b) - orZero (bitrate a)
        else qualityLabelNum b - qualityLabelNum a).
Proof.
  unfold numericLabel, qualityLabelNum. intros Ha Hb.
  destruct (qualityLabelInt a) as [qa|] eqn:Ea; [|congruence].
  destruct (qualityLabelInt b) as [qb|] eqn:Eb; [|congruence].
  unfold sortFormatsByVideo, sortFormatsBy, getVideoBitrate, getVideoEncodingRank,
    videoRank. rewrite Ea, Eb. cbn [numSub notZero orZero].
  destruct (qb - qa =? 0) eqn:E1; cbn [negb]; [|reflexivity].
  destruct (orZero (bitrate b) - orZero (bitrate a) =? 0) eqn:E2; cbn [negb];
    [|reflexivity].
  match goal with
  | |- context [negb (?r =? 0)] => destruct (r =? 0) eqn:E3; cbn [negb]; [|reflexivity]
  end.
  apply Z.eqb_eq in E3. now rewrite E3.
Qed.

Lemma video_notAfter_iff x y :
  numericLabel x -> numericLabel y ->
  (notAfter sortFormatsByVideo x y <-> videoAtLeast x y).
Proof.
  intros Hx Hy. unfold notAfter, videoAtLeast.
  rewrite sortFormatsByVideo_spec by assumption. cbn [cmpPositive].
  rewrite Z.ltb_ge.
  destruct (qualityLabelNum y - qualityLabelNum x =? 0) eqn:E1;
    [apply Z.eqb_eq in E1|apply Z.eqb_neq in E1; lia].
  destruct (orZero (bitrate y) - orZero (bitrate x) =? 0) eqn:E2;
    [apply Z.eqb_eq in E2|apply Z.eqb_neq in E2]; lia.
Qed.

Lemma video_isZero_iff x y :
  numericLabel x -> numericLabel y ->
  (isZero (sortFormatsByVideo x y) = true <-> videoTied x y).
Proof.
  intros Hx Hy. unfold isZero, notZero, videoTied.
  rewrite sortFormatsByVideo_spec by assumption.
  rewrite negb_involutive, Z.eqb_eq.
  destruct (qualityLabelNum y - qualityLabelNum x =? 0) eqn:E1;
    [apply Z.eqb_eq in E1|apply Z.eqb_neq in E1; lia].
  destruct (orZero (bitrate y) - orZero (bitrate x) =? 0) eqn:E2;
    [apply Z.eqb_eq in E2|apply Z.eqb_neq in E2]; lia.
Qed.

Lemma video_total x y :
  numericLabel x -> numericLabel y ->
  cmpPositive (sortFormatsByVideo x y) = true -> notAfter sortFormatsByVideo y x.
Proof.
  intros Hx Hy H. apply video_notAfter_iff; auto.
  assert (Hn : ~ videoAtLeast x y).
  { rewrite <- video_notAfter_iff by assumption. unfold notAfter. congruence. }
  unfold videoAtLeast in *. lia.
Qed.

Lemma video_trans x y z :
  numericLabel x -> numericLabel y -> numericLabel z ->
  notAfter sortFormatsByVideo x y -> notAfter sortFormatsByVideo y z ->
  notAfter sortFormatsByVideo x z.
Proof.
  intros Hx Hy Hz. rewrite !video_notAfter_iff by assumption.
  unfold videoAtLeast. lia.
Qed.

(** *** The four audio and video modes *)

Definition byMode (name : string) : FormatOptions :=
  mkFormatOptions (Some (QOne (QStr name))) None None.

(** The formats the [highestaudio] and [lowestaudio] cases keep. *)
Definition audioCandidates (formats : list VideoFormat) : list VideoFormat :=
  List.filter (fun f => truthyS (url f) && truthyB (hasAudio f)) (hlsNarrow formats).

(** The formats the [highestvideo] and [lowestvideo] cases keep. *)
Definition videoCandidates (formats : list VideoFormat) : list VideoFormat :=
  List.filter (fun f => truthyS (url f) && truthyB (hasVideo f)) (hlsNarrow formats).

Lemma chooseFormat_highestaudio formats :
  chooseFormat formats (byMode "highestaudio") =
  match pickCheapest sortFormatsByAudio qualityLabelNum
          (arraySort sortFormatsByAudio (audioCandidates formats)) with
  | Some f => Ok f
  | None => Throw (Error "No such format found: highestaudio")
  end.
Proof. reflexivity. Qed.

Lemma chooseFormat_lowestaudio formats :
  chooseFormat formats (byMode "lowestaudio") =
  match lastItem (arraySort sortFormatsByAudio (audioCandidates formats)) with
  | Some f => Ok f
  | None => Throw (Error "No such format found: lowestaudio")
  end.
Proof. reflexivity. Qed.

Lemma chooseFormat_highestvideo formats :
  chooseFormat formats (byMode "highestvideo") =
  match pickCheapest sortFormatsByVideo (fun f => orZero (audioBitrate f))
          (arraySort sortFormatsByVideo (videoCandidates formats)) with
  | Some f => Ok f
  | None => Throw (Error "No such format found: highestvideo")
  end.
Proof. reflexivity. Qed.

Lemma chooseFormat_lowestvideo formats :
  chooseFormat formats (byMode "lowestvideo") =
  match lastItem (arraySort sortFormatsByVideo (videoCandidates formats)) with
  | Some f => Ok f
  | None => Throw (Error "No such format found: lowestvideo")
  end.
Proof. reflexivity. Qed.

Lemma arraySort_nonempty {A} (cmp : A -> A -> option Z) (l : list A) :
  l <> [] -> exists b rest, arraySort cmp l = b :: rest.
Proof.
  intros Hne. destruct (arraySort cmp l) as [|b rest] eqn:E; [|eauto].
  destruct l as [|x xs]; [congruence|].
  assert (H : In x (arraySort cmp (x :: xs))) by (apply arraySort_In; now left).
  rewrite E in H. destruct H.
Qed.

Lemma highestaudio_spec formats :
  audioCandidates formats <> [] ->
  exists f, chooseFormat formats (byMode "highestaudio") = Ok f /\
    In f (audioCandidates formats) /\
    (forall g, In g (audioCandidates formats) -> audioAtLeast f g) /\
    (forall g, In g (audioCandidates formats) -> audioTied f g ->
       qualityLabelNum f <= qualityLabelNum g).
Proof.
  intros Hne. rewrite chooseFormat_highestaudio.
  destruct (arraySort_nonempty sortFormatsByAudio _ Hne) as (b & rest & E).
  rewrite E.
  destruct (pickCheapest_spec sortFormatsByAudio qualityLabelNum b rest)
    as (f & Hp & Hin & Hz & Hmin).
  { apply audio_isZero_iff. split; reflexivity. }
  rewrite Hp. exists f. split; [reflexivity|].
  assert (Hbest : forall g, In g (audioCandidates formats) -> audioAtLeast b g).
  { intros g Hg. apply audio_notAfter_iff.
    apply (arraySort_head_first sortFormatsByAudio (fun _ => True))
      with (audioCandidates formats) rest; auto.
    - intros x y _ _. apply audio_total.
    - intros x y z _ _ _. apply audio_trans.
    - apply List.Forall_forall. auto. }
  apply audio_isZero_iff in Hz.
  split; [|split].
  - apply (arraySort_In sortFormatsByAudio). now rewrite E.
  - intros g Hg. specialize (Hbest g Hg).
    unfold audioAtLeast, audioTied in *. lia.
  - intros g Hg Ht. apply Hmin.
    + rewrite <- E. now apply arraySort_In.
    + apply audio_isZero_iff. unfold audioTied in *. lia.
Qed.

Lemma lowestaudio_spec formats :
  audioCandidates formats <> [] ->
  exists f, chooseFormat formats (byMode "lowestaudio") = Ok f /\
    In f (audioCandidates formats) /\
    (forall g, In g (audioCandidates formats) -> audioAtLeast g f).
Proof.
  intros Hne. rewrite chooseFormat_lowestaudio.
  destruct (arraySort_nonempty sortFormatsByAudio _ Hne) as (b & rest & E).
  destruct (lastItem_nonempty (arraySort sortFormatsByAudio (audioCandidates formats)))
    as [f Hl]; [rewrite E; discriminate|].
  rewrite Hl. exists f. split; [reflexivity|]. split.
  - apply lastItem_In in Hl. now apply arraySort_In in Hl.
  - intros g Hg. apply audio_notAfter_iff.
    apply (arraySort_last_behind sortFormatsByAudio (fun _ => True))
      with (audioCandidates formats); auto.
    + intros x y _ _. apply audio_total.
    + intros x y z _ _ _. apply audio_trans.
    + apply List.Forall_forall. auto.
Qed.

Lemma highestvideo_spec formats :
  (forall g, In g (videoCandidates formats) -> numericLabel g) ->
  videoCandidates formats <> [] ->
  exists f, chooseFormat formats (byMode "highestvideo") = Ok f /\
    In f (videoCandidates formats) /\
    (forall g, In g (videoCandidates formats) -> videoAtLeast f g) /\
    (forall g, In g (videoCandidates formats) -> videoTied f g ->
       orZero (audioBitrate f) <= orZero (audioBitrate g)).
Proof.
  intros Hnum Hne. rewrite chooseFormat_highestvideo.
  destruct (arraySort_nonempty sortFormatsByVideo _ Hne) as (b & rest & E).
  rewrite E.
  assert (Hsorted_in : forall g, In g (b :: rest) <-> In g (videoCandidates formats)).
  { intros g. rewrite <- E. apply arraySort_In. }
  assert (Hb : numericLabel b) by (apply Hnum, Hsorted_in; now left).
  destruct (pickCheapest_spec sortFormatsByVideo (fun f => orZero (audioBitrate f)) b rest)
    as (f & Hp & Hin & Hz & Hmin).
  { apply video_isZero_iff; auto. repeat split; reflexivity. }
  rewrite Hp. exists f. split; [reflexivity|].
  assert (Hf : numericLabel f) by (apply Hnum, Hsorted_in, Hin).
  assert (Hbest : forall g, In g (videoCandidates formats) -> videoAtLeast b g).
  { intros g Hg. apply video_notAfter_iff; auto.
    apply (arraySort_head_first sortFormatsByVideo numericLabel)
      with (videoCandidates formats) rest; auto.
    - apply video_total.
    - apply video_trans.
    - apply List.Forall_forall. auto. }
  apply video_isZero_iff in Hz; auto.
  split; [|split].
  - now apply Hsorted_in.
  - intros g Hg. specialize (Hbest g Hg).
    unfold videoAtLeast, videoTied in *. lia.
  - intros g Hg Ht. apply Hmin.
    + now apply Hsorted_in.
    + apply video_isZero_iff; auto. unfold videoTied in *. lia.
Qed.

Lemma lowestvideo_spec formats :
  (forall g, In g (videoCandidates formats) -> numericLabel g) ->
  videoCandidates formats <> [] ->
  exists f, chooseFormat formats (byMode "lowestvideo") = Ok f /\
    In f (videoCandidates formats) /\
    (forall g, In g (videoCandidates formats) -> videoAtLeast g f).
Proof.
  intros Hnum Hne. rewrite chooseFormat_lowestvideo.
  destruct (arraySort_nonempty sortFormatsByVideo _ Hne) as (b & rest & E).
  destruct (lastItem_nonempty (arraySort sortFormatsByVideo (videoCandidates formats)))
    as [f Hl]; [rewrite E; discriminate|].
  rewrite Hl. exists f. split; [reflexivity|].
  assert (Hfin : In f (videoCandidates formats)).
  { apply lastItem_In in Hl. now apply arraySort_In in Hl. }
  split; [exact Hfin|].
  intros g Hg. apply video_notAfter_iff; auto.
  apply (arraySort_last_behind sortFormatsByVideo numericLabel)
    with (videoCandidates formats); auto.
  - apply video_total.
  - apply video_trans.
  - apply List.Forall_forall. auto.
Qed.

(** *** The scenario list *)

(** The two formats exactly as the scenario writes them: [itag], [hasVideo]
    and [hasAudio] and nothing else (no [url]). *)
Definition scenarioListed : list VideoFormat :=
  [ withAV (Some true) (Some true) (bareFormat 18);
    withAV (Some false) (Some true) (bareFormat 140) ].

(** The same two formats with a [url] each. *)
Definition scenarioWithUrls : list VideoFormat :=
  [ withUrl (Some "https://example.com/v18") (withAV (Some true) (Some true) (bareFormat 18));
    withUrl (Some "https://example.com/a140") (withAV (Some false) (Some true) (bareFormat 140)) ].

(** The same two formats as a resolved list carries them: a [url] each, and
    the [qualityLabel] from which [hasVideo] of itag 18 is derived. *)
Definition scenarioResolved : list VideoFormat :=
  [ withQualityLabel (Some "360p")
      (withUrl (Some "https://example.com/v18")
         (withAV (Some true) (Some true) (bareFormat 18)));
    withUrl (Some "https://example.com/a140")
      (withAV (Some false) (Some true) (bareFormat 140)) ].

(** On the list as the scenario writes it, both formats lack a [url], the
    audio filter drops them, and [highestaudio] throws: no format with itag
    140 is returned. *)
Lemma highestaudio_scenario_as_listed :
  chooseFormat scenarioListed (byMode "highestaudio")
    = Throw (Error "No such format found: highestaudio") /\
  audioCandidates scenarioListed = [].
Proof. split; reflexivity. Qed.

(** With urls but no quality label the two formats tie on audio and on the
    numeric quality label, and the first of them, itag 18, is returned. *)
Lemma highestaudio_scenario_with_urls :
  option_map itag (match chooseFormat scenarioWithUrls (byMode "highestaudio") with
                   | Ok f => Some f
                   | Throw _ => None
                   end) = Some 18.
Proof. reflexivity. Qed.

(** [lowestaudio] takes the last format of the sorted audio list; it does
    not look at the quality label: of two formats that tie on audio the one
    listed last is returned, here the one with the larger label. *)
Lemma lowestaudio_no_tie_break :
  option_map itag (match chooseFormat (rev scenarioResolved ++ scenarioResolved) (byMode "lowestaudio") with
                   | Ok f => Some f
                   | Throw _ => None
                   end) = Some 140 /\
  option_map itag (match chooseFormat (rev scenarioResolved) (byMode "lowestaudio") with
                   | Ok f => Some f
                   | Throw _ => None
                   end) = Some 18.
Proof. split; reflexivity. Qed.

(** A quality label that does not start with a number makes
    [sortFormatsByVideo] compare to [NaN], even a format with itself, so
    [highestvideo] keeps no format and throws although a video format is
    there; hence the restriction to numeric labels in the video part
    below. *)
Example highestvideo_non_numeric_label :
  videoCandidates [withQualityLabel (Some "hd720") (List.hd (bareFormat 0) scenarioWithUrls)]
    <> [] /\
  chooseFormat [withQualityLabel (Some "hd720") (List.hd (bareFormat 0) scenarioWithUrls)]
    (byMode "highestvideo")
    = Throw (Error "No such format found: highestvideo").
Proof. split; [discriminate|reflexivity]. Qed.

(** C6 (as amended) -- on the scenario list as a resolved format list
    carries it (each format with its [url], itag 18 with the quality label
    [360p] behind its [hasVideo]), [chooseFormat(list, {quality:
    'highestaudio'})] returns the format with itag 140.  In general, for any
    list: [highestaudio] keeps the formats with a url and audio, returns one
    that ranks at least as high as every other by audio bitrate then audio
    codec, and among those tied with it one of least numeric quality label;
    [highestvideo] does the same on the formats with a url and video, ranked
    by quality label, bitrate and video codec, and among those tied one of
    least audio bitrate (for quality labels that are absent or numeric);
    [lowestaudio] and [lowestvideo] keep the same formats and return one
    that every other ranks at least as high as. *)
Theorem audio_video_modes :
  (exists f, chooseFormat scenarioResolved (byMode "highestaudio") = Ok f /\ itag f = 140) /\
  forall formats : list VideoFormat,
    (audioCandidates formats <> [] ->
     exists f, chooseFormat formats (byMode "highestaudio") = Ok f /\
       In f (audioCandidates formats) /\
       (forall g, In g (audioCandidates formats) -> audioAtLeast f g) /\
       (forall g, In g (audioCandidates formats) -> audioTied f g ->
          qualityLabelNum f <= qualityLabelNum g)) /\
    (audioCandidates formats <> [] ->
     exists f, chooseFormat formats (byMode "lowestaudio") = Ok f /\
       In f (audioCandidates formats) /\
       (forall g, In g (audioCandidates formats) -> audioAtLeast g f)) /\
    ((forall g, In g (videoCandidates formats) -> numericLabel g) ->
     videoCandidates formats <> [] ->
     exists f, chooseFormat formats (byMode "highestvideo") = Ok f /\
       In f (videoCandidates formats) /\
       (forall g, In g (videoCandidates formats) -> videoAtLeast f g) /\
       (forall g, In g (videoCandidates formats) -> videoTied f g ->
          orZero (audioBitrate f) <= orZero (audioBitrate g))) /\
    ((forall g, In g (videoCandidates formats) -> numericLabel g) ->
     videoCandidates formats <> [] ->
     exists f, chooseFormat formats (byMode "lowestvideo") = Ok f /\
       In f (videoCandidates formats) /\
       (forall g, In g (videoCandidates formats) -> videoAtLeast g f)).
Proof.
  split.
  - eexists. split; reflexivity.
  - intros formats. split; [|split; [|split]].
    + apply highestaudio_spec.
    + apply lowestaudio_spec.
    + apply highestvideo_spec.
    + apply lowestvideo_spec.
Qed.

Lemma audio_video_modes_witness :
  exists f, chooseFormat scenarioResolved (byMode "highestaudio") = Ok f /\
    In f (audioCandidates scenarioResolved) /\
    (forall g, In g (audioCandidates scenarioResolved) -> audioAtLeast f g) /\
    (forall g, In g (audioCandidates scenarioResolved) -> audioTied f g ->
       qualityLabelNum f <= qualityLabelNum g).
Proof.
  destruct audio_video_modes as [_ H].
  destruct (H scenarioResolved) as [Ha _].
  apply Ha. vm_compute. discriminate.
Defined.

(** C9 -- every format [filterFormats] returns has a non-empty [url]: the
    result is exactly the formats of the input whose [url] is non-empty and
    that satisfy the predicate the filter denotes; a format with a missing
    or empty [url] is dropped even when the predicate holds.  This covers
    the six named filters and every custom predicate. *)
Theorem filterFormats_url_nonempty :
  forall (formats : list VideoFormat) (flt : FormatFilter) (out : list VideoFormat),
    filterFormats formats flt = Ok out ->
    (forall f, In f out -> exists u, url f = Some u /\ u <> "") /\
    (exists fn, filterPredicate flt = Ok fn /\
       forall f, In f out <-> In f formats /\ truthyS (url f) = true /\ fn f = true) /\
    (forall f, In f formats -> truthyS (url f) = false -> ~ In f out).
Proof.
  intros formats flt out H.
  unfold filterFormats in H.
  destruct (filterPredicate flt) as [fn|e] eqn:Hp; simpl in H; [|discriminate].
  injection H as <-.
  assert (Hin : forall f, In f (List.filter (fun format => truthyS (url format) && fn format) formats)
                 <-> In f formats /\ truthyS (url f) = true /\ fn f = true).
  { intros f. rewrite filter_In, andb_true_iff. tauto. }
  split; [|split].
  - intros f Hf. apply Hin in Hf as (_ & Hu & _).
    unfold truthyS in Hu. destruct (url f) as [u|]; [|discriminate].
    exists u. split; [reflexivity|].
    intros ->. discriminate.
  - exists fn. split; [reflexivity|exact Hin].
  - intros f _ Hu Hf. apply Hin in Hf as (_ & Hu' & _). congruence.
Qed.

Lemma filterFormats_url_nonempty_witness :
  (forall f, In f (List.tl scenarioResolved) -> exists u, url f = Some u /\ u <> "") /\
  (exists fn, filterPredicate (FilterName "audioonly") = Ok fn /\
     forall f, In f (List.tl scenarioResolved) <->
       In f (scenarioListed ++ scenarioResolved) /\ truthyS (url f) = true /\ fn f = true) /\
  (forall f, In f (scenarioListed ++ scenarioResolved) -> truthyS (url f) = false ->
     ~ In f (List.tl scenarioResolved)).
Proof.
  apply (filterFormats_url_nonempty (scenarioListed ++ scenarioResolved)
           (FilterName "audioonly") (List.tl scenarioResolved)).
  reflexivity.
Defined.

End FormatUtilsFacts.

(* ===================================================================== *)
(** ** src/cache.ts *)
(* ===================================================================== *)

Module Cache.

(** How a promise settles. *)
Inductive Outcome :=
| Fulfilled
| Rejected.

(** A cached value, as far as [getOrSet] looks at it: [null], a promise
    (named by a number), or anything else. *)
Inductive Value (X : Type) :=
| VNull
| VPlain (x : X)
| VPromise (p : nat).
Arguments VNull {X}.
Arguments VPlain {X} x.
Arguments VPromise {X} p.

Section Methods.
Context {K : Type} `{Countable K} {X : Type}.

(** [interface CacheEntry<T>]: the timeout handle and the value. *)
Record CacheEntry := mkEntry {
  tid : nat;
  value : Value X
}.

(** The cache object and the part of the run-time around it that its
    methods act on: the armed timeouts (handle to the key whose [delete] is
    bound to it), the promises settled so far (a promise not listed is
    pending), the async functions of [getOrSet] suspended at [await value]
    (promise awaited, key to delete on rejection), and the log of producer
    calls. *)
Record State := mkState {
  cache : gmap K CacheEntry;
  timers : gmap nat K;
  nextTid : nat;
  settled : gmap nat Outcome;
  watchers : list (nat * K);
  invoked : list nat
}.

Definition emptyState : State := mkState ∅ ∅ 0%nat ∅ [] [].

(** A producer [fn]: calling it is logged under [pid] and gives [returns]. *)
Record Producer := mkProducer {
  pid : nat;
  returns : Value X
}.

Definition clearTimeout (t : nat) (s : State) : State :=
  mkState (cache s) (delete t (timers s)) (nextTid s) (settled s) (watchers s) (invoked s).

Definition has (key : K) (s : State) : bool :=
  match cache s !! key with
  | Some _ => true
  | None => false
  end.

Definition get (key : K) (s : State) : Value X :=
  match cache s !! key with
  | Some entry => value entry
  | None => VNull
  end.

(** [delete(key)]: the result and the new state. *)
Definition delete_ (key : K) (s : State) : bool * State :=
  match cache s !! key with
  | Some entry =>
      let s := clearTimeout (tid entry) s in
      (true, mkState (delete key (cache s)) (timers s) (nextTid s) (settled s)
                     (watchers s) (invoked s))
  | None => (false, s)
  end.

(** [set(key, value)]: the timeout of an entry being replaced is cleared,
    a new one is armed. *)
Definition set (key : K) (v : Value X) (s : State) : State :=
  let s :=
    if has key s then
      match cache s !! key with
      | Some entry => clearTimeout (tid entry) s
      | None => s
      end
    else s in
  let t := nextTid s in
  mkState (<[key := mkEntry t v]> (cache s)) (<[t := key]> (timers s)) (S t)
          (settled s) (watchers s) (invoked s).

Definition clear (s : State) : State :=
  mkState ∅ (map_fold (fun _ entry ts => delete (tid entry) ts) (timers s) (cache s))
          (nextTid s) (settled s) (watchers s) (invoked s).

(** [fn()] *)
Definition call (fn : Producer) (s : State) : Value X * State :=
  (returns fn,
   mkState (cache s) (timers s) (nextTid s) (settled s) (watchers s)
           (pid fn :: invoked s)).

(** The async function [getOrSet] starts after [set]: for a promise it
    suspends at [await value]; for another value it ends at once. *)
Definition watch (key : K) (v : Value X) (s : State) : State :=
  match v with
  | VPromise p =>
      mkState (cache s) (timers s) (nextTid s) (settled s)
              (watchers s ++ [(p, key)]) (invoked s)
  | _ => s
  end.

Definition getOrSet (key : K) (fn : Producer) (s : State) : Value X * State :=
  if has key s then
    match get key s with
    | VNull => call fn s
    | v => (v, s)
    end
  else
    let '(v, s) := call fn s in
    let s := set key v s in
    let s := watch key v s in
    (v, s).

(** The timeout [t] fires: the bound [delete(key)] runs. *)
Definition fireTimer (t : nat) (s : State) : State :=
  match timers s !! t with
  | Some key => snd (delete_ key (clearTimeout t s))
  | None => s
  end.

Definition awaits (p : nat) (w : nat * K) : bool := Nat.eqb (fst w) p.

(** The functions suspended on promise [p] resume once it is settled: on
    rejection each runs its [catch] block, [this.delete(key)]. *)
Definition observe (p : nat) (s : State) : State :=
  match settled s !! p with
  | None => s
  | Some o =>
      let mine := List.filter (awaits p) (watchers s) in
      let rest := List.filter (fun w => negb (awaits p w)) (watchers s) in
      let s := mkState (cache s) (timers s) (nextTid s) (settled s) rest (invoked s) in
      match o with
      | Rejected => fold_left (fun s w => snd (delete_ (snd w) s)) mine s
      | Fulfilled => s
      end
  end.

(** Promise [p] settles (a settled promise stays as it is) and the
    functions awaiting it resume. *)
Definition settle (p : nat) (o : Outcome) (s : State) : State :=
  match settled s !! p with
  | Some _ => s
  | None =>
      observe p (mkState (cache s) (timers s) (nextTid s) (<[p := o]> (settled s))
                         (watchers s) (invoked s))
  end.

(** What can happen to a cache between two observations: a method call,
    a promise settling, the functions awaiting a promise resuming, a
    timeout firing.  ([clear] is not among them.) *)
Inductive Event :=
| EGetOrSet (key : K) (fn : Producer)
| ESet (key : K) (v : Value X)
| EDelete (key : K)
| ESettle (p : nat) (o : Outcome)
| EObserve (p : nat)
| EFireTimer (t : nat).

Definition step (ev : Event) (s : State) : State :=
  match ev with
  | EGetOrSet key fn => snd (getOrSet key fn s)
  | ESet key v => set key v s
  | EDelete key => snd (delete_ key s)
  | ESettle p o => settle p o s
  | EObserve p => observe p s
  | EFireTimer t => fireTimer t s
  end.

Definition run (evs : list Event) (s : State) : State :=
  fold_left (fun s ev => step ev s) evs s.

End Methods.

Arguments CacheEntry : clear implicits.
Arguments Event K X : clear implicits.
Arguments State K {_ _} X.
Arguments Producer : clear implicits.

End Cache.

Module CacheFacts.
Import Cache.

Section WithKeys.
Context {K : Type} `{Countable K} {X : Type}.
Implicit Types (s : State K X) (k key : K) (fn : Producer X).

Lemma has_delete_same k s : has k (snd (delete_ k s)) = false.
Proof.
  unfold delete_, has. destruct (cache s !! k) as [e|] eqn:E; simpl.
  - now rewrite lookup_delete_eq.
  - now rewrite E.
Qed.

Lemma has_delete_absent k k' s : has k s = false -> has k (snd (delete_ k' s)) = false.
Proof.
  unfold delete_, has. intros Hk.
  destruct (cache s !! k') as [e|] eqn:E; simpl; [|exact Hk].
  destruct (decide (k' = k)) as [->|Hne].
  - now rewrite lookup_delete_eq.
  - now rewrite lookup_delete_ne.
Qed.

Lemma has_deletes_absent k (ws : list (nat * K)) s :
  has k s = false ->
  has k (fold_left (fun s w => snd (delete_ (snd w) s)) ws s) = false.
Proof.
  revert s. induction ws as [|w ws IH]; intros s Hk; simpl; [exact Hk|].
  apply IH. now apply has_delete_absent.
Qed.

Lemma has_deletes_listed k (ws : list (nat * K)) s p :
  In (p, k) ws ->
  has k (fold_left (fun s w => snd (delete_ (snd w) s)) ws s) = false.
Proof.
  revert s. induction ws as [|w ws IH]; intros s Hin; [destruct Hin|].
  simpl. destruct Hin as [->|Hin].
  - apply has_deletes_absent. simpl. apply has_delete_same.
  - now apply IH.
Qed.

Lemma invoked_delete k s : invoked (snd (delete_ k s)) = invoked s.
Proof. unfold delete_. destruct (cache s !! k); reflexivity. Qed.

Lemma invoked_deletes (ws : list (nat * K)) s :
  invoked (fold_left (fun s w => snd (delete_ (snd w) s)) ws s) = invoked s.
Proof.
  revert s. induction ws as [|w ws IH]; intros s; simpl; [reflexivity|].
  rewrite IH. apply invoked_delete.
Qed.

Lemma invoked_settle p o s : invoked (settle p o s) = invoked s.
Proof.
  unfold settle. destruct (settled s !! p); [reflexivity|].
  unfold observe. simpl. rewrite lookup_insert_eq.
  destruct o; [reflexivity|]. now rewrite invoked_deletes.
Qed.

(** A miss: the producer is called, its value stored under a fresh armed
    timeout, and the value watched if it is a promise. *)
Lemma getOrSet_miss k fn s :
  has k s = false ->
  getOrSet k fn s =
  (returns fn,
   watch k (returns fn)
     (mkState (<[k := mkEntry (nextTid s) (returns fn)]> (cache s))
              (<[nextTid s := k]> (timers s)) (S (nextTid s)) (settled s)
              (watchers s) (pid fn :: invoked s))).
Proof.
  intros Hk. unfold getOrSet. rewrite Hk. unfold call, set, has. simpl.
  unfold has in Hk. destruct (cache s !! k); [discriminate|]. reflexivity.
Qed.

(** A hit on a value other than [null]: nothing is called, nothing changes. *)
Lemma getOrSet_hit k fn s e :
  cache s !! k = Some e -> value e <> VNull ->
  getOrSet k fn s = (value e, s).
Proof.
  intros He Hv. unfold getOrSet, has, get. rewrite He.
  destruct (value e); [congruence|reflexivity|reflexivity].
Qed.

(** Armed timeouts belong to the entry cached under their key, handles
    are below the next one, and no two entries share a handle. *)
Definition wf s : Prop :=
  (forall t k, timers s !! t = Some k ->
     exists e, cache s !! k = Some e /\ tid e = t) /\
  (forall k e, cache s !! k = Some e -> (tid e < nextTid s)%nat) /\
  (forall k1 k2 e1 e2, cache s !! k1 = Some e1 -> cache s !! k2 = Some e2 ->
     tid e1 = tid e2 -> k1 = k2).

Lemma wf_empty : wf (emptyState (K := K) (X := X)).
Proof.
  repeat split; cbn; intros *; rewrite lookup_empty; discriminate.
Qed.

Lemma wf_frame s c w i :
  wf s -> wf (mkState (cache s) (timers s) (nextTid s) c w i).
Proof. intros Hwf. exact Hwf. Qed.

Lemma wf_delete k s : wf s -> wf (snd (delete_ k s)).
Proof.
  intros (W1 & W2 & W3). unfold delete_.
  destruct (cache s !! k) as [e|] eqn:E; cbn [snd]; [|repeat split; assumption].
  repeat split; cbn [cache timers nextTid clearTimeout].
  - intros t k' Ht. apply lookup_delete_Some in Ht as [Hne Ht].
    destruct (W1 t k' Ht) as (e' & He' & Htid).
    exists e'. split; [|exact Htid].
    rewrite lookup_delete_ne; [exact He'|]. intros ->. congruence.
  - intros k' e' He'. apply lookup_delete_Some in He' as [_ He']. eauto.
  - intros k1 k2 e1 e2 H1 H2. apply lookup_delete_Some in H1 as [_ H1].
    apply lookup_delete_Some in H2 as [_ H2]. eauto.
Qed.

Lemma wf_set k v s : wf s -> wf (set k v s).
Proof.
  intros (W1 & W2 & W3). unfold set, has.
  destruct (cache s !! k) as [e|] eqn:E.
  - repeat split; cbn [cache timers nextTid clearTimeout].
    + intros t k' Ht. apply lookup_insert_Some in Ht as [[<- <-]|[Hne Ht]].
      * exists (mkEntry (nextTid s) v). split; [apply lookup_insert_eq|reflexivity].
      * apply lookup_delete_Some in Ht as [Hne' Ht].
        destruct (W1 t k' Ht) as (e' & He' & Htid).
        exists e'. split; [|exact Htid].
        rewrite lookup_insert_ne; [exact He'|]. intros ->. congruence.
    + intros k' e' He'. apply lookup_insert_Some in He' as [[<- <-]|[Hne He']].
      * cbn. lia.
      * specialize (W2 k' e' He'). lia.
    + intros k1 k2 e1 e2 H1 H2 Ht.
      apply lookup_insert_Some in H1 as [[<- <-]|[Hne1 H1]];
        apply lookup_insert_Some in H2 as [[<- <-]|[Hne2 H2]]; try reflexivity.
      * cbn in Ht. specialize (W2 _ _ H2). lia.
      * cbn in Ht. specialize (W2 _ _ H1). lia.
      * eauto.
  - repeat split; cbn [cache timers nextTid clearTimeout].
    + intros t k' Ht. apply lookup_insert_Some in Ht as [[<- <-]|[Hne Ht]].
      * exists (mkEntry (nextTid s) v). split; [apply lookup_insert_eq|reflexivity].
      * destruct (W1 t k' Ht) as (e' & He' & Htid).
        exists e'. split; [|exact Htid].
        rewrite lookup_insert_ne; [exact He'|]. intros ->. congruence.
    + intros k' e' He'. apply lookup_insert_Some in He' as [[<- <-]|[Hne He']].
      * cbn. lia.
      * specialize (W2 k' e' He'). lia.
    + intros k1 k2 e1 e2 H1 H2 Ht.
      apply lookup_insert_Some in H1 as [[<- <-]|[Hne1 H1]];
        apply lookup_insert_Some in H2 as [[<- <-]|[Hne2 H2]]; try reflexivity.
      * cbn in Ht. specialize (W2 _ _ H2). lia.
      * cbn in Ht. specialize (W2 _ _ H1). lia.
      * eauto.
Qed.

Lemma wf_ext s s' :
  cache s' = cache s -> timers s' = timers s -> nextTid s' = nextTid s ->
  wf s -> wf s'.
Proof. unfold wf. intros -> -> ->. tauto. Qed.

Lemma wf_deletes (ws : list (nat * K)) s :
  wf s -> wf (fold_left (fun s w => snd (delete_ (snd w) s)) ws s).
Proof.
  revert s. induction ws as [|w ws IH]; intros s Hwf; cbn [fold_left]; [exact Hwf|].
  apply IH, wf_delete, Hwf.
Qed.

Lemma wf_getOrSet k fn s : wf s -> wf (snd (getOrSet k fn s)).
Proof.
  intros Hwf. unfold getOrSet. destruct (has k s).
  - destruct (get k s); cbn [snd call]; exact Hwf.
  - unfold call. cbn [snd].
    eapply wf_ext; [| | |apply (wf_set k (returns fn)), (wf_frame s (settled s) (watchers s)
                                  (pid fn :: invoked s)), Hwf];
      destruct (returns fn); reflexivity.
Qed.

Lemma wf_fireTimer t s : wf s -> wf (fireTimer t s).
Proof.
  intros Hwf. unfold fireTimer. destruct (timers s !! t) as [k|]; [|exact Hwf].
  apply wf_delete. destruct Hwf as (W1 & W2 & W3).
  repeat split; cbn [cache timers nextTid clearTimeout]; eauto.
  intros t' k' Ht. apply lookup_delete_Some in Ht as [_ Ht]. eauto.
Qed.

Lemma wf_observe p s : wf s -> wf (observe p s).
Proof.
  intros Hwf. unfold observe. destruct (settled s !! p) as [[|]|]; try exact Hwf.
  apply wf_deletes. exact Hwf.
Qed.

Lemma wf_settle p o s : wf s -> wf (settle p o s).
Proof.
  intros Hwf. unfold settle. destruct (settled s !! p); [exact Hwf|].
  apply wf_observe. exact Hwf.
Qed.

Lemma wf_step (ev : Event K X) s : wf s -> wf (step ev s).
Proof.
  intros Hwf. destruct ev; cbn [step].
  - now apply wf_getOrSet.
  - now apply wf_set.
  - now apply wf_delete.
  - now apply wf_settle.
  - now apply wf_observe.
  - now apply wf_fireTimer.
Qed.

(** Every state a cache reaches from the empty one is well formed. *)
Lemma wf_run (evs : list (Event K X)) s : wf s -> wf (run evs s).
Proof.
  revert s. induction evs as [|ev evs IH]; intros s Hwf; cbn; [exact Hwf|].
  apply IH, wf_step, Hwf.
Qed.

(** Key [k] holds promise [p] under the armed timeout [t], every function
    that would delete [k] on a rejection awaits [p], and [p] has not
    rejected. *)
Definition holds k (p t : nat) s : Prop :=
  wf s /\
  cache s !! k = Some (mkEntry t (VPromise p)) /\
  timers s !! t = Some k /\
  (forall q, In (q, k) (watchers s) -> q = p) /\
  settled s !! p <> Some Rejected.

(** The events that leave the entry of [k] alone: any [getOrSet]; [set]
    and [delete] on other keys; any promise settling except [p]
    rejecting; any timeout firing except [t]. *)
Definition calm k (p t : nat) (ev : Event K X) : Prop :=
  match ev with
  | EGetOrSet _ _ => True
  | ESet key _ => key <> k
  | EDelete key => key <> k
  | ESettle q o => q = p -> o = Fulfilled
  | EObserve _ => True
  | EFireTimer t' => t' <> t
  end.

Lemma holds_delete_other k p t k' s :
  k' <> k -> holds k p t s -> holds k p t (snd (delete_ k' s)).
Proof.
  intros Hne (Hwf & Hc & Ht & Hw & Hp).
  split; [now apply wf_delete|].
  unfold delete_. destruct (cache s !! k') as [e'|] eqn:E; cbn [snd]; [|tauto].
  cbn [cache timers settled watchers clearTimeout].
  split; [|split; [|split; [exact Hw|exact Hp]]].
  - rewrite lookup_delete_ne; [exact Hc|exact Hne].
  - rewrite lookup_delete_ne; [exact Ht|].
    destruct Hwf as (_ & _ & W3). intros Heq.
    apply Hne. apply (W3 k' k e' (mkEntry t (VPromise p)) E Hc). exact Heq.
Qed.

Lemma holds_deletes k p t (ws : list (nat * K)) s :
  (forall w, In w ws -> snd w <> k) ->
  holds k p t s ->
  holds k p t (fold_left (fun s w => snd (delete_ (snd w) s)) ws s).
Proof.
  revert s. induction ws as [|w ws IH]; intros s Hws Hs; cbn [fold_left]; [exact Hs|].
  apply IH; [intros w' Hw'; apply Hws; now right|].
  apply holds_delete_other; [apply Hws; now left|exact Hs].
Qed.

Lemma holds_observe k p t q s : holds k p t s -> holds k p t (observe q s).
Proof.
  intros Hs. pose proof Hs as (Hwf & Hc & Ht & Hw & Hp).
  unfold observe. destruct (settled s !! q) as [o|] eqn:Eq; [|exact Hs].
  assert (Hrest : holds k p t
            (mkState (cache s) (timers s) (nextTid s) (settled s)
               (List.filter (fun w => negb (awaits q w)) (watchers s)) (invoked s))).
  { split; [exact Hwf|]. split; [exact Hc|]. split; [exact Ht|]. split; [|exact Hp].
    cbn [watchers]. intros q' Hq'. apply filter_In in Hq' as [Hq' _]. auto. }
  destruct o; [exact Hrest|].
  apply holds_deletes; [|exact Hrest].
  intros [q' k'] Hin. apply filter_In in Hin as [Hin Hq']. cbn [snd].
  unfold awaits in Hq'. cbn [fst] in Hq'. apply Nat.eqb_eq in Hq'. subst q'.
  intros ->. apply Hw in Hin. congruence.
Qed.

Lemma holds_step k p t (ev : Event K X) s :
  calm k p t ev -> holds k p t s -> holds k p t (step ev s).
Proof.
  intros Hcalm Hs. pose proof Hs as (Hwf & Hc & Ht & Hw & Hp).
  assert (Hfresh : nextTid s <> t).
  { destruct Hwf as (_ & W2 & _). specialize (W2 _ _ Hc). cbn in W2. lia. }
  destruct ev as [key fn|key v|key|q o|q|t']; cbn [step calm] in *.
  - (* getOrSet *)
    split; [now apply wf_getOrSet|].
    unfold getOrSet, has, get.
    destruct (decide (key = k)) as [->|Hne].
    + rewrite Hc. cbn [value snd]. tauto.
    + destruct (cache s !! key) as [e|] eqn:E.
      * destruct (value e); cbn [snd call cache timers watchers settled]; tauto.
      * unfold call, set, has. cbn [cache timers nextTid settled watchers invoked].
        rewrite E.
        assert (Hkeep :
          <[key:=mkEntry (nextTid s) (returns fn)]> (cache s) !! k
            = Some (mkEntry t (VPromise p)) /\
          <[nextTid s:=key]> (timers s) !! t = Some k).
        { split; (rewrite lookup_insert_ne; [assumption|congruence]). }
        destruct (returns fn) as [|x|p'];
          cbn [snd watch cache timers watchers settled];
          (split; [apply Hkeep|split; [apply Hkeep|split; [|exact Hp]]]); try exact Hw.
        intros q' Hq'. apply in_app_or in Hq' as [Hq'|[[= <- <-]|[]]]; [auto|congruence].
  - (* set *)
    split; [now apply wf_set|].
    unfold set, has. destruct (cache s !! key) as [e|] eqn:E;
      cbn [cache timers nextTid settled watchers clearTimeout].
    + assert (Hold : tid e <> t).
      { destruct Hwf as (_ & _ & W3). intros Heq.
        apply Hcalm. apply (W3 key k e (mkEntry t (VPromise p)) E Hc). exact Heq. }
      split; [|split; [|split; [exact Hw|exact Hp]]].
      * rewrite lookup_insert_ne; [exact Hc|exact Hcalm].
      * rewrite lookup_insert_ne; [|exact Hfresh].
        rewrite lookup_delete_ne; [exact Ht|exact Hold].
    + split; [|split; [|split; [exact Hw|exact Hp]]].
      * rewrite lookup_insert_ne; [exact Hc|exact Hcalm].
      * rewrite lookup_insert_ne; [exact Ht|exact Hfresh].
  - (* delete *)
    now apply holds_delete_other.
  - (* settle *)
    unfold settle. destruct (settled s !! q) as [o'|] eqn:Eq; [exact Hs|].
    apply holds_observe.
    split; [exact Hwf|]. split; [exact Hc|]. split; [exact Ht|]. split; [exact Hw|].
    cbn [settled]. destruct (decide (q = p)) as [->|Hne].
    + rewrite lookup_insert_eq. rewrite (Hcalm eq_refl). discriminate.
    + rewrite lookup_insert_ne; [exact Hp|exact Hne].
  - (* observe *)
    now apply holds_observe.
  - (* a timeout fires *)
    unfold fireTimer. destruct (timers s !! t') as [k'|] eqn:E; [|exact Hs].
    assert (Hk' : k' <> k).
    { intros ->. destruct Hwf as (W1 & _ & _).
      destruct (W1 t' k E) as (e & He & Htid). rewrite Hc in He.
      injection He as <-. cbn in Htid. congruence. }
    apply holds_delete_other; [exact Hk'|].
    split.
    { destruct Hwf as (W1 & W2 & W3).
      split; [|split]; cbn [cache timers nextTid clearTimeout]; eauto.
      intros t0 k0 Ht0. apply lookup_delete_Some in Ht0 as [_ Ht0]. eauto. }
    cbn [cache timers settled watchers clearTimeout].
    split; [exact Hc|]. split; [|split; [exact Hw|exact Hp]].
    rewrite lookup_delete_ne; [exact Ht|exact Hcalm].
Qed.

Lemma holds_run k p t (evs : list (Event K X)) s :
  Forall (calm k p t) evs -> holds k p t s -> holds k p t (run evs s).
Proof.
  revert s. induction evs as [|ev evs IH]; intros s Hcalm Hs; cbn; [exact Hs|].
  inversion Hcalm; subst. apply IH; [assumption|]. now apply holds_step.
Qed.

(** After a miss that stores the pending promise [p], the entry holds. *)
Lemma holds_after_miss k fn p s :
  wf s -> has k s = false -> returns fn = VPromise p ->
  settled s !! p <> Some Rejected ->
  (forall q, In (q, k) (watchers s) -> q = p) ->
  holds k p (nextTid s) (snd (getOrSet k fn s)).
Proof.
  intros Hwf Hk Hfn Hp Hw.
  split; [now apply wf_getOrSet|].
  rewrite (getOrSet_miss k fn s Hk), Hfn.
  cbn [snd watch cache timers settled watchers].
  split; [|split; [|split; [|exact Hp]]].
  - apply lookup_insert_eq.
  - apply lookup_insert_eq.
  - intros q Hq. apply in_app_or in Hq as [Hq|[[= <-]|[]]]; [auto|reflexivity].
Qed.

(** C10 -- a miss whose producer returns the pending promise [p] stores
    [p] under the key and a later [getOrSet] on the key returns [p] without
    calling its producer.  When [p] rejects, the entry of the key is
    deleted as the rejection is observed, and the next [getOrSet] on the
    key calls its producer again and returns that producer's value, not
    [p].  When [p] fulfils, the cache is left as it is: the next [getOrSet]
    still returns [p] without calling its producer, and the entry goes when
    its timeout fires.  More generally, from a well-formed state in which no
    function awaits another promise for the key, the entry outlasts every
    sequence of events other than [p] rejecting, its own timeout firing, and
    [set], [delete] or [clear] on the key. *)
Theorem getOrSet_rejection_evicts :
  forall (s : State K X) (k : K) (fn fn' : Producer X) (p : nat),
    has k s = false ->
    returns fn = VPromise p ->
    settled s !! p = None ->
    let s1 := snd (getOrSet k fn s) in
    fst (getOrSet k fn s) = VPromise p /\
    invoked s1 = pid fn :: invoked s /\
    getOrSet k fn' s1 = (VPromise p, s1) /\
    (let s2 := settle p Rejected s1 in
     has k s2 = false /\
     fst (getOrSet k fn' s2) = returns fn' /\
     invoked (snd (getOrSet k fn' s2)) = pid fn' :: pid fn :: invoked s) /\
    (let s2 := settle p Fulfilled s1 in
     cache s2 = cache s1 /\
     getOrSet k fn' s2 = (VPromise p, s2) /\
     exists e, cache s2 !! k = Some e /\ value e = VPromise p /\
       timers s2 !! tid e = Some k /\
       has k (fireTimer (tid e) s2) = false) /\
    (wf s -> (forall q, In (q, k) (watchers s) -> q = p) ->
     forall evs : list (Event K X),
       Forall (calm k p (nextTid s)) evs ->
       getOrSet k fn' (run evs s1) = (VPromise p, run evs s1) /\
       timers (run evs s1) !! nextTid s = Some k /\
       has k (fireTimer (nextTid s) (run evs s1)) = false).
Proof.
  intros s k fn fn' p Hk Hfn Hp. cbv zeta.
  rewrite (getOrSet_miss k fn s Hk), Hfn. cbn [fst snd watch].
  set (s1 := mkState _ _ _ _ _ _).
  assert (He : cache s1 !! k = Some (mkEntry (nextTid s) (VPromise p))).
  { subst s1. cbn [cache]. apply lookup_insert_eq. }
  assert (Hhit : forall s', cache s' = cache s1 ->
            getOrSet k fn' s' = (VPromise p, s')).
  { intros s' Hc.
    apply (getOrSet_hit k fn' s' (mkEntry (nextTid s) (VPromise p))).
    - now rewrite Hc.
    - discriminate. }
  split; [reflexivity|]. split; [reflexivity|]. split; [apply Hhit; reflexivity|].
  split; [|split].
  3: {
    intros Hwf Hw evs Hcalm.
    assert (Hholds : holds k p (nextTid s) (run evs s1)).
    { apply holds_run; [exact Hcalm|].
      pose proof (holds_after_miss k fn p s Hwf Hk Hfn) as Hm.
      rewrite (getOrSet_miss k fn s Hk), Hfn in Hm. cbn [snd watch] in Hm.
      apply Hm; [congruence|exact Hw]. }
    destruct Hholds as (_ & Hc & Ht & _ & _).
    split; [|split; [exact Ht|]].
    - apply (getOrSet_hit k fn' _ (mkEntry (nextTid s) (VPromise p)) Hc). discriminate.
    - unfold fireTimer. rewrite Ht. apply has_delete_same. }
  - assert (Hgone : has k (settle p Rejected s1) = false).
    { unfold settle. subst s1. cbn [settled]. rewrite Hp.
      unfold observe. cbn [settled watchers cache timers nextTid invoked].
      rewrite lookup_insert_eq.
      apply has_deletes_listed with p.
      apply filter_In. split.
      - apply in_or_app. right. now left.
      - unfold awaits. simpl. apply Nat.eqb_refl. }
    split; [exact Hgone|].
    rewrite (getOrSet_miss k fn' _ Hgone). cbn [fst snd].
    split; [reflexivity|].
    destruct (returns fn'); cbn [watch invoked]; rewrite invoked_settle; reflexivity.
  - assert (Hs2 : settle p Fulfilled s1 =
        mkState (cache s1) (timers s1) (nextTid s1) (<[p := Fulfilled]> (settled s1))
                (List.filter (fun w => negb (awaits p w)) (watchers s1)) (invoked s1)).
    { unfold settle. subst s1. cbn [settled]. rewrite Hp.
      unfold observe. cbn [settled]. rewrite lookup_insert_eq. reflexivity. }
    rewrite Hs2. cbn [cache timers].
    split; [reflexivity|]. split; [apply Hhit; reflexivity|].
    exists (mkEntry (nextTid s) (VPromise p)). split; [exact He|].
    split; [reflexivity|]. cbn [tid]. split.
    + subst s1. cbn [timers]. apply lookup_insert_eq.
    + unfold fireTimer. cbn [timers]. subst s1. cbn [timers].
      rewrite lookup_insert_eq. apply has_delete_same.
Qed.

End WithKeys.

(** *** A cache keyed by strings *)

Definition pending (p : nat) : Producer Z := mkProducer p (VPromise p).

(** The key is filled with promise 1, its timeout fires while promise 1 is
    still pending, the key is filled again with promise 2, and promise 2
    fulfils. *)
Definition refilled : State string Z :=
  settle 2 Fulfilled
    (snd (getOrSet "k" (pending 2)
       (fireTimer 0
          (snd (getOrSet "k" (pending 1) emptyState))))).

(** In that state the fulfilled promise 2 is cached and its timeout is
    armed; when promise 1 now rejects, the entry holding promise 2 is
    deleted although its timeout has not fired. *)
Lemma stale_rejection_evicts_fulfilled_entry :
  get "k" refilled = VPromise 2 /\
  settled refilled !! 2%nat = Some Fulfilled /\
  timers refilled !! 1%nat = Some "k" /\
  has "k" (settle 1 Rejected refilled) = false /\
  timers (settle 1 Rejected refilled) !! 1%nat = None.
Proof. vm_compute. repeat split. Qed.

Lemma getOrSet_rejection_evicts_witness :
  let s1 := snd (getOrSet "k" (pending 1) (emptyState (K := string) (X := Z))) in
  fst (getOrSet "k" (pending 1) (emptyState (K := string) (X := Z))) = VPromise 1 /\
  invoked s1 = [1%nat] /\
  getOrSet "k" (pending 2) s1 = (VPromise 1, s1) /\
  (let s2 := settle 1 Rejected s1 in
   has "k" s2 = false /\
   fst (getOrSet "k" (pending 2) s2) = VPromise 2 /\
   invoked (snd (getOrSet "k" (pending 2) s2)) = [2%nat; 1%nat]) /\
  (let s2 := settle 1 Fulfilled s1 in
   cache s2 = cache s1 /\
   getOrSet "k" (pending 2) s2 = (VPromise 1, s2) /\
   exists e, cache s2 !! "k" = Some e /\ value e = VPromise 1 /\
     timers s2 !! tid e = Some "k" /\
     has "k" (fireTimer (tid e) s2) = false) /\
  (wf (emptyState (K := string) (X := Z)) ->
   (forall q, In (q, "k") (watchers (emptyState (K := string) (X := Z))) -> q = 1%nat) ->
   forall evs : list (Event string Z),
     Forall (calm "k" 1 (nextTid (emptyState (K := string) (X := Z)))) evs ->
     getOrSet "k" (pending 2) (run evs s1) = (VPromise 1, run evs s1) /\
     timers (run evs s1) !! nextTid (emptyState (K := string) (X := Z)) = Some "k" /\
     has "k" (fireTimer (nextTid (emptyState (K := string) (X := Z))) (run evs s1)) = false).
Proof.
  apply (getOrSet_rejection_evicts emptyState "k" (pending 1) (pending 2) 1%nat);
    reflexivity.
Defined.

(** The state of the sample trace before promise 1 rejects is reached from
    the empty cache, hence well formed; what it lacks for the entry of
    promise 2 to stay is that a function still awaits promise 1 for the
    key. *)
Lemma refilled_awaits_earlier_promise :
  wf refilled /\ In (1%nat, "k") (watchers refilled).
Proof.
  split.
  - unfold refilled. apply wf_settle, wf_getOrSet, wf_fireTimer, wf_getOrSet, wf_empty.
  - vm_compute. now left.
Qed.

End CacheFacts.

(* ===================================================================== *)
(** ** src/sig.ts: applying the extracted scripts to the formats *)
(* ===================================================================== *)

Module Sig.
Import FormatUtils.

(** A parsed URL as [setDownloadURL] uses it: the query pairs
    ([searchParams]) and the rest. *)
Record Url := mkUrl {
  base : string;
  searchParams : list (string * string)
}.

(** The platform functions [setDownloadURL] calls: [decodeURIComponent],
    [new URL(s)] (both can throw), [url.toString()] and
    [querystring.parse].  They are not code of this repository and are taken
    as given. *)
Record UrlApi := mkUrlApi {
  decodeURIComponent : string -> result string;
  newURL : string -> result Url;
  urlToString : Url -> string;
  qsParse : string -> list (string * string)
}.

(** A compiled [vm.Script] run with [runInNewContext] on its one binding:
    the completion value, or the exception the script raises. *)
Definition Script := string -> result string.

(** [searchParams.get(name)] *)
Fixpoint paramGet (name : string) (ps : list (string * string)) : option string :=
  match ps with
  | [] => None
  | (k, v) :: rest => if String.eqb k name then Some v else paramGet name rest
  end.

(** [searchParams.set(name, value)]: the first pair of that name takes the
    value and later ones go; without one the pair is appended. *)
Fixpoint paramSet (name v : string) (ps : list (string * string)) : list (string * string) :=
  match ps with
  | [] => [(name, v)]
  | (k, w) :: rest =>
      if String.eqb k name
      then (k, v) :: List.filter (fun kv => negb (String.eqb (fst kv) name)) rest
      else (k, w) :: paramSet name v rest
  end.

Section SetDownloadURL.
Variable api : UrlApi.

(** The inner [decipher] of [setDownloadURL].  With no [url] argument in
    the cipher string, [args.url] is [undefined] and the [new URL] that
    follows in either branch throws. *)
Definition decipher (decipherScript : Script) (url : string) : result (option string) :=
  let args := qsParse api url in
  if negb (truthyS (paramGet "s" args)) then Ok (paramGet "url" args)
  else
    rbind (decodeURIComponent api (default "undefined" (paramGet "url" args))) (fun decoded =>
    rbind (newURL api decoded) (fun components =>
    rbind (decodeURIComponent api (default "" (paramGet "s" args))) (fun sig =>
    rbind (decipherScript sig) (fun deciphered =>
    Ok (Some (urlToString api
          (mkUrl (base components)
             (paramSet (orString (paramGet "sp" args) "sig") deciphered
                (searchParams components))))))))).

(** The inner [nTransform] of [setDownloadURL]. *)
Definition nTransform (nTransformScript : option Script) (url : option string)
    : result (option string) :=
  rbind (decodeURIComponent api (default "undefined" url)) (fun decoded =>
  rbind (newURL api decoded) (fun components =>
  let n := paramGet "n" (searchParams components) in
  match nTransformScript with
  | Some script =>
      if truthyS n then
        rbind (script (default "" n)) (fun transformed =>
        Ok (Some (urlToString api
              (mkUrl (base components) (paramSet "n" transformed (searchParams components))))))
      else Ok url
  | None => Ok url
  end)).

(** [setDownloadURL] updates the format in place; here it returns the
    updated format. *)
Definition setDownloadURL (format : VideoFormat)
    (decipherScript nTransformScript : option Script) : result VideoFormat :=
  match decipherScript with
  | None => Ok format
  | Some decipherScript =>
      let cipher := negb (truthyS (url format)) in
      let url :=
        if truthyS (url format) then url format
        else if truthyS (signatureCipher format) then signatureCipher format
        else FormatUtils.cipher format in
      match url with
      | Some u =>
          rbind (if cipher then decipher decipherScript u else Ok (Some u)) (fun u =>
          rbind (nTransform nTransformScript u) (fun u =>
          Ok (withCipher None None (withUrl u format))))
      | None => Ok format
      end
  end.

(** A [Record<string, VideoFormat>]: the own properties in insertion
    order.  (Keys are urls; an object would list keys that are canonical
    array indices first.) *)
Definition FormatRecord := list (string * VideoFormat).

(** [record[key] = format] *)
Fixpoint recordSet (key : string) (format : VideoFormat) (r : FormatRecord) : FormatRecord :=
  match r with
  | [] => [(key, format)]
  | (k, f) :: rest =>
      if String.eqb k key then (k, format) :: rest
      else (k, f) :: recordSet key format rest
  end.

(** The [forEach] of [decipherFormats], once [getFunctions] has given the
    two scripts. *)
Fixpoint decipherEach (formats : list VideoFormat)
    (decipherScript nTransformScript : option Script)
    (decipheredFormats : FormatRecord) : result FormatRecord :=
  match formats with
  | [] => Ok decipheredFormats
  | format :: rest =>
      rbind (setDownloadURL format decipherScript nTransformScript) (fun format =>
      decipherEach rest decipherScript nTransformScript
        (if truthyS (url format)
         then recordSet (default "" (url format)) format decipheredFormats
         else decipheredFormats))
  end.

(** [decipherFormats], given the outcome of [await getFunctions(...)]. *)
Definition decipherFormats (formats : list VideoFormat)
    (functions : result (option Script * option Script)) : result FormatRecord :=
  rbind functions (fun '(decipherScript, nTransformScript) =>
  decipherEach formats decipherScript nTransformScript []).

End SetDownloadURL.

End Sig.

(* ===================================================================== *)
(** ** src/utils.ts: [playError], [applyPlayerClients] *)
(* ===================================================================== *)

Module Utils.
Import FormatUtils.

Record PlayabilityStatus := mkPlayability {
  status : option string;
  reason : option string;
  messages : option (list string)
}.

Record StreamingData := mkStreamingData {
  formats : option (list VideoFormat);
  adaptiveFormats : option (list VideoFormat);
  dashManifestUrl : option string;
  hlsManifestUrl : option string
}.

(** [interface PlayerResponse], with the other properties the modelled
    code reads: [videoDetails.videoId] and [streamingData]. *)
Record PlayerResponse := mkPlayerResponse {
  playabilityStatus : option PlayabilityStatus;
  videoDetails : option (option string);
  streamingData : option StreamingData
}.

Inductive PlayerClient :=
| WEB_EMBEDDED
| TV
| IOS
| ANDROID
| WEB.

Definition clientEqb (a b : PlayerClient) : bool :=
  match a, b with
  | WEB_EMBEDDED, WEB_EMBEDDED | TV, TV | IOS, IOS | ANDROID, ANDROID | WEB, WEB => true
  | _, _ => false
  end.

(** [playerClients?.includes(c)] *)
Definition includesClient (cs : option (list PlayerClient)) (c : PlayerClient) : bool :=
  match cs with
  | Some cs => existsb (clientEqb c) cs
  | None => false
  end.

Definition playError (player_response : option PlayerResponse) : option JsError :=
  match player_response with
  | None => None
  | Some player_response =>
      match playabilityStatus player_response with
      | None => None
      | Some playability =>
          let st := orString (status playability) "" in
          if String.eqb st "ERROR" || String.eqb st "LOGIN_REQUIRED" then
            Some (UnrecoverableError
                    (orString (reason playability)
                       (orString (match messages playability with
                                  | Some (m :: _) => Some m
                                  | _ => None
                                  end) "Unknown error")))
          else if String.eqb st "LIVE_STREAM_OFFLINE" then
            Some (UnrecoverableError
                    (orString (reason playability) "The live stream is offline."))
          else if String.eqb st "UNPLAYABLE" then
            Some (UnrecoverableError
                    (orString (reason playability) "This video is unavailable."))
          else None
      end
  end.

(** [applyPlayerClients]: the list the caller gave, or the default one. *)
Definition applyPlayerClients (playerClients : option (list PlayerClient))
    : option (list PlayerClient) :=
  match playerClients with
  | None | Some [] => Some [WEB_EMBEDDED; IOS; ANDROID; TV]
  | Some cs => Some cs
  end.

End Utils.

(* ===================================================================== *)
(** ** src/info.ts *)
(* ===================================================================== *)

Module Info.
Import FormatUtils Utils.

(** *** Effects

    What the resolution does to the outside, in the order it starts it.
    [Attempt n] is [retryFunc] calling its function for the [n]-th time
    (from 0); in [getBasicInfo] that function is [getWatchHTMLPage].
    [Concurrently branches] stands for promises that run at the same time
    and are awaited together: each branch holds the events of one promise in
    their order, and nothing is said about the order between events of
    different branches. *)
#[warnings="-register-all"] Inductive Event :=
| Attempt (n : nat)
| Wait (ms : Z)
| WatchPageBody
| EmbedPageBody
| PlayerScript
| PlayerApi (client : PlayerClient)
| DashManifest (url : string)
| HlsManifest (url : string)
| Concurrently (branches : list (list Event)).

(** An async computation run to its end: the events it started and its
    outcome. *)
Definition M (A : Type) : Type := list Event * result A.

Definition ret {A} (a : A) : M A := ([], Ok a).
Definition throw {A} (e : JsError) : M A := ([], Throw e).
Definition emit (ev : Event) : M unit := ([ev], Ok tt).
Definition lift {A} (r : result A) : M A := ([], r).

Definition bind {A B} (m : M A) (k : A -> M B) : M B :=
  match snd m with
  | Ok a => ((fst m ++ fst (k a))%list, snd (k a))
  | Throw e => (fst m, Throw e)
  end.

Notation "x <- m ;; k" := (bind m (fun x => k))
  (at level 100, m at next level, right associativity).
Notation "m ;;; k" := (bind m (fun _ => k))
  (at level 100, right associativity).

(** [try { await m } catch (err) { ... }]: the outcome, to branch on. *)
Definition try {A} (m : M A) : M (result A) := (fst m, Ok (snd m)).

(** [Promise.allSettled] on promises already started: every promise runs;
    the outcomes come back in the order of the array. *)
Definition allSettled {A} (promises : list (M A)) : M (list (result A)) :=
  ([Concurrently (map fst promises)], Ok (map snd promises)).

(** The fulfilled values among some outcomes, in their order. *)
Definition successful {A} (responses : list (result A)) : list A :=
  flat_map (fun r => match r with Ok v => [v] | Throw _ => [] end) responses.

(** The reason of the promise at position [i], when that one rejects. *)
Definition rejectionAt {A} (outcomes : list (result A)) (i : nat) : option JsError :=
  match nth_error outcomes i with
  | Some (Throw e) => Some e
  | _ => None
  end.

(** The reason of the first promise to reject, [order] listing the
    positions of the promises in the order in which they settle. *)
Fixpoint firstRejection {A} (outcomes : list (result A)) (order : list nat)
    : option JsError :=
  match order with
  | [] => None
  | i :: rest =>
      match rejectionAt outcomes i with
      | Some e => Some e
      | None => firstRejection outcomes rest
      end
  end.

(** [Promise.all] on promises already started: every promise runs; the
    values come back in the order of the array when all fulfil, and the
    first rejection in time rejects the whole.  [order] is the order in
    which the promises settle; a position it leaves out settles after the
    ones it lists, in the order of the array. *)
Definition all {A} (order : list nat) (promises : list (M A)) : M (list A) :=
  let outcomes := map snd promises in
  ([Concurrently (map fst promises)],
   match firstRejection outcomes (order ++ seq 0 (length outcomes)) with
   | Some e => Throw e
   | None => Ok (successful outcomes)
   end).

(** *** [retryFunc] *)

Record RetryOptions := mkRetryOptions {
  maxRetries : option Z;
  backoff : option (Z * Z)
}.

(** [err?.statusCode]: only the error of a non-2xx response carries one. *)
Definition statusCode (err : JsError) : option Z :=
  match err with
  | StatusError code => Some code
  | _ => None
  end.

(** [err?.statusCode < 500]: a comparison with [undefined] is [false]. *)
Definition statusBelow500 (err : JsError) : bool :=
  match statusCode err with
  | Some code => code <? 500
  | None => false
  end.

(** The [while] loop of [retryFunc]: [fuel] bounds the iterations and
    [retryFunc] gives it enough ([retryLoop_fuel]).  Leaving the loop by
    its condition returns [result], still [undefined]. *)
Fixpoint retryLoop {T} (func : nat -> M T) (maxRetries inc max : Z)
    (fuel : nat) (currentTry : Z) : M (option T) :=
  if currentTry <=? maxRetries then
    match fuel with
    | O => ret None
    | S fuel =>
        emit (Attempt (Z.to_nat currentTry)) ;;;
        outcome <- try (func (Z.to_nat currentTry)) ;;
        match outcome with
        | Ok result => ret (Some result)
        | Throw err =>
            if statusBelow500 err || (maxRetries <=? currentTry) then throw err
            else
              let currentTry := currentTry + 1 in
              let wait := Z.min (currentTry * inc) max in
              emit (Wait wait) ;;;
              retryLoop func maxRetries inc max fuel currentTry
        end
    end
  else ret None.

(** [if (!options.maxRetries) options.maxRetries = 3] *)
Definition effectiveMaxRetries (options : RetryOptions) : Z :=
  if truthyN (maxRetries options) then orZero (maxRetries options) else 3.

(** [if (!options.backoff) options.backoff = { inc: 500, max: 5000 }] *)
Definition effectiveBackoff (options : RetryOptions) : Z * Z :=
  default (500, 5000) (backoff options).

Definition retryFunc {T} (func : nat -> M T) (options : RetryOptions) : M (option T) :=
  let maxRetries := effectiveMaxRetries options in
  let '(inc, max) := effectiveBackoff options in
  retryLoop func maxRetries inc max (Z.to_nat (maxRetries + 1)) 0.

(** *** [getBasicInfo] and [getInfo] *)

(** [interface VideoInfo]: the properties the modelled code reads or sets. *)
Record VideoInfo := mkVideoInfo {
  player_response : option PlayerResponse;
  html5player : option string;
  info_formats : option (list VideoFormat)
}.

Record RequestOptions := mkRequestOptions {
  playerClients : option (list PlayerClient);
  requestOptions : RetryOptions
}.

(** One open tag of the DASH manifest as [sax] reports it: the upper-cased
    name and the attributes. *)
Record Tag := mkTag {
  tagName : string;
  attributes : list (string * string)
}.

(** What the network and the platform answer during one resolution: the
    outcome of the [n]-th call of [getWatchHTMLPage]; whether the functions
    of [info-extras.ts] that [getBasicInfo] runs on the page it obtained
    ([getRelatedVideos], [getMedia], [getAuthor], [getLikes],
    [getStoryboards], [getChapters], [cleanVideoDetails]) return or one of
    them throws, as [cleanVideoDetails] does on a response without
    [thumbnail]; what [getHTML5player] finds in the watch page body and in
    the embed page body; [new URL(s, BASE_URL).toString()] for the player
    url found (or its [TypeError]); the outcome of the player script request
    and the match on its body in [getPlaybackContext], for the client that
    asks; the outcome of [utils.request] on the player endpoint for each
    client payload; the outcome of [sig.getFunctions]; the open tags [sax]
    reports for a DASH manifest url (or the request or parser error); the
    body of an HLS playlist url (or the request error); and the order in
    which the promises given to [Promise.all] settle, as positions in the
    array. *)
Record World := mkWorld {
  urlApi : Sig.UrlApi;
  watchPage : nat -> result VideoInfo;
  pageDetails : VideoInfo -> result unit;
  watchBodyPlayer : result (option string);
  embedBodyPlayer : result (option string);
  playerUrl : string -> result string;
  playbackContext : PlayerClient -> result unit;
  playerEndpoint : PlayerClient -> result PlayerResponse;
  functions : result (option Sig.Script * option Sig.Script);
  dashDocument : string -> result (list Tag);
  hlsBody : string -> result string;
  settleOrder : list nat
}.

(** [/^https?:\/\//.test(line)] *)
Definition isHttpLine (line : string) : bool :=
  String.prefix "http://" line || String.prefix "https://" line.

(** The group of the first match of [/\/itag\/(\d+)\//] in [line]. *)
Fixpoint matchItag (line : string) : option string :=
  match line with
  | EmptyString => None
  | String _ r =>
      if String.prefix "/itag/" line then
        let '(digits, rest) := takeDigits (skip 6 line) in
        if negb (String.eqb digits EmptyString) && String.prefix "/" rest
        then Some digits
        else matchItag r
      else matchItag r
  end.

(** The record [getM3U8] builds from the playlist body: one format per
    stream line, stored under that line. *)
Definition m3u8Formats (body : string) : Sig.FormatRecord :=
  fold_left
    (fun formats line =>
       match matchItag line with
       | Some digits =>
           Sig.recordSet line
             (withContentLength (Some EmptyString)
                (withUrl (Some line) (bareFormat (orZero (parseInt digits)))))
             formats
       | None => formats
       end)
    (List.filter isHttpLine (splitOn (ascii_of_nat 10) body)) [].

Section Resolution.
Variable w : World.
Variable id : string.

Definition getWatchHTMLPage (n : nat) : M VideoInfo := lift (watchPage w n).

(** [getBasicInfo]: the watch page, the playability check, and the
    metadata ([related_videos], [videoDetails]) read off the page; the
    functions that read it can throw, and what they attach to [info] plays
    no part in choosing formats. *)
Definition getBasicInfo (options : RequestOptions) : M VideoInfo :=
  info <- retryFunc getWatchHTMLPage (requestOptions options) ;;
  match info with
  | None => throw (TypeError "Cannot read properties of undefined (reading 'player_response')")
  | Some info =>
      match playError (player_response info) with
      | Some playErr => throw playErr
      | None => lift (pageDetails w info) ;;; ret info
      end
  end.

Definition malformedResponse : JsError := Error "Malformed response from YouTube".

(** The request to the player endpoint and the two checks on its answer,
    as [playerAPI], [fetchIosJsonPlayer] and [fetchAndroidJsonPlayer] each
    have them. *)
Definition playerAPI (client : PlayerClient) : M PlayerResponse :=
  emit (PlayerApi client) ;;;
  response <- lift (playerEndpoint w client) ;;
  match playError (Some response) with
  | Some playErr => throw playErr
  | None =>
      match videoDetails response with
      | Some (Some videoId) =>
          if String.eqb id videoId then ret response else throw malformedResponse
      | _ => throw malformedResponse
      end
  end.

Definition getPlaybackContext (client : PlayerClient) : M unit :=
  emit PlayerScript ;;; lift (playbackContext w client).

Definition fetchWebEmbeddedPlayer : M PlayerResponse :=
  getPlaybackContext WEB_EMBEDDED ;;; playerAPI WEB_EMBEDDED.

Definition fetchTvPlayer : M PlayerResponse :=
  getPlaybackContext TV ;;; playerAPI TV.

Definition fetchIosJsonPlayer : M PlayerResponse := playerAPI IOS.

Definition fetchAndroidJsonPlayer : M PlayerResponse := playerAPI ANDROID.

Definition parseFormats (player_response : option PlayerResponse) : list VideoFormat :=
  match player_response with
  | Some pr =>
      match streamingData pr with
      | Some sd => (default [] (formats sd) ++ default [] (adaptiveFormats sd))%list
      | None => []
      end
  | None => []
  end.

(** [parser.onopentag] of [getDashManifest]: the state is the record built
    so far and the attributes of the current adaptation set. *)
Definition attr (name : string) (attrs : list (string * string)) : option string :=
  Sig.paramGet name attrs.

(** The one-character string holding a double quote. *)
Definition quote : string := String (ascii_of_nat 34) EmptyString.

(** [`${x}`] of a property that may be [undefined]. *)
Definition show (x : option string) : string := default "undefined" x.

Definition onopentag (url : string) (node : Tag)
    (st : Sig.FormatRecord * list (string * string))
    : Sig.FormatRecord * list (string * string) :=
  let '(formats, adaptationSet) := st in
  if String.eqb (tagName node) "ADAPTATIONSET" then (formats, attributes node)
  else if String.eqb (tagName node) "REPRESENTATION" then
    match parseInt (show (attr "ID" (attributes node))) with
    | Some itag =>
        let common :=
          withMimeType
            (Some (show (attr "MIMETYPE" adaptationSet) +:+ "; codecs=" +:+ quote +:+
                   show (attr "CODECS" (attributes node)) +:+ quote))
            (withBitrate (parseInt (show (attr "BANDWIDTH" (attributes node))))
               (withUrl (Some url) (bareFormat itag))) in
        let format :=
          if truthyS (attr "HEIGHT" (attributes node)) then
            withPicture (parseInt (show (attr "WIDTH" (attributes node))))
                        (parseInt (show (attr "HEIGHT" (attributes node))))
                        (parseInt (show (attr "FRAMERATE" (attributes node))))
                        common
          else withAudioSampleRate (attr "AUDIOSAMPLINGRATE" (attributes node)) common in
        (Sig.recordSet url format formats, adaptationSet)
    | None => (formats, adaptationSet)
    end
  else (formats, adaptationSet).

(** The record [getDashManifest] resolves with once the parser has seen
    every open tag. *)
Definition dashFormats (url : string) (tags : list Tag) : Sig.FormatRecord :=
  fst (fold_left (fun st node => onopentag url node st) tags ([], [])).

Definition getDashManifest (url : string) : M Sig.FormatRecord :=
  emit (DashManifest url) ;;;
  tags <- lift (dashDocument w url) ;;
  ret (dashFormats url tags).

Definition getM3U8 (url : string) : M Sig.FormatRecord :=
  emit (HlsManifest url) ;;;
  body <- lift (hlsBody w url) ;;
  ret (m3u8Formats body).

Definition parseAdditionalManifests (player_response : option PlayerResponse)
    : list (M Sig.FormatRecord) :=
  match player_response with
  | Some pr =>
      match streamingData pr with
      | Some sd =>
          ((if truthyS (dashManifestUrl sd)
            then [getDashManifest (default "" (dashManifestUrl sd))] else []) ++
           (if truthyS (hlsManifestUrl sd)
            then [getM3U8 (default "" (hlsManifestUrl sd))] else []))%list
      | None => []
      end
  | None => []
  end.

(** [sig.decipherFormats]: the player script is fetched through
    [getFunctions], then the scripts are applied. *)
Definition decipherFormats (formats : list VideoFormat) : M Sig.FormatRecord :=
  emit PlayerScript ;;;
  lift (Sig.decipherFormats (urlApi w) formats (functions w)).

(** The two [funcs.push] of a chosen player response. *)
Definition formatSources (best : option PlayerResponse) : list (M Sig.FormatRecord) :=
  decipherFormats (parseFormats best) :: parseAdditionalManifests best.

(** The promises [getInfo] starts for the enabled device clients, in the
    order it pushes them. *)
Definition devicePromises (playerClients : option (list PlayerClient))
    : list (M PlayerResponse) :=
  ((if includesClient playerClients WEB_EMBEDDED then [fetchWebEmbeddedPlayer] else []) ++
   (if includesClient playerClients TV then [fetchTvPlayer] else []) ++
   (if includesClient playerClients IOS then [fetchIosJsonPlayer] else []) ++
   (if includesClient playerClients ANDROID then [fetchAndroidJsonPlayer] else []))%list.

(** The [funcs] array after the [try] block, [successfulResponses] being
    the fulfilled values of [Promise.allSettled] ([.filter(r => r)] keeps
    them all: a device fetch only returns a response whose [videoDetails]
    it has read): the sources of the first successful device response, else
    those of the watch page response when [WEB] is enabled, else nothing.
    (No statement of the [try] block throws synchronously, so its [catch]
    block, which repeats the [WEB] fallback, does not run.) *)
Definition chooseSources (playerClients : option (list PlayerClient))
    (successfulResponses : list PlayerResponse) (info : VideoInfo)
    : list (M Sig.FormatRecord) :=
  match successfulResponses with
  | best :: _ => formatSources (Some best)
  | [] =>
      if includesClient playerClients WEB
      then formatSources (player_response info)
      else []
  end.

(** [Object.assign({}, ...results)]: the sources in the order of the
    array, a later one replacing the format an earlier one holds under the
    same key. *)
Definition objectAssign (results : list Sig.FormatRecord) : Sig.FormatRecord :=
  fold_left (fun acc r => fold_left (fun acc kv => Sig.recordSet (fst kv) (snd kv) acc) r acc)
            results [].

(** [format && format.url && format.mimeType] *)
Definition playable (format : VideoFormat) : bool :=
  truthyS (url format) && truthyS (mimeType format).

(** [info.html5player || getHTML5player(await getWatchHTMLPageBody(...)) ||
    getHTML5player(await getEmbedPageBody(...))] *)
Definition locateHtml5player (info : VideoInfo) : M (option string) :=
  if truthyS (html5player info) then ret (html5player info)
  else
    emit WatchPageBody ;;;
    found <- lift (watchBodyPlayer w) ;;
    if truthyS found then ret found
    else emit EmbedPageBody ;;; lift (embedBodyPlayer w).

(** [getInfo], up to the check that playable formats remain; what follows
    in the source (metadata per format, the sort, [bestFormat]) works on the
    non-empty list, see [FormatMeta.finishFormats].  [info.formats] is
    [Object.values] of the merged record: its formats in insertion order
    (for keys that are urls). *)
Definition getInfo (options : RequestOptions) : M VideoInfo :=
  let playerClients := applyPlayerClients (playerClients options) in
  let options := mkRequestOptions playerClients (requestOptions options) in
  info <- getBasicInfo options ;;
  html5player <- locateHtml5player info ;;
  if negb (truthyS html5player) then throw (Error "Unable to find html5player file")
  else
    html5player <- lift (playerUrl w (default "" html5player)) ;;
    let promises := devicePromises playerClients in
    responses <- (match promises with
                  | [] => ret []
                  | _ => allSettled promises
                  end) ;;
    let funcs := chooseSources playerClients (successful responses) info in
    match funcs with
    | [] => throw (Error "Failed to find any playable formats")
    | _ =>
        results <- all (settleOrder w) funcs ;;
        let formats := List.filter playable (map snd (objectAssign results)) in
        match formats with
        | [] => throw (Error "No playable formats found")
        | _ => ret (mkVideoInfo (player_response info) (Some html5player) (Some formats))
        end
    end.

End Resolution.

End Info.

(* ===================================================================== *)
(** ** src/index.ts: the chunked branch of [downloadFromInfoCallback] *)
(* ===================================================================== *)

Module Download.
Import FormatUtils.

(** [options.range] *)
Record Range := mkRange {
  range_start : option Z;
  range_end : option Z
}.

Record DownloadOptions := mkDownloadOptions {
  range : option Range;
  dlChunkSize : option Z
}.

(** A [Range: bytes=start-end] header sent; [None] is the empty end. *)
Definition Window := (Z * option Z)%type.

(** The variables the closures [getNextChunk] and the [end] handler share,
    with the number of requests that have not ended yet and the [Range]
    headers sent so far, oldest first. *)
Record Chunking := mkChunking {
  start : Z;
  end_ : Z;
  shouldEnd : bool;
  destroyed : bool;
  inFlight : nat;
  requests : list Window
}.

(** [typeof options.dlChunkSize === 'number' ? options.dlChunkSize : 1024 * 1024 * 10] *)
Definition chunkSize (options : DownloadOptions) : Z :=
  default (1024 * 1024 * 10) (dlChunkSize options).

(** [dlChunkSize !== 0 && (!format.hasAudio || !format.hasVideo)] *)
Definition shouldBeChunked (options : DownloadOptions) (format : VideoFormat) : bool :=
  negb (chunkSize options =? 0) &&
  (negb (truthyB (hasAudio format)) || negb (truthyB (hasVideo format))).

(** [options.range?.end] *)
Definition rangeEndOf (options : DownloadOptions) : option Z :=
  match range options with
  | Some r => range_end r
  | None => None
  end.

(** [options.range?.start || 0] *)
Definition startOf (options : DownloadOptions) : Z :=
  match range options with
  | Some r => orZero (range_start r)
  | None => 0
  end.

(** [contentLength] as the chunked branch computes it; [None] is [NaN]. *)
Definition contentLengthOf (options : DownloadOptions) (format : VideoFormat) : option Z :=
  let total := parseInt (default "undefined" (contentLength format)) in
  match range options with
  | Some _ =>
      let rangeEnd := rangeEndOf options in
      option_map (fun n => n - startOf options)
        (if truthyN rangeEnd then Some (orZero rangeEnd + 1) else total)
  | None => total
  end.

Section Chunked.
Variable chunk : Z.
Variable rangeEnd : option Z.
Variable contentLength : option Z.

(** [end === rangeEnd] *)
Definition isRangeEnd (e : Z) : bool :=
  match rangeEnd with
  | Some r => e =? r
  | None => false
  end.

Definition getNextChunk (d : Chunking) : Chunking :=
  if destroyed d then d
  else
    let e := end_ d in
    let e := if negb (truthyN rangeEnd) && (orZero contentLength <=? e) then 0 else e in
    let e := if truthyN rangeEnd && (orZero rangeEnd <? e) then orZero rangeEnd else e in
    mkChunking (start d) e ((e =? 0) || isRangeEnd e) (destroyed d)
      (S (inFlight d))
      (requests d ++ [(start d, if e =? 0 then None else Some e)]).

(** The [end] handler of the request in flight. *)
Definition onEnd (d : Chunking) : Chunking :=
  let d := mkChunking (start d) (end_ d) (shouldEnd d) (destroyed d)
             (Nat.pred (inFlight d)) (requests d) in
  if destroyed d then d
  else if negb (end_ d =? 0) && negb (isRangeEnd (end_ d)) then
    getNextChunk
      (mkChunking (end_ d + 1) (end_ d + chunk) (shouldEnd d) (destroyed d)
         (inFlight d) (requests d))
  else d.

(** The first [getNextChunk()] call. *)
Definition begin (start0 : Z) : Chunking :=
  getNextChunk (mkChunking start0 (start0 + chunk) true false 0 []).

(** The requests in flight end one after the other, [n] of them at most. *)
Fixpoint deliver (n : nat) (d : Chunking) : Chunking :=
  match n with
  | O => d
  | S n =>
      match inFlight d with
      | O => d
      | S _ => deliver n (onEnd d)
      end
  end.

End Chunked.

(** The chunked download of [format] under [options], after [n] requests
    at most have ended. *)
Definition chunkedDownload (options : DownloadOptions) (format : VideoFormat) (n : nat)
    : Chunking :=
  deliver (chunkSize options) (rangeEndOf options) (contentLengthOf options format) n
    (begin (chunkSize options) (rangeEndOf options) (contentLengthOf options format)
       (startOf options)).

End Download.

Module DownloadFacts.
Import FormatUtils Download.

(** [tiles ws from to]: the windows [ws], in order, start at [from], each
    next one starts one past the end of the one before, none is empty, all
    but the last have an end, and the last ends at [to] ([None]: no end). *)
Inductive tiles : list Window -> Z -> option Z -> Prop :=
| tiles_last (from : Z) (to : option Z) :
    match to with Some t => from <= t | None => True end ->
    tiles [(from, to)] from to
| tiles_next (from e : Z) (rest : list Window) (to : option Z) :
    from <= e -> tiles rest (e + 1) to ->
    tiles ((from, Some e) :: rest) from to.

(** Byte offset [x] lies in the window. *)
Definition contains (x : Z) (w : Window) : bool :=
  (fst w <=? x) && match snd w with Some e => x <=? e | None => true end.

(** Byte offset [x] lies in the range from [from] to [to]. *)
Definition inRange (from : Z) (to : option Z) (x : Z) : bool :=
  contains x (from, to).

(** Windows that tile a range hold each offset of the range exactly once
    and no other offset: no gap and no overlap. *)
Lemma tiles_exact ws from to :
  tiles ws from to ->
  forall x, length (List.filter (contains x) ws) = if inRange from to x then 1%nat else 0%nat.
Proof.
  induction 1 as [from to Hto|from e rest to Hle Ht IH]; intros x.
  - unfold inRange. simpl. destruct (contains x (from, to)); reflexivity.
  - assert (Hend : match to with Some t => e + 1 <= t | None => True end).
    { clear IH. remember (e + 1) as f eqn:Ef. clear Ef.
      induction Ht as [f to Hto|f e' rest to Hle' Ht' IH'].
      - exact Hto.
      - destruct to; [|exact I]. lia. }
    cbn [List.filter].
    assert (Hhere : contains x (from, Some e) = (from <=? x) && (x <=? e)) by reflexivity.
    assert (Hrest : inRange (e + 1) to x =
                    (e + 1 <=? x) && match to with Some t => x <=? t | None => true end)
      by reflexivity.
    assert (Hall : inRange from to x =
                   (from <=? x) && match to with Some t => x <=? t | None => true end)
      by reflexivity.
    specialize (IH x). rewrite Hhere, Hall. rewrite Hrest in IH.
    destruct (from <=? x) eqn:E1; destruct (x <=? e) eqn:E2; cbn [andb length];
      rewrite IH; destruct (e + 1 <=? x) eqn:E3; cbn [andb];
      try (apply Z.leb_le in E1); try (apply Z.leb_gt in E1);
      try (apply Z.leb_le in E2); try (apply Z.leb_gt in E2);
      try (apply Z.leb_le in E3); try (apply Z.leb_gt in E3);
      try lia; try reflexivity;
      destruct to as [t|]; try reflexivity;
      destruct (x <=? t) eqn:E4;
      try (apply Z.leb_le in E4); try (apply Z.leb_gt in E4);
      try reflexivity; lia.
Qed.

(** The end of the range as the code reads it: an end of 0 is no end. *)
Definition target (rangeEnd : option Z) : option Z :=
  if truthyN rangeEnd then rangeEnd else None.

(** Where the windows stop growing. *)
Definition bound (rangeEnd contentLength : option Z) : Z :=
  if truthyN rangeEnd then orZero rangeEnd else orZero contentLength.

(** The end [getNextChunk] settles on. *)
Definition nextEnd (rangeEnd contentLength : option Z) (e : Z) : Z :=
  let e := if negb (truthyN rangeEnd) && (orZero contentLength <=? e) then 0 else e in
  if truthyN rangeEnd && (orZero rangeEnd <? e) then orZero rangeEnd else e.

Lemma getNextChunk_live rangeEnd contentLength d :
  destroyed d = false ->
  getNextChunk rangeEnd contentLength d =
  mkChunking (start d) (nextEnd rangeEnd contentLength (end_ d))
    ((nextEnd rangeEnd contentLength (end_ d) =? 0) ||
     isRangeEnd rangeEnd (nextEnd rangeEnd contentLength (end_ d)))
    false (S (inFlight d))
    (requests d ++ [(start d, if nextEnd rangeEnd contentLength (end_ d) =? 0
                              then None
                              else Some (nextEnd rangeEnd contentLength (end_ d)))]).
Proof. intros Hd. unfold getNextChunk. rewrite Hd. reflexivity. Qed.

(** The [end] event of the only request in flight. *)
Lemma onEnd_live chunk rangeEnd contentLength s e b ws :
  onEnd chunk rangeEnd contentLength (mkChunking s e b false 1 ws) =
  if negb (e =? 0) && negb (isRangeEnd rangeEnd e)
  then getNextChunk rangeEnd contentLength (mkChunking (e + 1) (e + chunk) b false 0 ws)
  else mkChunking s e b false 0 ws.
Proof. reflexivity. Qed.

Lemma deliver_done chunk rangeEnd contentLength n d :
  inFlight d = 0%nat -> deliver chunk rangeEnd contentLength n d = d.
Proof. intros Hf. destruct n; simpl; [reflexivity|]. now rewrite Hf. Qed.

Lemma inFlight_next rangeEnd contentLength d :
  (inFlight (getNextChunk rangeEnd contentLength d) <= S (inFlight d))%nat.
Proof. unfold getNextChunk. destruct (destroyed d); simpl; lia. Qed.

Lemma inFlight_ended chunk rangeEnd contentLength d :
  (inFlight d <= 1)%nat -> (inFlight (onEnd chunk rangeEnd contentLength d) <= 1)%nat.
Proof.
  intros Hf. unfold onEnd. cbn [destroyed end_ inFlight start shouldEnd requests].
  destruct (destroyed d); cbn [inFlight]; [lia|].
  destruct (negb (end_ d =? 0) && negb (isRangeEnd rangeEnd (end_ d))); cbn [inFlight]; [|lia].
  etransitivity; [apply inFlight_next|]. cbn [inFlight]. lia.
Qed.

(** At most one request is in flight at any time: a chunk is requested
    only from the [end] handler of the one before. *)
Lemma deliver_sequential chunk rangeEnd contentLength n d :
  (inFlight d <= 1)%nat ->
  (inFlight (deliver chunk rangeEnd contentLength n d) <= 1)%nat.
Proof.
  revert d. induction n as [|n IH]; intros d Hf; simpl; [exact Hf|].
  destruct (inFlight d) eqn:E; [lia|].
  apply IH, inFlight_ended. lia.
Qed.

(** The last window: the request is sent, it ends, nothing follows. *)
Lemma last_window chunk rangeEnd contentLength d e :
  destroyed d = false -> inFlight d = 0%nat ->
  nextEnd rangeEnd contentLength (end_ d) = e ->
  (e =? 0) || isRangeEnd rangeEnd e = true ->
  forall n, (1 <= n)%nat ->
  inFlight (deliver chunk rangeEnd contentLength n (getNextChunk rangeEnd contentLength d)) = 0%nat /\
  requests (deliver chunk rangeEnd contentLength n (getNextChunk rangeEnd contentLength d)) =
    (requests d ++ [(start d, if e =? 0 then None else Some e)])%list.
Proof.
  intros Hd Hf He Hstop n Hn.
  rewrite (getNextChunk_live _ _ _ Hd), He, Hf.
  destruct n as [|n]; [lia|]. cbn [deliver inFlight].
  rewrite onEnd_live.
  replace (negb (e =? 0) && negb (isRangeEnd rangeEnd e)) with false
    by (destruct (e =? 0), (isRangeEnd rangeEnd e); simpl in *; congruence).
  rewrite deliver_done by reflexivity. split; reflexivity.
Qed.

(** A window that is not the last: the request is sent, it ends, and the
    handler moves on to the next window. *)
Lemma middle_window chunk rangeEnd contentLength d e n :
  destroyed d = false -> inFlight d = 0%nat ->
  nextEnd rangeEnd contentLength (end_ d) = e ->
  (e =? 0) = false -> isRangeEnd rangeEnd e = false ->
  deliver chunk rangeEnd contentLength (S n) (getNextChunk rangeEnd contentLength d) =
  deliver chunk rangeEnd contentLength n
    (getNextChunk rangeEnd contentLength
       (mkChunking (e + 1) (e + chunk) false false 0
          (requests d ++ [(start d, Some e)])%list)).
Proof.
  intros Hd Hf He E0 Er.
  rewrite (getNextChunk_live _ _ _ Hd), He, Hf, E0, Er.
  cbn [deliver inFlight orb]. rewrite onEnd_live, E0, Er. reflexivity.
Qed.

(** From a state with no request in flight, [getNextChunk] and the [end]
    events that follow send windows that tile the rest of the range, and
    then no request is left in flight. *)
Lemma deliver_tiles chunk rangeEnd contentLength :
  1 <= chunk ->
  forall (k : nat) (d : Chunking),
    destroyed d = false -> inFlight d = 0%nat ->
    start d <= end_ d -> 1 <= end_ d ->
    (forall r, target rangeEnd = Some r -> start d <= r) ->
    (Z.to_nat (bound rangeEnd contentLength - end_ d) <= k)%nat ->
    exists n ws,
      (forall m, (n <= m)%nat ->
         inFlight (deliver chunk rangeEnd contentLength m
                     (getNextChunk rangeEnd contentLength d)) = 0%nat /\
         requests (deliver chunk rangeEnd contentLength m
                     (getNextChunk rangeEnd contentLength d)) = (requests d ++ ws)%list) /\
      tiles ws (start d) (target rangeEnd).
Proof.
  intros Hchunk k. induction k as [|k IH]; intros d Hd Hf Hse He Hr Hk.
  all: unfold target, bound in *.
  all: pose proof (eq_refl (nextEnd rangeEnd contentLength (end_ d))) as Hn;
       unfold nextEnd at 2 in Hn.
  all: destruct (truthyN rangeEnd) eqn:Et; cbn [negb andb] in Hn.
  all: try (destruct rangeEnd as [r|]; [|discriminate Et]; cbn [orZero] in *;
            assert (Hr0 : (r =? 0) = false)
              by (simpl in Et; now apply negb_true_iff in Et);
            specialize (Hr r eq_refl)).
  - (* a range end, already reached *)
    exists 1%nat, [(start d, Some r)]. split; [|constructor; exact Hr].
    intros m Hm.
    destruct (r <? end_ d) eqn:Elt.
    + pose proof (last_window chunk (Some r) contentLength d r Hd Hf Hn) as Hl.
      rewrite Hr0 in Hl. apply Hl; [|exact Hm]. simpl. apply Z.eqb_refl.
    + apply Z.ltb_ge in Elt. assert (Heq : end_ d = r) by lia.
      rewrite Heq in Hn at 2.
      pose proof (last_window chunk (Some r) contentLength d r Hd Hf Hn) as Hl.
      rewrite Hr0 in Hl. apply Hl; [|exact Hm]. simpl. apply Z.eqb_refl.
  - (* no range end, the content length already reached *)
    assert (Hle : (orZero contentLength <=? end_ d) = true) by (apply Z.leb_le; lia).
    rewrite Hle in Hn.
    exists 1%nat, [(start d, None)]. split; [|constructor; exact I].
    intros m Hm.
    apply (last_window chunk rangeEnd contentLength d 0 Hd Hf Hn); [reflexivity|exact Hm].
  - (* a range end *)
    destruct (r <? end_ d) eqn:Elt.
    + exists 1%nat, [(start d, Some r)]. split; [|constructor; exact Hr].
      intros m Hm.
      pose proof (last_window chunk (Some r) contentLength d r Hd Hf Hn) as Hl.
      rewrite Hr0 in Hl. apply Hl; [|exact Hm]. simpl. apply Z.eqb_refl.
    + apply Z.ltb_ge in Elt.
      destruct (Z.eq_dec (end_ d) r) as [Heq|Hne].
      * exists 1%nat, [(start d, Some r)]. split; [|constructor; exact Hr].
        intros m Hm. rewrite Heq in Hn at 2.
        pose proof (last_window chunk (Some r) contentLength d r Hd Hf Hn) as Hl.
        rewrite Hr0 in Hl. apply Hl; [|exact Hm]. simpl. apply Z.eqb_refl.
      * assert (Ee0 : (end_ d =? 0) = false) by (apply Z.eqb_neq; lia).
        assert (Eer : isRangeEnd (Some r) (end_ d) = false) by (simpl; now apply Z.eqb_neq).
        destruct (IH (mkChunking (end_ d + 1) (end_ d + chunk) false false 0
                        (requests d ++ [(start d, Some (end_ d))])%list))
          as (n & ws & Hrun & Htiles);
          cbn [destroyed inFlight start end_ requests]; try reflexivity; try lia.
        { intros r' [= <-]. lia. }
        cbn [start] in Htiles.
        exists (S n), ((start d, Some (end_ d)) :: ws).
        split; [|constructor; [exact Hse|exact Htiles]].
        intros m Hm. destruct m as [|m]; [lia|].
        rewrite (middle_window chunk (Some r) contentLength d (end_ d) m Hd Hf Hn Ee0 Eer).
        destruct (Hrun m) as [H1 H2]; [lia|].
        split; [exact H1|]. rewrite H2. cbn [requests].
        rewrite <- app_assoc. reflexivity.
  - (* no range end *)
    destruct (orZero contentLength <=? end_ d) eqn:Ele.
    + exists 1%nat, [(start d, None)]. split; [|constructor; exact I].
      intros m Hm.
      apply (last_window chunk rangeEnd contentLength d 0 Hd Hf Hn); [reflexivity|exact Hm].
    + apply Z.leb_gt in Ele.
      assert (Ee0 : (end_ d =? 0) = false) by (apply Z.eqb_neq; lia).
      assert (Eer : isRangeEnd rangeEnd (end_ d) = false).
      { unfold isRangeEnd. destruct rangeEnd as [r|]; [|reflexivity].
        simpl in Et. apply negb_false_iff, Z.eqb_eq in Et. subst r. exact Ee0. }
      destruct (IH (mkChunking (end_ d + 1) (end_ d + chunk) false false 0
                      (requests d ++ [(start d, Some (end_ d))])%list))
        as (n & ws & Hrun & Htiles);
        cbn [destroyed inFlight start end_ requests]; try reflexivity; try lia.
      { discriminate. }
      cbn [start] in Htiles.
      exists (S n), ((start d, Some (end_ d)) :: ws).
      split; [|constructor; [exact Hse|exact Htiles]].
      intros m Hm. destruct m as [|m]; [lia|].
      rewrite (middle_window chunk rangeEnd contentLength d (end_ d) m Hd Hf Hn Ee0 Eer).
      destruct (Hrun m) as [H1 H2]; [lia|].
      split; [exact H1|]. rewrite H2. cbn [requests].
      rewrite <- app_assoc. reflexivity.
Qed.

Lemma target_given r : 0 < r -> target (Some r) = Some r.
Proof.
  intros Hr. unfold target. simpl.
  destruct (r =? 0) eqn:E; [apply Z.eqb_eq in E; lia|reflexivity].
Qed.

(** C7 (as amended) -- in a chunked download (the branch taken for an
    audio-only or video-only format and a chunk size other than 0) with
    chunk size at least 1, a start of at least 0 and a range end that is
    either absent or positive and not below the start: at most one request
    is in flight at any time (the next chunk is requested from the [end]
    handler of the current one); and once the requests have ended the
    windows requested, in order, begin at the start of the range, each next
    one begins at the previous end plus one, and the last one ends at the
    range end (or has no end when none was given), so that every byte
    offset of the requested range lies in exactly one window and no other
    offset lies in any. *)
Theorem chunk_windows_tile_range :
  forall (options : DownloadOptions) (format : VideoFormat),
    1 <= chunkSize options ->
    0 <= startOf options ->
    match rangeEndOf options with
    | Some r => startOf options <= r /\ 0 < r
    | None => True
    end ->
    (forall n, (inFlight (chunkedDownload options format n) <= 1)%nat) /\
    exists (n : nat) (ws : list Window),
      (forall m, (n <= m)%nat ->
         inFlight (chunkedDownload options format m) = 0%nat /\
         requests (chunkedDownload options format m) = ws) /\
      tiles ws (startOf options) (rangeEndOf options) /\
      (forall x, length (List.filter (contains x) ws) =
                 if inRange (startOf options) (rangeEndOf options) x then 1%nat else 0%nat).
Proof.
  intros options format Hchunk Hstart Hend. unfold chunkedDownload, begin. split.
  - intros n. apply deliver_sequential.
    etransitivity; [apply inFlight_next|]. simpl. lia.
  - assert (Ht : target (rangeEndOf options) = rangeEndOf options).
    { destruct (rangeEndOf options) as [r|]; [|reflexivity].
      apply target_given. tauto. }
    set (d0 := mkChunking (startOf options) (startOf options + chunkSize options)
                 true false 0 []).
    destruct (deliver_tiles (chunkSize options) (rangeEndOf options)
                (contentLengthOf options format) Hchunk
                (Z.to_nat (bound (rangeEndOf options) (contentLengthOf options format)
                           - end_ d0)) d0)
      as (n & ws & Hrun & Htiles); subst d0;
      cbn [destroyed inFlight start end_ requests]; try reflexivity; try lia.
    { rewrite Ht. intros r Hr. rewrite Hr in Hend. tauto. }
    cbn [start] in Htiles. rewrite Ht in Htiles.
    exists n, ws. split; [|split].
    + intros m Hm. destruct (Hrun m Hm) as [H1 H2]. split; [exact H1|exact H2].
    + exact Htiles.
    + apply tiles_exact. exact Htiles.
Qed.

(** *** Sample downloads *)

Definition audioOnly100 : VideoFormat :=
  mkVideoFormat 140 (Some "https://example.com/a140") (Some "audio/mp4") None (Some 128)
    None None None (Some "100") None None None (Some false) (Some true)
    None None None None None.

(** Bytes 10 to 75 in chunks of 30. *)
Definition from10to75 : DownloadOptions :=
  mkDownloadOptions (Some (mkRange (Some 10) (Some 75))) (Some 30).

(** The one byte at offset 0, in chunks of 30. *)
Definition firstByteOnly : DownloadOptions :=
  mkDownloadOptions (Some (mkRange (Some 0) (Some 0))) (Some 30).

Example from10to75_windows :
  requests (chunkedDownload from10to75 audioOnly100 3)
    = [(10, Some 40); (41, Some 70); (71, Some 75)].
Proof. reflexivity. Qed.

(** A range end of 0 is falsy and is read as no end at all: asked for the
    byte range from 0 to 0, the download requests the whole content, so
    byte offset 50, outside the range asked for, lies in a window. *)
Lemma range_end_zero_downloads_everything :
  shouldBeChunked firstByteOnly audioOnly100 = true /\
  inFlight (chunkedDownload firstByteOnly audioOnly100 4) = 0%nat /\
  requests (chunkedDownload firstByteOnly audioOnly100 4)
    = [(0, Some 30); (31, Some 60); (61, Some 90); (91, None)] /\
  inRange (startOf firstByteOnly) (rangeEndOf firstByteOnly) 50 = false /\
  length (List.filter (contains 50)
            (requests (chunkedDownload firstByteOnly audioOnly100 4))) = 1%nat.
Proof. repeat split. Qed.

Lemma chunk_windows_tile_range_witness :
  (forall n, (inFlight (chunkedDownload from10to75 audioOnly100 n) <= 1)%nat) /\
  exists (n : nat) (ws : list Window),
    (forall m, (n <= m)%nat ->
       inFlight (chunkedDownload from10to75 audioOnly100 m) = 0%nat /\
       requests (chunkedDownload from10to75 audioOnly100 m) = ws) /\
    tiles ws (startOf from10to75) (rangeEndOf from10to75) /\
    (forall x, length (List.filter (contains x) ws) =
               if inRange (startOf from10to75) (rangeEndOf from10to75) x
               then 1%nat else 0%nat).
Proof.
  apply (chunk_windows_tile_range from10to75 audioOnly100).
  - vm_compute. discriminate.
  - vm_compute. discriminate.
  - simpl. split; [vm_compute; discriminate|reflexivity].
Defined.

End DownloadFacts.

Module SigFacts.
Import FormatUtils Sig.

Section WithApi.
Variable api : UrlApi.

(** Without a decipher script [setDownloadURL] returns at once. *)
Lemma setDownloadURL_no_decipher (format : VideoFormat) (n : option Script) :
  setDownloadURL api format None n = Ok format.
Proof. reflexivity. Qed.

(** With no n-transform script the url comes back as it went in. *)
Lemma nTransform_absent (u : string) (components : Url) (decoded : string) :
  decodeURIComponent api u = Ok decoded ->
  newURL api decoded = Ok components ->
  nTransform api None (Some u) = Ok (Some u).
Proof.
  intros Hdec Hurl. unfold nTransform.
  change (default "undefined" (Some u)) with u. rewrite Hdec. cbn [rbind]. rewrite Hurl. reflexivity.
Qed.

(** With no [n] parameter in the url the script is not run. *)
Lemma nTransform_no_n (script : option Script) (u : string) (components : Url)
    (decoded : string) :
  decodeURIComponent api u = Ok decoded ->
  newURL api decoded = Ok components ->
  truthyS (paramGet "n" (searchParams components)) = false ->
  nTransform api script (Some u) = Ok (Some u).
Proof.
  intros Hdec Hurl Hn. unfold nTransform.
  change (default "undefined" (Some u)) with u. rewrite Hdec. cbn [rbind]. rewrite Hurl. cbn [rbind]. rewrite Hn.
  destruct script; reflexivity.
Qed.

(** An exception of the n-transform script leaves [nTransform] as it is. *)
Lemma nTransform_throws (script : Script) (u : string) (components : Url)
    (decoded n : string) (e : JsError) :
  decodeURIComponent api u = Ok decoded ->
  newURL api decoded = Ok components ->
  paramGet "n" (searchParams components) = Some n ->
  n <> "" ->
  script n = Throw e ->
  nTransform api (Some script) (Some u) = Throw e.
Proof.
  intros Hdec Hurl Hn Hne Hs. unfold nTransform.
  change (default "undefined" (Some u)) with u. rewrite Hdec. cbn [rbind]. rewrite Hurl. cbn [rbind]. rewrite Hn.
  change (default "" (Some n)) with n.
  cbn [truthyS]. apply String.eqb_neq in Hne. rewrite Hne.
  cbn [negb]. rewrite Hs. reflexivity.
Qed.

(** A format that makes [setDownloadURL] throw makes [decipherFormats]
    throw, whatever formats come after it and whatever was collected
    before it. *)
Lemma decipherEach_throws (d n : option Script) (e : JsError) (format : VideoFormat)
    (after : list VideoFormat) :
  setDownloadURL api format d n = Throw e ->
  forall (before : list VideoFormat) (acc : FormatRecord),
    Forall (fun f => exists f', setDownloadURL api f d n = Ok f') before ->
    decipherEach api (before ++ format :: after) d n acc = Throw e.
Proof.
  intros Hthrow before. induction before as [|f before IH]; intros acc Hbefore.
  - cbn [app decipherEach]. rewrite Hthrow. reflexivity.
  - inversion Hbefore as [|? ? [f' Hf] Hrest]; subst.
    cbn [app decipherEach]. rewrite Hf. cbn [rbind]. apply IH. exact Hrest.
Qed.

(** When [setDownloadURL] throws on a format of the list,
    [decipherFormats] throws: the exception of the first format on which it
    throws, whatever the other formats are and whatever was collected
    before. *)
Lemma decipherEach_first_failure (d n : option Script) (formats : list VideoFormat) :
  (exists f e, In f formats /\ setDownloadURL api f d n = Throw e) ->
  forall acc : FormatRecord,
  exists pre g post e',
    formats = (pre ++ g :: post)%list /\
    Forall (fun f => exists f', setDownloadURL api f d n = Ok f') pre /\
    setDownloadURL api g d n = Throw e' /\
    decipherEach api formats d n acc = Throw e'.
Proof.
  induction formats as [|f0 rest IH]; intros (f & e & Hin & Hf) acc; [destruct Hin|].
  cbn [decipherEach]. destruct (setDownloadURL api f0 d n) as [f0'|e0] eqn:H0.
  - destruct Hin as [<-|Hin]; [congruence|].
    destruct (IH (ex_intro _ f (ex_intro _ e (conj Hin Hf)))
                 (if truthyS (url f0')
                  then recordSet (default "" (url f0')) f0' acc else acc))
      as (pre & g & post & e' & -> & Hpre & Hg & Hrun).
    exists (f0 :: pre), g, post, e'. split; [reflexivity|].
    split; [constructor; [eauto|exact Hpre]|]. split; [exact Hg|exact Hrun].
  - exists [], f0, rest, e0. split; [reflexivity|]. split; [constructor|].
    split; [exact H0|reflexivity].
Qed.

(** C3 (as amended) -- a format on which [setDownloadURL] has a url to
    work on: its own [url], or, when it has none, the url its signature
    cipher ([signatureCipher], else [cipher]) deciphers to; and the platform
    decodes and parses that url.  When the n-transform script is absent, or
    the url has no [n] parameter, [setDownloadURL] succeeds and the format
    gets that url, its [n] parameter included, as it is; without a decipher
    script [setDownloadURL] returns at once and changes nothing.  When the
    script is run on the [n] parameter and throws, the exception is not
    caught: [setDownloadURL] throws it, and [decipherFormats] throws for
    every format list that holds the format, whatever the other formats are:
    the exception of the first format of the list on which [setDownloadURL]
    throws, which is this one when every format before it succeeds. *)
Theorem setDownloadURL_n_transform :
  forall (format : VideoFormat) (decipherScript : Script)
         (v decoded : string) (components : Url),
    (truthyS (url format) = true /\ url format = Some v) \/
    (truthyS (url format) = false /\
     exists c,
       (if truthyS (signatureCipher format) then signatureCipher format
        else cipher format) = Some c /\
       decipher api decipherScript c = Ok (Some v)) ->
    decodeURIComponent api v = Ok decoded ->
    newURL api decoded = Ok components ->
    (forall nTransformScript, setDownloadURL api format None nTransformScript = Ok format) /\
    setDownloadURL api format (Some decipherScript) None
      = Ok (withCipher None None (withUrl (Some v) format)) /\
    (forall script,
       truthyS (paramGet "n" (searchParams components)) = false ->
       setDownloadURL api format (Some decipherScript) (Some script)
         = Ok (withCipher None None (withUrl (Some v) format))) /\
    (forall (script : Script) (n : string) (e : JsError),
       paramGet "n" (searchParams components) = Some n -> n <> "" ->
       script n = Throw e ->
       setDownloadURL api format (Some decipherScript) (Some script) = Throw e /\
       forall before after,
         (exists pre g post e',
            (before ++ format :: after)%list = (pre ++ g :: post)%list /\
            Forall (fun f => exists f',
                      setDownloadURL api f (Some decipherScript) (Some script) = Ok f') pre /\
            setDownloadURL api g (Some decipherScript) (Some script) = Throw e' /\
            decipherFormats api (before ++ format :: after)
              (Ok (Some decipherScript, Some script)) = Throw e') /\
         (Forall (fun f => exists f',
                    setDownloadURL api f (Some decipherScript) (Some script) = Ok f') before ->
          decipherFormats api (before ++ format :: after)
            (Ok (Some decipherScript, Some script)) = Throw e)).
Proof.
  intros format d v decoded components Hformat Hdec Hurl.
  assert (Hset : forall script r,
            nTransform api script (Some v) = r ->
            setDownloadURL api format (Some d) script =
            rbind r (fun u' => Ok (withCipher None None (withUrl u' format)))).
  { intros script r <-. unfold setDownloadURL.
    destruct Hformat as [[Htruthy Hu]|[Hfalsy (c & Hc & Hd)]].
    - rewrite Htruthy, Hu. reflexivity.
    - rewrite Hfalsy. cbn [negb]. rewrite Hc, Hd. reflexivity. }
  split; [reflexivity|]. split; [|split].
  - rewrite (Hset None _ (nTransform_absent v components decoded Hdec Hurl)). reflexivity.
  - intros script Hn.
    rewrite (Hset (Some script) _
               (nTransform_no_n (Some script) v components decoded Hdec Hurl Hn)).
    reflexivity.
  - intros script n e Hn Hnne Hs.
    assert (Hthrow : setDownloadURL api format (Some d) (Some script) = Throw e).
    { rewrite (Hset (Some script) _
                 (nTransform_throws script v components decoded n e Hdec Hurl Hn Hnne Hs)).
      reflexivity. }
    split; [exact Hthrow|]. intros before after. split.
    + unfold decipherFormats. cbn [rbind].
      apply decipherEach_first_failure. exists format, e. split; [|exact Hthrow].
      apply in_or_app. right. now left.
    + intros Hbefore. unfold decipherFormats. cbn [rbind].
      apply decipherEach_throws; assumption.
Qed.

End WithApi.

(** *** A sample of the platform's URL functions, for urls without
    percent-escapes: the part before [?] and the [k=v] pairs after it. *)

Definition pairsOf (q : string) : list (string * string) :=
  map (fun kv => let '(k, v) := cutAt "="%char kv in (k, default EmptyString v))
      (List.filter (fun p => negb (String.eqb p EmptyString)) (splitOn "&"%char q)).

Definition sampleApi : UrlApi :=
  mkUrlApi
    (fun s => Ok s)
    (fun s =>
       let '(b, q) := cutAt "?"%char s in
       if String.prefix "http" b
       then Ok (mkUrl b (match q with Some q => pairsOf q | None => [] end))
       else Throw (TypeError "Invalid URL"))
    (fun u =>
       match searchParams u with
       | [] => base u
       | ps => base u +:+ "?" +:+ String.concat "&" (map (fun kv => fst kv +:+ "=" +:+ snd kv) ps)
       end)
    pairsOf.

(** A decipher script that reverses nothing and an n-transform script that
    raises an exception on every input. *)
Definition identityScript : Script := fun s => Ok s.
Definition failingScript : Script := fun _ => Throw (TypeError "a.split is not a function").
Definition upperN : Script := fun s => Ok ("N" +:+ s).

Definition plain18 : VideoFormat :=
  withMimeType (Some "video/mp4")
    (withUrl (Some "https://example.com/v18?itag=18") (bareFormat 18)).

Definition throttled140 : VideoFormat :=
  withMimeType (Some "audio/mp4")
    (withUrl (Some "https://example.com/a140?itag=140&n=abc") (bareFormat 140)).

Example upperN_rewrites_n :
  option_map url (match setDownloadURL sampleApi throttled140 (Some identityScript) (Some upperN) with
                  | Ok f => Some f
                  | Throw _ => None
                  end)
  = Some (Some "https://example.com/a140?itag=140&n=Nabc").
Proof. reflexivity. Qed.

(** The n-transform script throws on the [n] of itag 140: [setDownloadURL]
    throws instead of leaving [n] as it is, and [decipherFormats] throws
    for the whole list, the untouched itag 18 included. *)
Lemma n_transform_fault_fails_all_formats :
  setDownloadURL sampleApi throttled140 (Some identityScript) (Some failingScript)
    = Throw (TypeError "a.split is not a function") /\
  setDownloadURL sampleApi plain18 (Some identityScript) (Some failingScript) = Ok plain18 /\
  decipherFormats sampleApi [plain18; throttled140]
    (Ok (Some identityScript, Some failingScript))
    = Throw (TypeError "a.split is not a function").
Proof. repeat split. Qed.

(** A format that comes with a signature cipher instead of a url. *)
Definition ciphered251 : VideoFormat :=
  withCipher (Some "s=abc&url=https://example.com/c251?n=xyz") None
    (withMimeType (Some "audio/webm") (bareFormat 251)).

Example ciphered_format_n_transform :
  decipher sampleApi identityScript "s=abc&url=https://example.com/c251?n=xyz"
    = Ok (Some "https://example.com/c251?n=xyz&sig=abc") /\
  option_map url (match setDownloadURL sampleApi ciphered251 (Some identityScript) None with
                  | Ok f => Some f
                  | Throw _ => None
                  end)
    = Some (Some "https://example.com/c251?n=xyz&sig=abc") /\
  setDownloadURL sampleApi ciphered251 (Some identityScript) (Some failingScript)
    = Throw (TypeError "a.split is not a function") /\
  decipherFormats sampleApi [ciphered251; plain18]
    (Ok (Some identityScript, Some failingScript))
    = Throw (TypeError "a.split is not a function").
Proof. repeat split. Qed.

Lemma setDownloadURL_n_transform_witness :
  ((truthyS (url ciphered251) = true /\
    url ciphered251 = Some "https://example.com/c251?n=xyz&sig=abc") \/
   (truthyS (url ciphered251) = false /\
    exists c,
      (if truthyS (signatureCipher ciphered251) then signatureCipher ciphered251
       else cipher ciphered251) = Some c /\
      decipher sampleApi identityScript c
      = Ok (Some "https://example.com/c251?n=xyz&sig=abc"))) /\
  (forall nTransformScript,
     setDownloadURL sampleApi ciphered251 None nTransformScript = Ok ciphered251) /\
  setDownloadURL sampleApi ciphered251 (Some identityScript) None
    = Ok (withCipher None None
            (withUrl (Some "https://example.com/c251?n=xyz&sig=abc") ciphered251)) /\
  (forall script,
     truthyS (paramGet "n" [("n", "xyz"); ("sig", "abc")]) = false ->
     setDownloadURL sampleApi ciphered251 (Some identityScript) (Some script)
       = Ok (withCipher None None
               (withUrl (Some "https://example.com/c251?n=xyz&sig=abc") ciphered251))) /\
  (forall (script : Script) (n : string) (e : JsError),
     paramGet "n" [("n", "xyz"); ("sig", "abc")] = Some n -> n <> "" ->
     script n = Throw e ->
     setDownloadURL sampleApi ciphered251 (Some identityScript) (Some script) = Throw e /\
     forall before after,
       (exists pre g post e',
          (before ++ ciphered251 :: after)%list = (pre ++ g :: post)%list /\
          Forall (fun f => exists f',
                    setDownloadURL sampleApi f (Some identityScript) (Some script) = Ok f')
                 pre /\
          setDownloadURL sampleApi g (Some identityScript) (Some script) = Throw e' /\
          decipherFormats sampleApi (before ++ ciphered251 :: after)
            (Ok (Some identityScript, Some script)) = Throw e') /\
       (Forall (fun f => exists f',
                  setDownloadURL sampleApi f (Some identityScript) (Some script) = Ok f')
               before ->
        decipherFormats sampleApi (before ++ ciphered251 :: after)
          (Ok (Some identityScript, Some script)) = Throw e)).
Proof.
  assert ((truthyS (url ciphered251) = true /\
           url ciphered251 = Some "https://example.com/c251?n=xyz&sig=abc") \/
          (truthyS (url ciphered251) = false /\
           exists c,
             (if truthyS (signatureCipher ciphered251) then signatureCipher ciphered251
              else cipher ciphered251) = Some c /\
             decipher sampleApi identityScript c
             = Ok (Some "https://example.com/c251?n=xyz&sig=abc"))) as Hformat.
  { right. split; [reflexivity|]. eexists. split; reflexivity. }
  split; [exact Hformat|].
  apply (setDownloadURL_n_transform sampleApi ciphered251 identityScript
           "https://example.com/c251?n=xyz&sig=abc"
           "https://example.com/c251?n=xyz&sig=abc"
           (mkUrl "https://example.com/c251" [("n", "xyz"); ("sig", "abc")]) Hformat);
    reflexivity.
Defined.

End SigFacts.

Module InfoFacts.
Import FormatUtils Utils Info.

(** *** [retryFunc] *)

(** A function whose [n]-th call has the outcome [o n] and does nothing
    else that is observed. *)
Definition attempting {T} (o : nat -> result T) : nat -> M T :=
  fun n => lift (o n).

(** The events of [retries] retries after the call numbered [currentTry]:
    calls and waits alternate, and the wait before call [k] is
    [min (k * inc) max]. *)
Fixpoint schedule (inc max : Z) (retries : nat) (currentTry : Z) : list Event :=
  match retries with
  | O => [Attempt (Z.to_nat currentTry)]
  | S retries =>
      Attempt (Z.to_nat currentTry)
        :: Wait (Z.min ((currentTry + 1) * inc) max)
        :: schedule inc max retries (currentTry + 1)
  end.

(** Call [n] ends the loop: it succeeds, or fails with a status code below
    500, or is the call after the last retry allowed. *)
Definition final {T} (maxRetries : Z) (o : nat -> result T) (n : nat) : bool :=
  match o n with
  | Ok _ => true
  | Throw err => statusBelow500 err || (maxRetries <=? Z.of_nat n)
  end.

(** What [retryFunc] hands back for the outcome of the final call. *)
Definition handBack {T} (r : result T) : result (option T) :=
  match r with
  | Ok v => Ok (Some v)
  | Throw e => Throw e
  end.

Lemma retryLoop_pure {T} (o : nat -> result T) (maxRetries inc max : Z) :
  forall (fuel : nat) (c : nat),
    Z.of_nat c <= maxRetries ->
    (Z.to_nat (maxRetries - Z.of_nat c) < fuel)%nat ->
    exists j : nat,
      Z.of_nat (c + j) <= maxRetries /\
      retryLoop (attempting o) maxRetries inc max fuel (Z.of_nat c)
        = (schedule inc max j (Z.of_nat c), handBack (o (c + j)%nat)) /\
      final maxRetries o (c + j) = true /\
      (forall i, (i < j)%nat -> final maxRetries o (c + i) = false).
Proof.
  induction fuel as [|fuel IH]; intros c Hc Hfuel; [lia|].
  cbn [retryLoop].
  assert (Hle : (Z.of_nat c <=? maxRetries) = true) by now apply Z.leb_le.
  rewrite Hle, Nat2Z.id.
  unfold attempting at 1, bind, emit, try, lift, ret, throw. cbn [fst snd app].
  destruct (o c) as [v|err] eqn:Eo.
  - exists 0%nat. rewrite Nat.add_0_r. cbn [schedule]. rewrite Nat2Z.id, Eo.
    repeat split; try lia.
    unfold final. now rewrite Eo.
  - destruct (statusBelow500 err || (maxRetries <=? Z.of_nat c)) eqn:Estop.
    + exists 0%nat. rewrite Nat.add_0_r. cbn [schedule]. rewrite Nat2Z.id, Eo.
      repeat split; try lia.
      unfold final. now rewrite Eo.
    + apply orb_false_iff in Estop as [Est Elt]. apply Z.leb_gt in Elt.
      replace (Z.of_nat c + 1) with (Z.of_nat (S c)) by lia.
      destruct (IH (S c)) as (j & Hj & Hrun & Hfin & Hbefore); [lia|lia|].
      exists (S j).
      replace (c + S j)%nat with (S c + j)%nat by lia.
      split; [exact Hj|]. split; [|split; [exact Hfin|]].
      * cbn [fst snd app]. rewrite Hrun. cbn [fst snd app schedule].
        rewrite Nat2Z.id.
        replace (Z.of_nat c + 1) with (Z.of_nat (S c)) by lia.
        reflexivity.
      * intros i Hi. destruct i as [|i].
        -- rewrite Nat.add_0_r. unfold final. rewrite Eo, Est. simpl.
           apply Z.leb_gt. lia.
        -- replace (c + S i)%nat with (S c + i)%nat by lia. apply Hbefore. lia.
Qed.

(** The loop gets enough fuel: more changes nothing. *)
Lemma retryLoop_fuel {T} (func : nat -> M T) (maxRetries inc max : Z) :
  forall (fuel fuel' : nat) (c : Z),
    0 <= c ->
    (Z.to_nat (maxRetries + 1 - c) <= fuel)%nat ->
    (Z.to_nat (maxRetries + 1 - c) <= fuel')%nat ->
    retryLoop func maxRetries inc max fuel c = retryLoop func maxRetries inc max fuel' c.
Proof.
  induction fuel as [|fuel IH]; intros fuel' c Hc H1 H2.
  - destruct fuel' as [|fuel']; [reflexivity|]. cbn [retryLoop].
    destruct (c <=? maxRetries) eqn:E; [apply Z.leb_le in E; lia|reflexivity].
  - cbn [retryLoop]. destruct (c <=? maxRetries) eqn:E.
    + apply Z.leb_le in E. destruct fuel' as [|fuel']; [lia|]. cbn [retryLoop].
      rewrite (proj2 (Z.leb_le _ _) E).
      unfold bind. cbn [fst snd emit app].
      destruct (snd (try (func (Z.to_nat c)))) as [[v|err]|e]; try reflexivity.
      destruct (statusBelow500 err || (maxRetries <=? c)); [reflexivity|].
      cbn [fst snd]. rewrite (IH fuel' (c + 1)) by lia. reflexivity.
    + destruct fuel'; cbn [retryLoop]; rewrite ?E; reflexivity.
Qed.

(** With a negative [maxRetries] the loop is not entered: no call is made
    and [result] comes back [undefined]. *)
Lemma retryFunc_negative {T} (func : nat -> M T) (options : RetryOptions) :
  effectiveMaxRetries options < 0 -> retryFunc func options = ret None.
Proof.
  intros Hneg. unfold retryFunc. destruct (effectiveBackoff options) as [inc max].
  destruct (Z.to_nat _); cbn [retryLoop];
    destruct (0 <=? effectiveMaxRetries options) eqn:E;
    try reflexivity; apply Z.leb_le in E; lia.
Qed.

Lemma schedule_waits_capped inc max retries c ms :
  In (Wait ms) (schedule inc max retries c) -> ms <= max.
Proof.
  revert c. induction retries as [|retries IH]; intros c; cbn [schedule In].
  - intros [H|[]]. discriminate.
  - intros [H|[H|H]]; [discriminate| |now apply IH in H].
    injection H as <-. apply Z.le_min_r.
Qed.

Lemma schedule_events inc max retries c ev :
  In ev (schedule inc max retries c) -> (exists n, ev = Attempt n) \/ (exists ms, ev = Wait ms).
Proof.
  revert c. induction retries as [|retries IH]; intros c; cbn [schedule In].
  - intros [<-|[]]. left. eauto.
  - intros [<-|[<-|H]]; [left; eauto|right; eauto|now apply IH in H].
Qed.

(** [retryFunc] on a function of pure outcomes: the events are a schedule
    of some number of retries, the outcome is that of the last call, every
    earlier call was not final and the last one was. *)
Lemma retryFunc_run {T} (o : nat -> result T) (options : RetryOptions) :
  0 <= effectiveMaxRetries options ->
  exists retries : nat,
    Z.of_nat retries <= effectiveMaxRetries options /\
    retryFunc (attempting o) options
      = (schedule (fst (effectiveBackoff options)) (snd (effectiveBackoff options)) retries 0,
         handBack (o retries)) /\
    final (effectiveMaxRetries options) o retries = true /\
    (forall i, (i < retries)%nat -> final (effectiveMaxRetries options) o i = false).
Proof.
  intros Hmax.
  unfold retryFunc. destruct (effectiveBackoff options) as [inc max] eqn:Eb.
  cbn [fst snd].
  destruct (retryLoop_pure o (effectiveMaxRetries options) inc max
              (Z.to_nat (effectiveMaxRetries options + 1)) 0)
    as (j & Hj & Hrun & Hfin & Hbefore); [simpl; lia|simpl; lia|].
  cbn [Nat.add Z.of_nat] in *.
  exists j. repeat split; assumption.
Qed.

(** The events of a schedule one by one: call [k] is followed by the wait
    before call [k + 1]. *)
Lemma schedule_nth inc max retries :
  forall c k, 0 <= c ->
    ((k < retries)%nat ->
     nth_error (schedule inc max retries c) (2 * k)
       = Some (Attempt (Z.to_nat c + k)) /\
     nth_error (schedule inc max retries c) (2 * k + 1)
       = Some (Wait (Z.min ((c + Z.of_nat k + 1) * inc) max))) /\
    (k = retries ->
     nth_error (schedule inc max retries c) (2 * k) = Some (Attempt (Z.to_nat c + k))).
Proof.
  induction retries as [|retries IH]; intros c k Hc; cbn [schedule].
  - split; [lia|]. intros ->. cbn. now rewrite Nat.add_0_r.
  - destruct k as [|k].
    + split; [|discriminate]. intros _. cbn. rewrite Nat.add_0_r, Z.add_0_r. now split.
    + replace (2 * S k)%nat with (S (S (2 * k))) by lia.
      replace (S (S (2 * k)) + 1)%nat with (S (S (2 * k + 1))) by lia.
      cbn [nth_error]. destruct (IH (c + 1) k ltac:(lia)) as [IH1 IH2].
      replace (Z.to_nat (c + 1) + k)%nat with (Z.to_nat c + S k)%nat in * by lia.
      replace (c + 1 + Z.of_nat k + 1) with (c + Z.of_nat (S k) + 1) in * by lia.
      split; [intros Hk; apply IH1; lia|intros Hk; apply IH2; lia].
Qed.

(** C4 (as amended) -- the number of retries [retryFunc] allows is the
    [maxRetries] of the options when that is a number other than 0, and 3
    when it is absent or 0.  For such a number that is not negative,
    [retryFunc] calls the function and, when a call fails, rethrows at once
    an error whose status code is below 500; every other error (a status
    code of 500 or more, or no status code at all) is retried while retries
    remain, so that at most that number of retries and one call more than
    that are made; before retry [k] (the call numbered [k], from 1) it waits
    [min (k * inc) max], a delay that grows linearly with [k] and never
    exceeds [max].  ([inc] and [max] are 500 and 5000 unless the options say
    otherwise.) *)
Theorem retryFunc_policy :
  forall (T : Type) (o : nat -> result T) (options : RetryOptions),
    0 <= effectiveMaxRetries options ->
    effectiveMaxRetries options
    = match maxRetries options with
      | Some m => if m =? 0 then 3 else m
      | None => 3
      end /\
    exists retries : nat,
      Z.of_nat retries <= effectiveMaxRetries options /\
      retryFunc (attempting o) options
        = (schedule (fst (effectiveBackoff options)) (snd (effectiveBackoff options)) retries 0,
           handBack (o retries)) /\
      (forall k, (k < retries)%nat ->
         nth_error (fst (retryFunc (attempting o) options)) (2 * k) = Some (Attempt k) /\
         nth_error (fst (retryFunc (attempting o) options)) (2 * k + 1)
         = Some (Wait (Z.min ((Z.of_nat k + 1) * fst (effectiveBackoff options))
                             (snd (effectiveBackoff options))))) /\
      nth_error (fst (retryFunc (attempting o) options)) (2 * retries)
        = Some (Attempt retries) /\
      snd (retryFunc (attempting o) options)
        = match o retries with
          | Ok v => Ok (Some v)
          | Throw e => Throw e
          end /\
      (forall i, (i < retries)%nat ->
         exists err, o i = Throw err /\ statusBelow500 err = false) /\
      match o retries with
      | Ok _ => True
      | Throw err =>
          statusBelow500 err = true \/ Z.of_nat retries = effectiveMaxRetries options
      end /\
      (forall err, o 0%nat = Throw err -> statusBelow500 err = true ->
         retryFunc (attempting o) options = ([Attempt 0], Throw err)) /\
      (forall ms,
         In (Wait ms) (schedule (fst (effectiveBackoff options))
                         (snd (effectiveBackoff options)) retries 0) ->
         ms <= snd (effectiveBackoff options)).
Proof.
  intros T o options Hmax. split.
  { unfold effectiveMaxRetries, truthyN, orZero.
    destruct (maxRetries options) as [m|]; [|reflexivity].
    destruct (m =? 0); reflexivity. }
  destruct (retryFunc_run o options Hmax) as (j & Hj & Hrun & Hfin & Hbefore).
  exists j. split; [exact Hj|]. split; [exact Hrun|].
  assert (Hretried : forall i, (i < j)%nat ->
            exists err, o i = Throw err /\ statusBelow500 err = false).
  { intros i Hi. specialize (Hbefore i Hi). unfold final in Hbefore.
    destruct (o i) as [v|err]; [discriminate|].
    apply orb_false_iff in Hbefore as [Hs _]. eauto. }
  rewrite Hrun. cbn [fst snd].
  split.
  { intros k Hk.
    destruct (schedule_nth (fst (effectiveBackoff options)) (snd (effectiveBackoff options))
                j 0 k ltac:(lia)) as [H _].
    cbn [Z.to_nat Nat.add Z.add] in H. exact (H Hk). }
  split.
  { destruct (schedule_nth (fst (effectiveBackoff options)) (snd (effectiveBackoff options))
                j 0 j ltac:(lia)) as [_ H].
    exact (H eq_refl). }
  split; [reflexivity|]. split; [exact Hretried|]. split; [|split].
  - unfold final in Hfin. destruct (o j) as [v|err]; [exact I|].
    apply orb_true_iff in Hfin as [Hs|Hn]; [now left|right].
    apply Z.leb_le in Hn. lia.
  - intros err Ho Hs.
    destruct j as [|j].
    + cbn [schedule]. rewrite Ho. reflexivity.
    + destruct (Hretried 0%nat) as (err' & Ho' & Hs'); [lia|]. congruence.
  - intros ms. apply schedule_waits_capped.
Qed.

(** *** Sample runs of [retryFunc] *)

(** A function that fails every time with an error that carries no status
    code, as a parse failure of the watch page does. *)
Definition alwaysParseError : nat -> result unit :=
  fun _ => Throw (Error "Error when parsing watch.html, maybe YouTube made a change.").

(** A function that fails twice with status 503 and then succeeds. *)
Definition twice503 : nat -> result unit :=
  fun n => if (n <? 2)%nat then Throw (StatusError 503) else Ok tt.

Definition defaultRetry : RetryOptions := mkRetryOptions None None.

(** The error has no status code, so it is no 5xx failure, and still the
    call is retried three times; and the waits are 500, 1000 and 1500
    milliseconds, the same step each time, where a doubling delay would
    give 500, 1000 and 2000. *)
Lemma retryFunc_retries_without_status_linear_waits :
  statusCode (Error "Error when parsing watch.html, maybe YouTube made a change.") = None /\
  retryFunc (attempting alwaysParseError) defaultRetry
    = ([Attempt 0; Wait 500; Attempt 1; Wait 1000; Attempt 2; Wait 1500; Attempt 3],
       Throw (Error "Error when parsing watch.html, maybe YouTube made a change.")).
Proof. split; reflexivity. Qed.

Lemma retryFunc_policy_witness :
  effectiveMaxRetries defaultRetry
  = match maxRetries defaultRetry with
    | Some m => if m =? 0 then 3 else m
    | None => 3
    end /\
  exists retries : nat,
    Z.of_nat retries <= effectiveMaxRetries defaultRetry /\
    retryFunc (attempting twice503) defaultRetry
      = (schedule (fst (effectiveBackoff defaultRetry)) (snd (effectiveBackoff defaultRetry))
           retries 0,
         handBack (twice503 retries)) /\
    (forall k, (k < retries)%nat ->
       nth_error (fst (retryFunc (attempting twice503) defaultRetry)) (2 * k)
       = Some (Attempt k) /\
       nth_error (fst (retryFunc (attempting twice503) defaultRetry)) (2 * k + 1)
       = Some (Wait (Z.min ((Z.of_nat k + 1) * fst (effectiveBackoff defaultRetry))
                           (snd (effectiveBackoff defaultRetry))))) /\
    nth_error (fst (retryFunc (attempting twice503) defaultRetry)) (2 * retries)
      = Some (Attempt retries) /\
    snd (retryFunc (attempting twice503) defaultRetry)
      = match twice503 retries with
        | Ok v => Ok (Some v)
        | Throw e => Throw e
        end /\
    (forall i, (i < retries)%nat ->
       exists err, twice503 i = Throw err /\ statusBelow500 err = false) /\
    match twice503 retries with
    | Ok _ => True
    | Throw err =>
        statusBelow500 err = true \/ Z.of_nat retries = effectiveMaxRetries defaultRetry
    end /\
    (forall err, twice503 0%nat = Throw err -> statusBelow500 err = true ->
       retryFunc (attempting twice503) defaultRetry = ([Attempt 0], Throw err)) /\
    (forall ms,
       In (Wait ms) (schedule (fst (effectiveBackoff defaultRetry))
                       (snd (effectiveBackoff defaultRetry)) retries 0) ->
       ms <= snd (effectiveBackoff defaultRetry)).
Proof.
  apply (retryFunc_policy unit twice503 defaultRetry). vm_compute. discriminate.
Defined.

Example twice503_run :
  retryFunc (attempting twice503) defaultRetry
    = ([Attempt 0; Wait 500; Attempt 1; Wait 1000; Attempt 2], Ok (Some tt)).
Proof. reflexivity. Qed.

(** A [maxRetries] of 0 is falsy and replaced by 3: the function is
    called four times, not once. *)
Example retryFunc_zero_maxRetries :
  effectiveMaxRetries (mkRetryOptions (Some 0) None) = 3 /\
  retryFunc (attempting alwaysParseError) (mkRetryOptions (Some 0) None)
    = ([Attempt 0; Wait 500; Attempt 1; Wait 1000; Attempt 2; Wait 1500; Attempt 3],
       Throw (Error "Error when parsing watch.html, maybe YouTube made a change.")).
Proof. split; reflexivity. Qed.

(** One retry allowed: two calls. *)
Example retryFunc_one_retry :
  retryFunc (attempting alwaysParseError) (mkRetryOptions (Some 1) None)
    = ([Attempt 0; Wait 500; Attempt 1],
       Throw (Error "Error when parsing watch.html, maybe YouTube made a change.")).
Proof. reflexivity. Qed.

(** *** The playability check *)

(** The statuses that mean the video cannot be played. *)
Definition unplayable (st : string) : Prop :=
  st = "ERROR" \/ st = "LOGIN_REQUIRED" \/ st = "LIVE_STREAM_OFFLINE" \/ st = "UNPLAYABLE".

Lemma orString_nonempty s d : d <> "" -> orString s d <> "".
Proof.
  intros Hd. unfold orString. destruct s as [s|]; [|exact Hd].
  destruct (String.eqb s "") eqn:E; [exact Hd|]. now apply String.eqb_neq in E.
Qed.

Lemma playError_unplayable pr ps st :
  playabilityStatus pr = Some ps -> status ps = Some st -> unplayable st ->
  exists msg, playError (Some pr) = Some (UnrecoverableError msg) /\ msg <> "".
Proof.
  intros Hps Hst Hun. unfold playError. rewrite Hps, Hst.
  destruct Hun as [-> | [-> | [-> | ->]]]; cbn; eexists; (split; [reflexivity|]);
    repeat apply orString_nonempty; discriminate.
Qed.

Lemma bind_throw {A B} (tr : list Event) (e : JsError) (k : A -> M B) :
  bind (tr, Throw e) k = (tr, Throw e).
Proof. reflexivity. Qed.

Lemma bind_ok {A B} (tr : list Event) (a : A) (k : A -> M B) :
  bind (tr, Ok a) k = ((tr ++ fst (k a))%list, snd (k a)).
Proof. reflexivity. Qed.

(** C5 -- whenever the watch page response that [getBasicInfo] obtains
    carries the playability status [ERROR], [LOGIN_REQUIRED],
    [LIVE_STREAM_OFFLINE] or [UNPLAYABLE], [getBasicInfo] and [getInfo]
    throw an [UnrecoverableError] with a non-empty message, and the
    resolution stops there: its events are those of fetching the watch page
    and nothing else, so no request to the player endpoint is made for any
    device client, and the last event is the call that obtained the page,
    with no further call after the error. *)
Theorem playability_preflight :
  forall (w : World) (id : string) (options : RequestOptions)
         (tr : list Event) (info : VideoInfo)
         (pr : PlayerResponse) (ps : PlayabilityStatus) (st : string),
    retryFunc (getWatchHTMLPage w) (requestOptions options) = (tr, Ok (Some info)) ->
    player_response info = Some pr ->
    playabilityStatus pr = Some ps ->
    status ps = Some st ->
    unplayable st ->
    exists msg : string,
      msg <> "" /\
      getBasicInfo w options = (tr, Throw (UnrecoverableError msg)) /\
      getInfo w id options = (tr, Throw (UnrecoverableError msg)) /\
      (forall client, ~ In (PlayerApi client) tr) /\
      exists lastCall : nat,
        watchPage w lastCall = Ok info /\
        tr = schedule (fst (effectiveBackoff (requestOptions options)))
               (snd (effectiveBackoff (requestOptions options))) lastCall 0.
Proof.
  intros w id options tr info pr ps st Hpage Hpr Hps Hst Hun.
  destruct (playError_unplayable pr ps st Hps Hst Hun) as (msg & Herr & Hmsg).
  exists msg. split; [exact Hmsg|].
  assert (Hbasic : forall playerClients,
            getBasicInfo w (mkRequestOptions playerClients (requestOptions options))
            = (tr, Throw (UnrecoverableError msg))).
  { intros pcs. unfold getBasicInfo. cbn [requestOptions]. rewrite Hpage, bind_ok.
    rewrite Hpr, Herr. cbn [throw fst snd]. now rewrite app_nil_r. }
  split; [destruct options as [pcs ro]; apply Hbasic|].
  split; [unfold getInfo; rewrite Hbasic; apply bind_throw|].
  destruct (Z_lt_le_dec (effectiveMaxRetries (requestOptions options)) 0) as [Hneg|Hpos].
  { rewrite retryFunc_negative in Hpage by exact Hneg. discriminate. }
  destruct (retryFunc_run (watchPage w) (requestOptions options) Hpos)
    as (j & _ & Hrun & _).
  change (attempting (watchPage w)) with (getWatchHTMLPage w) in Hrun.
  rewrite Hpage in Hrun. injection Hrun as Htr Hout.
  split.
  - intros client Hin. rewrite Htr in Hin.
    apply schedule_events in Hin as [[n Hn]|[ms Hms]]; discriminate.
  - exists j. split; [|exact Htr].
    destruct (watchPage w j); cbn in Hout; congruence.
Qed.

(** *** Sample resolutions *)

Definition okStatus : option PlayabilityStatus :=
  Some (mkPlayability (Some "OK") None None).

(** The watch page response: playable, with the one format itag 18. *)
Definition webResponse : PlayerResponse :=
  mkPlayerResponse okStatus (Some (Some "dQw4w9WgXcQ"))
    (Some (mkStreamingData (Some [SigFacts.plain18]) None None None)).

(** A device response that is valid for the video but lists no format. *)
Definition emptyDeviceResponse : PlayerResponse :=
  mkPlayerResponse okStatus (Some (Some "dQw4w9WgXcQ")) None.

(** A device response with the one format itag 140. *)
Definition audioDeviceResponse : PlayerResponse :=
  mkPlayerResponse okStatus (Some (Some "dQw4w9WgXcQ"))
    (Some (mkStreamingData None (Some [SigFacts.throttled140]) None None)).

Definition watchInfo (response : PlayerResponse) : VideoInfo :=
  mkVideoInfo (Some response) (Some "/s/player/abc/base.js") None.

(** [new URL(s, BASE_URL).toString()] for a path [s]. *)
Definition onYouTube (s : string) : result string :=
  Ok ("https://www.youtube.com" +:+ s).

(** A world in which the watch page is obtained at the first call and
    carries [response], its metadata is read without an exception, the
    player endpoint answers [endpoint], the scripts extracted from the
    player are [scripts], and the promises settle in the order of their
    array. *)
Definition sampleWorld (response : PlayerResponse)
    (endpoint : PlayerClient -> result PlayerResponse)
    (scripts : option Sig.Script * option Sig.Script) : World :=
  mkWorld SigFacts.sampleApi (fun _ => Ok (watchInfo response)) (fun _ => Ok tt)
    (Ok None) (Ok None) onYouTube (fun _ => Ok tt) endpoint (Ok scripts)
    (fun _ => Ok []) (fun _ => Ok EmptyString) [].

Definition defaultOptions : RequestOptions := mkRequestOptions None defaultRetry.

Definition withWeb : RequestOptions :=
  mkRequestOptions (Some [WEB_EMBEDDED; IOS; WEB]) defaultRetry.

(** Every device request is refused with status 403. *)
Definition refused : PlayerClient -> result PlayerResponse :=
  fun _ => Throw (StatusError 403).

(** The embedded client answers with no format, the others with itag 140. *)
Definition embeddedEmpty : PlayerClient -> result PlayerResponse :=
  fun client =>
    match client with
    | WEB_EMBEDDED => Ok emptyDeviceResponse
    | _ => Ok audioDeviceResponse
    end.


(** With [WEB] enabled and every device request refused the watch page
    formats are used. *)
Example getInfo_web_fallback :
  getInfo (sampleWorld webResponse refused (None, None)) "dQw4w9WgXcQ" withWeb
  = ([Attempt 0;
      Concurrently [[PlayerScript; PlayerApi WEB_EMBEDDED]; [PlayerApi IOS]];
      Concurrently [[PlayerScript]]],
     Ok (mkVideoInfo (Some webResponse)
           (Some "https://www.youtube.com/s/player/abc/base.js")
           (Some [SigFacts.plain18]))).
Proof. reflexivity. Qed.

(** The watch page says [LOGIN_REQUIRED]. *)
Definition loginRequired : PlayerResponse :=
  mkPlayerResponse
    (Some (mkPlayability (Some "LOGIN_REQUIRED") (Some "Sign in to confirm your age") None))
    (Some (Some "dQw4w9WgXcQ")) None.

Example getInfo_login_required :
  getInfo (sampleWorld loginRequired embeddedEmpty (None, None)) "dQw4w9WgXcQ" defaultOptions
  = ([Attempt 0], Throw (UnrecoverableError "Sign in to confirm your age")).
Proof. reflexivity. Qed.

Lemma playability_preflight_witness :
  exists msg : string,
    msg <> "" /\
    getBasicInfo (sampleWorld loginRequired embeddedEmpty (None, None)) defaultOptions
      = ([Attempt 0], Throw (UnrecoverableError msg)) /\
    getInfo (sampleWorld loginRequired embeddedEmpty (None, None)) "dQw4w9WgXcQ" defaultOptions
      = ([Attempt 0], Throw (UnrecoverableError msg)) /\
    (forall client, ~ In (PlayerApi client) [Attempt 0]) /\
    exists lastCall : nat,
      watchPage (sampleWorld loginRequired embeddedEmpty (None, None)) lastCall
        = Ok (watchInfo loginRequired) /\
      [Attempt 0] = schedule (fst (effectiveBackoff (requestOptions defaultOptions)))
                      (snd (effectiveBackoff (requestOptions defaultOptions))) lastCall 0.
Proof.
  apply (playability_preflight (sampleWorld loginRequired embeddedEmpty (None, None))
           "dQw4w9WgXcQ" defaultOptions [Attempt 0] (watchInfo loginRequired) loginRequired
           (mkPlayability (Some "LOGIN_REQUIRED") (Some "Sign in to confirm your age") None)
           "LOGIN_REQUIRED");
    try reflexivity.
  right. left. reflexivity.
Defined.

(** The n-transform script throws on the [n] of itag 140, the format of
    the first device response: the whole resolution fails with the
    script's exception, although the watch page format itag 18 has no [n]
    parameter at all. *)
Lemma n_transform_fault_fails_getInfo :
  snd (getInfo (sampleWorld webResponse (fun _ => Ok audioDeviceResponse)
                  (Some SigFacts.identityScript, Some SigFacts.failingScript))
         "dQw4w9WgXcQ" withWeb)
    = Throw (TypeError "a.split is not a function") /\
  snd (getInfo (sampleWorld webResponse (fun _ => Ok audioDeviceResponse)
                  (Some SigFacts.identityScript, None))
         "dQw4w9WgXcQ" withWeb)
    = Ok (mkVideoInfo (Some webResponse)
            (Some "https://www.youtube.com/s/player/abc/base.js")
            (Some [SigFacts.throttled140])).
Proof. split; reflexivity. Qed.

(** *** [getDashManifest] *)





(** An HLS playlist with two stream lines. *)
Definition samplePlaylist : string :=
  String.concat (String (ascii_of_nat 10) EmptyString)
    [ "#EXTM3U";
      "#EXT-X-STREAM-INF:BANDWIDTH=200000";
      "https://manifest.googlevideo.com/api/manifest/hls_playlist/id/1/itag/91/source/yt";
      "#EXT-X-STREAM-INF:BANDWIDTH=800000";
      "https://manifest.googlevideo.com/api/manifest/hls_playlist/id/1/itag/93/source/yt" ].

(** [getM3U8] stores each format under its own stream url and keeps one
    format per stream line. *)
Example getM3U8_keeps_every_stream :
  map (fun kv => itag (snd kv)) (m3u8Formats samplePlaylist) = [91; 93].
Proof. reflexivity. Qed.


End InfoFacts.

(* ===================================================================== *)
(** ** More of the JavaScript string methods the code calls *)
(* ===================================================================== *)

Module JsText.

(** [s.trim()], white space being the ASCII part of the class as in
    [parseInt]. *)
Fixpoint trimEnd (s : string) : string :=
  match s with
  | EmptyString => EmptyString
  | String c r =>
      let r' := trimEnd r in
      if isWhiteSpace c && String.eqb r' "" then EmptyString else String c r'
  end.

Definition trim (s : string) : string := trimEnd (trimStart s).

(** [s.substring(0, n)], [s.slice(0, n)] for [n] from 0 *)
Fixpoint take (n : nat) (s : string) : string :=
  match n, s with
  | S n, String c r => String c (take n r)
  | _, _ => EmptyString
  end.

(** [s.indexOf(sub)], [None] for [-1] *)
Fixpoint indexOf (s sub : string) : option nat :=
  if String.prefix sub s then Some 0%nat
  else match s with
       | EmptyString => None
       | String _ r => option_map S (indexOf r sub)
       end.

(** Every character of [s] satisfies [p]. *)
Fixpoint allChars (p : ascii -> bool) (s : string) : bool :=
  match s with
  | EmptyString => true
  | String c r => p c && allChars p r
  end.

(** The one-character string holding a double quote. *)
Definition dq : string := String (ascii_of_nat 34) EmptyString.

End JsText.

Module JsTextFacts.
Import JsText.

Lemma trimStart_length s :
  (String.length (trimStart s) <= String.length s)%nat /\
  (String.length (trimStart s) = String.length s -> trimStart s = s).
Proof.
  induction s as [|c r [IH1 IH2]]; cbn [trimStart]; [split; [lia|reflexivity]|].
  destruct (isWhiteSpace c); cbn [String.length]; split; try reflexivity; lia.
Qed.

Lemma trimEnd_length s :
  (String.length (trimEnd s) <= String.length s)%nat /\
  (String.length (trimEnd s) = String.length s -> trimEnd s = s).
Proof.
  induction s as [|c r [IH1 IH2]]; cbn [trimEnd]; [split; [lia|reflexivity]|].
  destruct (isWhiteSpace c && String.eqb (trimEnd r) ""); cbn [String.length].
  - split; [lia|discriminate].
  - split; [lia|]. intros Hl. f_equal. apply IH2. lia.
Qed.

Lemma trim_length s :
  (String.length (trim s) <= String.length s)%nat /\
  (String.length (trim s) = String.length s -> trim s = s).
Proof.
  unfold trim. destruct (trimStart_length s) as [S1 S2].
  destruct (trimEnd_length (trimStart s)) as [E1 E2]. split; [lia|].
  intros Hl. rewrite E2 by lia. apply S2. lia.
Qed.

Lemma take_length n s : (String.length (take n s) <= n)%nat.
Proof.
  revert s. induction n as [|n IH]; intros [|c r]; cbn; try lia.
  specialize (IH r). lia.
Qed.

Lemma append_cons c r s : String c r +:+ s = String c (r +:+ s).
Proof. reflexivity. Qed.

Lemma append_nil_l s : "" +:+ s = s.
Proof. reflexivity. Qed.

Lemma append_nil_r s : s +:+ "" = s.
Proof. induction s as [|c r IH]; [reflexivity|]. now rewrite append_cons, IH. Qed.

Lemma append_assoc a b c : (a +:+ b) +:+ c = a +:+ (b +:+ c).
Proof. induction a as [|x a IH]; [reflexivity|]. now rewrite !append_cons, IH. Qed.

Lemma append_length a b : String.length (a +:+ b) = (String.length a + String.length b)%nat.
Proof.
  induction a as [|x a IH]; [reflexivity|]. rewrite append_cons. cbn [String.length].
  now rewrite IH.
Qed.

Lemma take_skip n s : take n s +:+ skip n s = s.
Proof.
  revert s. induction n as [|n IH]; intros [|c r]; try reflexivity.
  cbn [take skip]. now rewrite append_cons, IH.
Qed.

Lemma take_app a b : take (String.length a) (a +:+ b) = a.
Proof.
  induction a as [|x a IH]; [now destruct b|]. rewrite append_cons.
  cbn [String.length take]. now rewrite IH.
Qed.

Lemma skip_app a b : skip (String.length a) (a +:+ b) = b.
Proof. induction a as [|x a IH]; [now destruct b|exact IH]. Qed.

Lemma skip_skip n m s : skip n (skip m s) = skip (m + n) s.
Proof.
  revert s. induction m as [|m IH]; intros s; cbn [Nat.add]; [now destruct n|].
  destruct s as [|c r]; cbn [skip]; [now destruct n|apply IH].
Qed.

Lemma prefix_app p s : String.prefix p s = true <-> exists r, s = p +:+ r.
Proof.
  revert s. induction p as [|c p IH]; intros s.
  - split; [intros _; now exists s|]. intros _. now destruct s.
  - destruct s as [|d s]; [split; [discriminate|intros [r Hr]; discriminate]|].
    cbn [String.prefix]. destruct (ascii_dec c d) as [<-|Hne].
    + rewrite IH. split; intros [r Hr]; exists r; [now rewrite append_cons, Hr|].
      rewrite append_cons in Hr. congruence.
    + split; [discriminate|]. intros [r Hr]. rewrite append_cons in Hr. congruence.
Qed.

Lemma prefix_nil s : String.prefix "" s = true.
Proof. now destruct s. Qed.

(** [indexOf] gives the first place where [sub] starts. *)
Lemma indexOf_Some s sub n :
  indexOf s sub = Some n <->
  String.prefix sub (skip n s) = true /\ (n <= String.length s)%nat /\
  forall m, (m < n)%nat -> String.prefix sub (skip m s) = false.
Proof.
  revert n. induction s as [|c r IH]; intros n.
  - cbn [indexOf]. destruct (String.prefix sub "") eqn:Hp.
    + split.
      * intros [= <-]. cbn [skip]. split; [exact Hp|]. split; [lia|]. intros m Hm. lia.
      * intros (_ & Hn & _). cbn [String.length] in Hn. f_equal. lia.
    + split; [discriminate|]. intros (Hp' & _ & _).
      destruct n; cbn [skip] in Hp'; congruence.
  - cbn [indexOf]. destruct (String.prefix sub (String c r)) eqn:Hp.
    + split.
      * intros [= <-]. cbn [skip]. split; [exact Hp|]. split; [lia|]. intros m Hm. lia.
      * intros (_ & _ & Hmin). destruct n as [|n]; [reflexivity|].
        specialize (Hmin 0%nat ltac:(lia)). cbn [skip] in Hmin. congruence.
    + destruct n as [|n].
      * split; [destruct (indexOf r sub); discriminate|].
        intros (Hp' & _). cbn [skip] in Hp'. congruence.
      * cbn [skip String.length]. specialize (IH n).
        destruct (indexOf r sub) as [k|]; cbn [option_map].
        -- split.
           ++ intros [= ->]. destruct IH as [IH _]. destruct (IH eq_refl) as (H1 & H2 & H3).
              split; [exact H1|]. split; [lia|]. intros [|m] Hm; [exact Hp|].
              cbn [skip]. apply H3. lia.
           ++ intros (H1 & H2 & H3). f_equal. destruct IH as [_ IH]. 
              assert (Some k = Some n) as [= ->]; [|reflexivity].
              apply IH. split; [exact H1|]. split; [lia|]. intros m Hm.
              apply (H3 (S m)). lia.
        -- split; [discriminate|]. intros (H1 & H2 & H3). destruct IH as [_ IH].
           discriminate IH. split; [exact H1|]. split; [lia|]. intros m Hm.
           apply (H3 (S m)). lia.
Qed.

End JsTextFacts.

(* ===================================================================== *)
(** ** src/cache.ts: the methods one by one *)
(* ===================================================================== *)

Module CacheMethodFacts.
Import Cache CacheFacts.

Section WithKeys.
Context {K : Type} `{Countable K} {X : Type}.
Implicit Types (s : State K X) (k key : K) (fn : Producer X).

(** Every cached entry has its timeout armed, bound to its key. *)
Definition armed s : Prop :=
  forall k e, cache s !! k = Some e -> timers s !! tid e = Some k.

Lemma armed_empty : armed (emptyState (K := K) (X := X)).
Proof. intros k e. cbn. rewrite lookup_empty. discriminate. Qed.

Lemma armed_ext s s' :
  cache s' = cache s -> timers s' = timers s -> armed s -> armed s'.
Proof. unfold armed. intros -> ->. tauto. Qed.

Lemma armed_delete k s : wf s -> armed s -> armed (snd (delete_ k s)).
Proof.
  intros (W1 & W2 & W3) A. unfold delete_.
  destruct (cache s !! k) as [e|] eqn:E; cbn [snd]; [|exact A].
  intros k' e' He'. cbn [cache timers clearTimeout] in *.
  apply lookup_delete_Some in He' as [Hne He'].
  rewrite lookup_delete_ne; [now apply A|].
  intros Ht. apply Hne. symmetry. eapply W3; eauto.
Qed.

Lemma armed_deletes (ws : list (nat * K)) s :
  wf s -> armed s -> armed (fold_left (fun s w => snd (delete_ (snd w) s)) ws s).
Proof.
  revert s. induction ws as [|w ws IH]; intros s Hwf A; cbn [fold_left]; [exact A|].
  apply IH; [now apply wf_delete|now apply armed_delete].
Qed.

Lemma armed_set k v s : wf s -> armed s -> armed (set k v s).
Proof.
  intros (W1 & W2 & W3) A. unfold set, has.
  destruct (cache s !! k) as [e|] eqn:E; intros k' e' He';
    cbn [cache timers nextTid clearTimeout] in *;
    apply lookup_insert_Some in He' as [[<- <-]|[Hne He']].
  - cbn. apply lookup_insert_eq.
  - pose proof (W2 _ _ He') as Hlt.
    rewrite lookup_insert_ne by lia.
    rewrite lookup_delete_ne; [now apply A|].
    intros Ht. apply Hne. eapply W3; eauto.
  - cbn. apply lookup_insert_eq.
  - pose proof (W2 _ _ He') as Hlt.
    rewrite lookup_insert_ne by lia. now apply A.
Qed.

Lemma armed_getOrSet k fn s : wf s -> armed s -> armed (snd (getOrSet k fn s)).
Proof.
  intros Hwf A. unfold getOrSet. destruct (has k s).
  - destruct (get k s); cbn [snd call]; exact A.
  - unfold call. cbn [snd].
    eapply armed_ext;
      [| |apply (armed_set k (returns fn)
                   (mkState (cache s) (timers s) (nextTid s) (settled s) (watchers s)
                            (pid fn :: invoked s))); [exact Hwf|exact A]];
      destruct (returns fn); reflexivity.
Qed.

Lemma armed_fireTimer t s : wf s -> armed s -> armed (fireTimer t s).
Proof.
  intros (W1 & W2 & W3) A. unfold fireTimer.
  destruct (timers s !! t) as [k|] eqn:Ht; [|exact A].
  destruct (W1 _ _ Ht) as (e & He & Htid).
  unfold delete_. cbn [cache clearTimeout]. rewrite He. cbn [snd].
  intros k' e' He'. cbn [cache timers clearTimeout] in *.
  apply lookup_delete_Some in He' as [Hne He'].
  assert (tid e' <> t) as Hne'.
  { intros Heq. apply Hne. symmetry. eapply W3; eauto. congruence. }
  rewrite Htid. rewrite !lookup_delete_ne by congruence. now apply A.
Qed.

Lemma armed_observe p s : wf s -> armed s -> armed (observe p s).
Proof.
  intros Hwf A. unfold observe. destruct (settled s !! p) as [[|]|]; try exact A.
  apply armed_deletes; [exact Hwf|exact A].
Qed.

Lemma armed_settle p o s : wf s -> armed s -> armed (settle p o s).
Proof.
  intros Hwf A. unfold settle. destruct (settled s !! p); [exact A|].
  apply armed_observe; [exact Hwf|exact A].
Qed.

Lemma armed_step (ev : Event K X) s : wf s -> armed s -> armed (step ev s).
Proof.
  intros Hwf A. destruct ev; cbn [step].
  - now apply armed_getOrSet.
  - now apply armed_set.
  - now apply armed_delete.
  - now apply armed_settle.
  - now apply armed_observe.
  - now apply armed_fireTimer.
Qed.

Lemma armed_run (evs : list (Event K X)) s : wf s -> armed s -> armed (run evs s).
Proof.
  revert s. induction evs as [|ev evs IH]; intros s Hwf A; cbn; [exact A|].
  apply IH; [now apply wf_step|now apply armed_step].
Qed.

(** The timeout of a cached entry fires: the entry is gone. *)
Lemma fireTimer_expires k e s :
  armed s -> cache s !! k = Some e -> has k (fireTimer (tid e) s) = false.
Proof.
  intros A He. unfold fireTimer. rewrite (A _ _ He). apply has_delete_same.
Qed.

(** X1 -- in every state a cache reaches from [new Cache()] through
    [getOrSet], [set], [delete], promises settling and timeouts firing, the
    cached entries and the armed timeouts correspond one to one: each entry
    has its timeout armed and bound to its key, each armed timeout belongs
    to the entry cached under its key, and when the timeout of an entry
    fires the entry is gone. *)
Theorem entries_and_timeouts_correspond :
  forall (evs : list (Event K X)),
    let s := run evs emptyState in
    (forall k e, cache s !! k = Some e -> timers s !! tid e = Some k) /\
    (forall t k, timers s !! t = Some k ->
       exists e, cache s !! k = Some e /\ tid e = t) /\
    (forall k e, cache s !! k = Some e -> has k (fireTimer (tid e) s) = false).
Proof.
  intros evs s.
  assert (wf s) as Hwf by apply wf_run, wf_empty.
  assert (armed s) as A by (apply armed_run; [apply wf_empty|apply armed_empty]).
  split; [exact A|]. split; [apply Hwf|].
  intros k e He. now apply fireTimer_expires.
Qed.

(** X2 -- [set(key, value)] in any reachable state: [get(key)] then gives
    [value] and [has(key)] is true; the other keys read as before; the
    timeout of the entry that was replaced, if any, is cleared, so that its
    firing changes nothing; and when the new timeout fires the key is
    gone. *)
Theorem set_then_get :
  forall (evs : list (Event K X)) k (v : Value X),
    let s := run evs emptyState in
    get k (set k v s) = v /\
    has k (set k v s) = true /\
    (forall k', k' <> k ->
       get k' (set k v s) = get k' s /\ has k' (set k v s) = has k' s) /\
    (forall e, cache s !! k = Some e ->
       fireTimer (tid e) (set k v s) = set k v s) /\
    has k (fireTimer (nextTid s) (set k v s)) = false.
Proof.
  intros evs k v s.
  assert (wf s) as Hwf by apply wf_run, wf_empty.
  assert (cache (set k v s) = <[k := mkEntry (nextTid s) v]> (cache s)) as Hc.
  { unfold set, has. destruct (cache s !! k); reflexivity. }
  split; [|split; [|split; [|split]]].
  - unfold get. rewrite Hc, lookup_insert_eq. reflexivity.
  - unfold has. rewrite Hc, lookup_insert_eq. reflexivity.
  - intros k' Hne. unfold get, has. rewrite Hc, lookup_insert_ne by congruence.
    split; reflexivity.
  - intros e He. destruct Hwf as (W1 & W2 & W3). pose proof (W2 _ _ He) as Hlt.
    unfold fireTimer, set, has. rewrite He. cbn [timers nextTid clearTimeout].
    rewrite lookup_insert_ne by lia. rewrite lookup_delete_eq. reflexivity.
  - assert (cache (set k v s) !! k = Some (mkEntry (nextTid s) v)) as He
        by (rewrite Hc; apply lookup_insert_eq).
    apply (fireTimer_expires k (mkEntry (nextTid s) v)); [|exact He].
    apply armed_set; [exact Hwf|].
    apply armed_run; [apply wf_empty|apply armed_empty].
Qed.

(** X3 -- [getOrSet(key, fn)] on a key that is not cached calls [fn] and
    caches what it returns.  A later [getOrSet(key, fn')] serves that value
    without calling [fn'] and without changing anything, unless the value
    is [null]: then [has(key)] is true, yet every later [getOrSet] calls its
    own producer, returns what it gives and leaves the cache as it is. *)
Theorem getOrSet_serves_all_but_null :
  forall s k fn fn',
    has k s = false ->
    let s1 := snd (getOrSet k fn s) in
    fst (getOrSet k fn s) = returns fn /\
    invoked s1 = pid fn :: invoked s /\
    has k s1 = true /\
    (returns fn <> VNull -> getOrSet k fn' s1 = (returns fn, s1)) /\
    (returns fn = VNull ->
       getOrSet k fn' s1 =
       (returns fn',
        mkState (cache s1) (timers s1) (nextTid s1) (settled s1) (watchers s1)
                (pid fn' :: invoked s1))).
Proof.
  intros s k fn fn' Hk s1. subst s1. rewrite (getOrSet_miss k fn s Hk). cbn [fst snd].
  set (s1 := watch k (returns fn) _).
  assert (cache s1 !! k = Some (mkEntry (nextTid s) (returns fn))) as He.
  { subst s1. destruct (returns fn); cbn; apply lookup_insert_eq. }
  split; [reflexivity|]. split; [subst s1; destruct (returns fn); reflexivity|].
  split; [unfold has; now rewrite He|]. split.
  - intros Hv. now rewrite (getOrSet_hit k fn' s1 _ He Hv).
  - intros Hv. unfold getOrSet, has, get. rewrite He. cbn [value]. rewrite Hv.
    reflexivity.
Qed.

Lemma clear_timers (c : gmap K (CacheEntry X)) (ts : gmap nat K) :
  let r := map_fold (fun _ entry ts => delete (tid entry) ts) ts c in
  (forall k e, c !! k = Some e -> r !! tid e = None) /\
  (forall t, ts !! t = None -> r !! t = None).
Proof.
  apply (map_fold_weak_ind
           (fun r (c : gmap K (CacheEntry X)) =>
              (forall k e, c !! k = Some e -> r !! tid e = None) /\
              (forall t, ts !! t = None -> r !! t = None))).
  - split; [|tauto]. intros k e He. rewrite lookup_empty in He. discriminate.
  - intros i x m r Hi [IH1 IH2]. split.
    + intros k e He. apply lookup_delete_None.
      apply lookup_insert_Some in He as [[<- <-]|[_ He]]; [now left|].
      right. eauto.
    + intros t Ht. apply lookup_delete_None. right. eauto.
Qed.

(** X4 -- [clear()] in any reachable state leaves no entry ([has] is false
    and [get] gives [null] for every key) and no armed timeout. *)
Theorem clear_leaves_nothing :
  forall (evs : list (Event K X)),
    let s := clear (run evs emptyState) in
    (forall k, has k s = false /\ get k s = VNull) /\
    timers s = ∅.
Proof.
  intros evs s. split.
  - intros k. unfold has, get. subst s. cbn. rewrite lookup_empty. split; reflexivity.
  - subst s. set (s0 := run evs emptyState).
    assert (wf s0) as (W1 & _) by apply wf_run, wf_empty.
    destruct (clear_timers (cache s0) (timers s0)) as [C1 C2].
    apply map_eq. intros t. rewrite lookup_empty. cbn [clear timers].
    destruct (timers s0 !! t) as [k|] eqn:Ht.
    + destruct (W1 _ _ Ht) as (e & He & <-). eauto.
    + eauto.
Qed.

End WithKeys.

(** A producer that returns [null]. *)
Definition returnsNull (p : nat) : Producer Z := mkProducer p VNull.

Lemma getOrSet_serves_all_but_null_witness :
  has "k" (emptyState (K := string) (X := Z)) = false /\
  let s1 := snd (getOrSet "k" (returnsNull 1) (emptyState (K := string) (X := Z))) in
  fst (getOrSet "k" (returnsNull 1) (emptyState (K := string) (X := Z))) = VNull /\
  invoked s1 = [1%nat] /\
  has "k" s1 = true /\
  (returns (returnsNull 1) <> VNull ->
   getOrSet "k" (pending 2) s1 = (VNull, s1)) /\
  (returns (returnsNull 1) = VNull ->
   getOrSet "k" (pending 2) s1 =
   (VPromise 2,
    mkState (cache s1) (timers s1) (nextTid s1) (settled s1) (watchers s1)
            (2%nat :: invoked s1))).
Proof.
  split; [reflexivity|].
  apply (getOrSet_serves_all_but_null emptyState "k" (returnsNull 1) (pending 2)).
  reflexivity.
Defined.

End CacheMethodFacts.

(* ===================================================================== *)
(** ** src/url-utils.ts *)
(* ===================================================================== *)

Module UrlUtils.
Import JsText.

(** [new URL(s)], as far as [getURLVideoID] reads it. *)
Record URL := mkURL {
  host : string;
  hostname : string;
  pathname : string;
  searchParams : list (string * string)
}.

Definition validQueryDomains : list string :=
  ["youtube.com"; "www.youtube.com"; "m.youtube.com"; "music.youtube.com";
   "gaming.youtube.com"].

(** [/^https?:\/\/(youtu\.be\/|(www\.)?youtube\.com\/(embed|v|shorts|live)\/)/]:
    the strings the pattern matches from its start, one per way through its
    alternatives. *)
Definition validPathPrefixes : list string :=
  flat_map
    (fun scheme =>
       (scheme +:+ "youtu.be/") ::
       flat_map
         (fun www =>
            map (fun kind => scheme +:+ www +:+ "youtube.com/" +:+ kind +:+ "/")
                ["embed"; "v"; "shorts"; "live"])
         [""; "www."])
    ["http://"; "https://"].

Definition validPathDomains (s : string) : bool :=
  existsb (fun p => String.prefix p s) validPathPrefixes.

(** [[a-zA-Z0-9-_]] *)
Definition idChar (c : ascii) : bool :=
  let n := Z.of_nat (nat_of_ascii c) in
  ((97 <=? n) && (n <=? 122)) || ((65 <=? n) && (n <=? 90)) ||
  ((48 <=? n) && (n <=? 57)) || (n =? 45) || (n =? 95).

(** [/^[a-zA-Z0-9-_]{11}$/.test(s)] *)
Definition idRegex (s : string) : bool :=
  Nat.eqb (String.length s) 11 && allChars idChar s.

(** [/^https?:\/\//.test(s)] *)
Definition urlRegex (s : string) : bool :=
  String.prefix "http://" s || String.prefix "https://" s.

Definition validateID (id : string) : bool := idRegex (trim id).

Section WithURL.
(** [new URL(s)] is the platform's; it throws [TypeError] on what it cannot
    parse. *)
Variable newURL : string -> result URL.

Definition getURLVideoID (link : string) : result string :=
  rbind (newURL (trim link)) (fun parsed =>
  let id := Sig.paramGet "v" (searchParams parsed) in
  rbind
    (if validPathDomains (trim link) && negb (truthyS id) then
       let paths := splitOn "/" (pathname parsed) in
       Ok (if String.eqb (host parsed) "youtu.be"
           then nth_error paths 1 else nth_error paths 2)
     else if negb (String.eqb (hostname parsed) "") &&
             negb (existsb (String.eqb (hostname parsed)) validQueryDomains)
     then Throw (Error "Not a YouTube domain")
     else Ok id)
    (fun id =>
  if negb (truthyS id)
  then Throw (Error ("No video id found: " +:+ dq +:+ link +:+ dq))
  else
    let id := take 11 (default "" id) in
    if negb (validateID id)
    then Throw (TypeError ("Video id (" +:+ id +:+
                           ") does not match expected format (/^[a-zA-Z0-9-_]{11}$/)"))
    else Ok id)).

Definition getVideoID (str : string) : result string :=
  if validateID str then Ok str
  else if urlRegex (trim str) then getURLVideoID str
  else Throw (Error ("No video id found: " +:+ str)).

Definition validateURL (string : string) : bool :=
  match getURLVideoID string with
  | Ok _ => true
  | Throw _ => false
  end.

End WithURL.

End UrlUtils.

Module UrlUtilsFacts.
Import JsText JsTextFacts UrlUtils.

(** A string of at most eleven characters that [validateID] accepts is an
    id as it stands. *)
Lemma validateID_short id :
  (String.length id <= 11)%nat -> validateID id = true -> idRegex id = true.
Proof.
  intros Hlen Hv. unfold validateID in Hv.
  pose proof Hv as Hv'. unfold idRegex in Hv'.
  apply andb_true_iff in Hv' as [Hl _]. apply Nat.eqb_eq in Hl.
  destruct (trim_length id) as [T1 T2]. rewrite T2 in Hv by lia. exact Hv.
Qed.

Lemma idRegex_validateID id : idRegex id = true -> validateID id = true.
Proof.
  intros Hid. unfold validateID.
  assert (trim id = id) as ->; [|exact Hid].
  unfold idRegex in Hid. apply andb_true_iff in Hid as [_ Hall].
  assert (forall s, allChars idChar s = true -> s <> "" ->
            exists c r, s = String c r /\ isWhiteSpace c = false) as Hhead.
  { intros [|c r]; [congruence|]. cbn. intros Hc _. apply andb_true_iff in Hc as [Hc _].
    exists c, r. split; [reflexivity|].
    unfold idChar in Hc. unfold isWhiteSpace.
    destruct (Z.of_nat (nat_of_ascii c) =? 32) eqn:E1;
      destruct (9 <=? Z.of_nat (nat_of_ascii c)) eqn:E2;
      destruct (Z.of_nat (nat_of_ascii c) <=? 13) eqn:E3; try reflexivity; exfalso; lia. }
  assert (forall s, allChars idChar s = true -> trimEnd s = s) as Hend.
  { induction s as [|c r IH]; [reflexivity|]. cbn [allChars trimEnd]. intros Hc.
    apply andb_true_iff in Hc as [Hc Hr]. rewrite (IH Hr).
    destruct (Hhead (String c r)) as (c' & r' & [= <- <-] & Hws);
      [cbn; now rewrite Hc, Hr|congruence|].
    rewrite Hws. reflexivity. }
  unfold trim. destruct id as [|c r]; [reflexivity|].
  destruct (Hhead (String c r) Hall) as (c' & r' & [= <- <-] & Hws); [congruence|].
  cbn [trimStart]. rewrite Hws. now apply Hend.
Qed.

Section WithURL.
Variable newURL : string -> result URL.

Lemma getURLVideoID_idRegex link id :
  getURLVideoID newURL link = Ok id -> idRegex id = true.
Proof.
  unfold getURLVideoID.
  destruct (newURL (trim link)) as [parsed|e]; cbn [rbind]; [|discriminate].
  match goal with |- rbind ?m _ = _ -> _ => destruct m as [i|e] end;
    cbn [rbind]; [|discriminate].
  destruct (negb (truthyS i)); [discriminate|].
  destruct (validateID (take 11 (default "" i))) eqn:Hv; cbn [negb]; [|discriminate].
  intros [= <-]. apply validateID_short in Hv; [exact Hv|apply take_length].
Qed.

Lemma getVideoID_valid str id :
  getVideoID newURL str = Ok id -> validateID id = true.
Proof.
  unfold getVideoID. destruct (validateID str) eqn:Hv.
  - intros [= <-]. exact Hv.
  - destruct (urlRegex (trim str)); [|discriminate].
    intros Hid. apply idRegex_validateID. now apply getURLVideoID_idRegex in Hid.
Qed.

(** X5 -- whatever [new URL] makes of the link, an id that [getURLVideoID]
    returns consists of exactly eleven characters, each a letter, a digit,
    [-] or [_]. *)
Theorem getURLVideoID_id_format :
  forall link id,
    getURLVideoID newURL link = Ok id ->
    String.length id = 11%nat /\ allChars idChar id = true.
Proof.
  intros link id Hid. apply getURLVideoID_idRegex in Hid.
  unfold idRegex in Hid. apply andb_true_iff in Hid as [Hl Hc].
  apply Nat.eqb_eq in Hl. split; assumption.
Qed.

(** X6 -- [getVideoID] hands back a string that [validateID] accepts as it
    is given, white space around it included, and every id it returns is
    one that [validateID] accepts. *)
Theorem getVideoID_validates :
  forall str,
    (validateID str = true -> getVideoID newURL str = Ok str) /\
    (forall id, getVideoID newURL str = Ok id -> validateID id = true).
Proof.
  intros str. split.
  - unfold getVideoID. intros ->. reflexivity.
  - intros id. apply getVideoID_valid.
Qed.

(** X7 -- for a link that [new URL] parses, [getURLVideoID] throws
    "Not a YouTube domain" exactly when the host name is not empty, is not
    one of the five query domains, and the link either does not start like a
    path link ([youtu.be/], [youtube.com/embed/] and so on) or carries a
    [v] parameter.  So a [youtu.be] link with a [v] parameter is refused,
    and a link with an empty host name is never refused for its domain. *)
Theorem getURLVideoID_domain_check :
  forall link parsed,
    newURL (trim link) = Ok parsed ->
    (getURLVideoID newURL link = Throw (Error "Not a YouTube domain") <->
     hostname parsed <> "" /\
     ~ In (hostname parsed) validQueryDomains /\
     (validPathDomains (trim link) = false \/
      truthyS (Sig.paramGet "v" (searchParams parsed)) = true)).
Proof.
  intros link parsed Hp. unfold getURLVideoID. rewrite Hp. cbn [rbind].
  set (v := Sig.paramGet "v" (searchParams parsed)).
  assert (existsb (String.eqb (hostname parsed)) validQueryDomains = true <->
          In (hostname parsed) validQueryDomains) as Hin.
  { rewrite existsb_exists. split.
    - intros (x & Hx & Heq). apply String.eqb_eq in Heq. now subst.
    - intros Hx. exists (hostname parsed). split; [exact Hx|apply String.eqb_refl]. }
  assert (forall (i : option string),
            (if negb (truthyS i)
             then Throw (Error ("No video id found: " +:+ dq +:+ link +:+ dq))
             else
               let id := take 11 (default "" i) in
               if negb (validateID id)
               then Throw (TypeError ("Video id (" +:+ id +:+
                        ") does not match expected format (/^[a-zA-Z0-9-_]{11}$/)"))
               else Ok id) <> Throw (Error "Not a YouTube domain")) as Hother.
  { intros i. destruct (negb (truthyS i)); [intros [= Habs]; discriminate|].
    cbn zeta. destruct (negb (validateID _)); discriminate. }
  destruct (validPathDomains (trim link)) eqn:Hvp; cbn [andb].
  - destruct (truthyS v) eqn:Hv; cbn [negb].
    + destruct (String.eqb (hostname parsed) "") eqn:Hh; cbn [negb andb].
      * apply String.eqb_eq in Hh. cbn [rbind]. split; [intros Habs; now apply Hother in Habs|].
        intros (Hne & _). congruence.
      * apply String.eqb_neq in Hh.
        destruct (existsb (String.eqb (hostname parsed)) validQueryDomains) eqn:Hq;
          cbn [negb rbind].
        -- split; [intros Habs; now apply Hother in Habs|].
           intros (_ & Hnin & _). exfalso. apply Hnin, Hin. reflexivity.
        -- split; [|reflexivity]. intros _. split; [exact Hh|]. split; [|now right].
           intros Hq'. apply Hin in Hq'. congruence.
    + cbn [rbind]. split; [intros Habs; now apply Hother in Habs|].
      intros (_ & _ & [Habs|Habs]); discriminate.
  - destruct (String.eqb (hostname parsed) "") eqn:Hh; cbn [negb andb].
    + apply String.eqb_eq in Hh. cbn [rbind]. split; [intros Habs; now apply Hother in Habs|].
      intros (Hne & _). congruence.
    + apply String.eqb_neq in Hh.
      destruct (existsb (String.eqb (hostname parsed)) validQueryDomains) eqn:Hq;
        cbn [negb rbind].
      * split; [intros Habs; now apply Hother in Habs|].
        intros (_ & Hnin & _). exfalso. apply Hnin, Hin. reflexivity.
      * split; [|reflexivity]. intros _. split; [exact Hh|]. split; [|now left].
        intros Hq'. apply Hin in Hq'. congruence.
Qed.

End WithURL.

(** What [new URL] makes of two links. *)
Definition sampleNewURL (s : string) : result URL :=
  if String.eqb s "https://youtu.be/dQw4w9WgXcQ"
  then Ok (mkURL "youtu.be" "youtu.be" "/dQw4w9WgXcQ" [])
  else if String.eqb s "https://youtu.be/watch?v=dQw4w9WgXcQ"
  then Ok (mkURL "youtu.be" "youtu.be" "/watch" [("v", "dQw4w9WgXcQ")])
  else Throw (TypeError "Invalid URL").

Lemma getURLVideoID_id_format_witness :
  getURLVideoID sampleNewURL "  https://youtu.be/dQw4w9WgXcQ " = Ok "dQw4w9WgXcQ" /\
  String.length "dQw4w9WgXcQ" = 11%nat /\ allChars idChar "dQw4w9WgXcQ" = true.
Proof.
  split; [reflexivity|].
  apply (getURLVideoID_id_format sampleNewURL "  https://youtu.be/dQw4w9WgXcQ ").
  reflexivity.
Defined.

Lemma getURLVideoID_domain_check_witness :
  sampleNewURL (trim "https://youtu.be/watch?v=dQw4w9WgXcQ")
  = Ok (mkURL "youtu.be" "youtu.be" "/watch" [("v", "dQw4w9WgXcQ")]) /\
  (getURLVideoID sampleNewURL "https://youtu.be/watch?v=dQw4w9WgXcQ"
   = Throw (Error "Not a YouTube domain") <->
   "youtu.be" <> "" /\
   ~ In "youtu.be" validQueryDomains /\
   (validPathDomains (trim "https://youtu.be/watch?v=dQw4w9WgXcQ") = false \/
    truthyS (Sig.paramGet "v" [("v", "dQw4w9WgXcQ")]) = true)).
Proof.
  split; [reflexivity|].
  apply (getURLVideoID_domain_check sampleNewURL "https://youtu.be/watch?v=dQw4w9WgXcQ"
           (mkURL "youtu.be" "youtu.be" "/watch" [("v", "dQw4w9WgXcQ")])).
  reflexivity.
Defined.

End UrlUtilsFacts.

(* ===================================================================== *)
(** ** src/utils.ts: [between], [cutAfterJS] *)
(* ===================================================================== *)

Module UtilsText.
Import JsText.

(** The [left] argument of [between]: a string, or a regular expression,
    taken as what [haystack.match(left)] finds: for a pattern without the
    [g] flag the index and the text of the first match, if any; with the
    [g] flag the result has no [index]. *)
Inductive Pattern :=
| PString (s : string)
| PRegExp (global : bool) (exec : string -> option (nat * string)).

Definition between (haystack : string) (left : Pattern) (right : string) : string :=
  let startPos :=
    match left with
    | PRegExp global exec =>
        match exec haystack with
        | Some (index, matched) =>
            if global then None else Some (index + String.length matched)%nat
        | None => None
        end
    | PString str =>
        match indexOf haystack str with
        | Some startPos => Some (startPos + String.length str)%nat
        | None => None
        end
    end in
  match startPos with
  | None => ""
  | Some startPos =>
      let subStr := skip startPos haystack in
      match indexOf subStr right with
      | None => ""
      | Some endPos => take endPos subStr
      end
  end.

(** *** [cutAfterJS] *)

Record EscapingSequence := mkSequence {
  start : ascii;
  end_ : ascii;
  startPrefix : option (string -> bool)
}.

(** [[[{:;,/]] *)
Definition opensValue (c : ascii) : bool :=
  existsb (Ascii.eqb c) ["["; "{"; ":"; ";"; ","; "/"]%char.

(** [/(^|[[{:;,/])\s?$/] on [t]: [t] is empty or one white space
    character, or ends with one of the six characters, or with one of them
    and a white space character. *)
Definition startPrefixRegExp (t : string) : bool :=
  match rev (list_ascii_of_string t) with
  | [] => true
  | c1 :: before =>
      opensValue c1 ||
      (isWhiteSpace c1 &&
       match before with
       | [] => true
       | c2 :: _ => opensValue c2
       end)
  end.

Definition ESCAPING_SEQUENZES : list EscapingSequence :=
  [ mkSequence (ascii_of_nat 34) (ascii_of_nat 34) None;
    mkSequence "'" "'" None;
    mkSequence "`" "`" None;
    mkSequence "/" "/" (Some startPrefixRegExp) ].

(** The variables of the loop. *)
Record Scan := mkScan {
  isEscapedObject : option EscapingSequence;
  isEscaped : bool;
  bracketCount : Z
}.

(** One round of the loop on [char = mixedJson[i]], [seen] being
    [mixedJson.substring(0, i)]: [None] when the round returns
    [mixedJson.substring(0, i + 1)], else the variables for the next
    round. *)
Definition round (open close : ascii) (seen : string) (char : ascii) (v : Scan)
    : option Scan :=
  if negb (isEscaped v) &&
     match isEscapedObject v with
     | Some o => Ascii.eqb char (end_ o)
     | None => false
     end
  then Some (mkScan None (isEscaped v) (bracketCount v))
  else
    let entered :=
      if negb (isEscaped v) then
        match isEscapedObject v with
        | None =>
            List.find
              (fun escapeSeq =>
                 Ascii.eqb char (start escapeSeq) &&
                 match startPrefix escapeSeq with
                 | None => true
                 | Some re => re (skip (String.length seen - 10) seen)
                 end)
              ESCAPING_SEQUENZES
        | Some _ => None
        end
      else None in
    match entered with
    | Some escapeSeq => Some (mkScan (Some escapeSeq) (isEscaped v) (bracketCount v))
    | None =>
        let isEscaped := Ascii.eqb char "\" && negb (isEscaped v) in
        match isEscapedObject v with
        | Some _ => Some (mkScan (isEscapedObject v) isEscaped (bracketCount v))
        | None =>
            let bracketCount :=
              if Ascii.eqb char open then bracketCount v + 1
              else if Ascii.eqb char close then bracketCount v - 1
              else bracketCount v in
            if bracketCount =? 0 then None
            else Some (mkScan None isEscaped bracketCount)
        end
    end.

Fixpoint scan (open close : ascii) (seen rest : string) (v : Scan) : result string :=
  match rest with
  | EmptyString => Throw (Error "Invalid JSON: no matching closing bracket found")
  | String char rest =>
      match round open close seen char v with
      | None => Ok (seen +:+ String char "")
      | Some v => scan open close (seen +:+ String char "") rest v
      end
  end.

Definition cutAfterJS (mixedJson : string) : result string :=
  match mixedJson with
  | String firstChar _ =>
      if Ascii.eqb firstChar "[" then scan "[" "]" "" mixedJson (mkScan None false 0)
      else if Ascii.eqb firstChar "{" then scan "{" "}" "" mixedJson (mkScan None false 0)
      else Throw (Error ("Invalid JSON: must begin with [ or { but got: " +:+
                         String firstChar ""))
  | EmptyString =>
      Throw (Error "Invalid JSON: must begin with [ or { but got: undefined")
  end.

End UtilsText.

Module UtilsTextFacts.
Import JsText JsTextFacts UtilsText.

Lemma take_length_le n s : (n <= String.length s)%nat -> String.length (take n s) = n.
Proof.
  revert s. induction n as [|n IH]; intros [|c r]; cbn [take String.length]; try lia.
  intros Hl. rewrite IH; lia.
Qed.

(** X8 -- [between(haystack, left, right)] with a string [left]: the
    result is a non-empty [res] exactly when [haystack] is
    [a + left + res + right + b] where that [left] is the first one in
    [haystack] and that [right] the first one after it; and the result is the
    empty string when [left] does not occur, or [right] does not occur after
    the first [left]. *)
Theorem between_spec :
  forall haystack left right,
    (forall res, res <> "" ->
       (between haystack (PString left) right = res <->
        exists a b,
          haystack = a +:+ left +:+ res +:+ right +:+ b /\
          indexOf haystack left = Some (String.length a) /\
          indexOf (res +:+ right +:+ b) right = Some (String.length res))) /\
    (indexOf haystack left = None -> between haystack (PString left) right = "") /\
    (forall i, indexOf haystack left = Some i ->
       indexOf (skip (i + String.length left) haystack) right = None ->
       between haystack (PString left) right = "").
Proof.
  intros haystack left right. split; [|split].
  - intros res Hres. unfold between. split.
    + destruct (indexOf haystack left) as [i|] eqn:Hi; [|congruence].
      destruct (indexOf (skip (i + String.length left) haystack) right) as [e|] eqn:He;
        [|congruence].
      intros Hr.
      apply indexOf_Some in Hi as Hi'. destruct Hi' as (Hp & Hil & _).
      apply prefix_app in Hp as [r1 Hr1].
      assert (skip (i + String.length left) haystack = r1) as Hsub.
      { rewrite <- skip_skip, Hr1. apply skip_app. }
      rewrite Hsub in He, Hr.
      apply indexOf_Some in He as He'. destruct He' as (Hp2 & Hel & _).
      apply prefix_app in Hp2 as [b Hb].
      exists (take i haystack), b.
      rewrite (take_length_le _ _ Hil). rewrite <- Hr.
      rewrite (take_length_le _ _ Hel). rewrite <- Hb, take_skip.
      split; [now rewrite <- Hr1, take_skip|]. split; [reflexivity|exact He].
    + intros (a & b & Hh & Hi & He). rewrite Hi.
      assert (skip (String.length a + String.length left) haystack
              = res +:+ right +:+ b) as ->.
      { rewrite Hh, <- skip_skip, skip_app. apply skip_app. }
      rewrite He. apply take_app.
  - intros Hi. unfold between. now rewrite Hi.
  - intros i Hi He. unfold between. now rewrite Hi, He.
Qed.

Lemma append_inv_l a b c : a +:+ b = a +:+ c -> b = c.
Proof.
  induction a as [|x a IH]; [tauto|]. rewrite !append_cons. intros [= Heq]. auto.
Qed.

Lemma append_snoc seen char r : (seen +:+ String char "") +:+ r = seen +:+ String char r.
Proof. now rewrite append_assoc. Qed.

(** A scan that returns has read a non-empty part [r1] of what was left
    and returns what it had seen followed by [r1]; what follows [r1] plays no
    part. *)
Lemma scan_returns open close rest :
  forall seen v r,
    scan open close seen rest v = Ok r ->
    exists r1 t,
      rest = r1 +:+ t /\ r1 <> "" /\ r = seen +:+ r1 /\
      forall t', scan open close seen (r1 +:+ t') v = Ok r.
Proof.
  induction rest as [|char rest IH]; intros seen v r; cbn [scan]; [discriminate|].
  destruct (round open close seen char v) as [v'|] eqn:Hround.
  - intros Hs. destruct (IH _ _ _ Hs) as (r1 & t & -> & Hne & -> & Htail).
    exists (String char r1), t. rewrite append_cons, append_snoc.
    split; [reflexivity|]. split; [discriminate|]. split; [reflexivity|].
    intros t'. rewrite append_cons. cbn [scan]. rewrite Hround.
    rewrite <- (append_snoc seen char r1). apply Htail.
  - intros [= <-]. exists (String char ""), rest.
    split; [reflexivity|]. split; [discriminate|]. split; [reflexivity|].
    intros t'. rewrite append_cons. cbn [scan]. now rewrite Hround.
Qed.

(** While a bracket is open, a round that goes on leaves one open, and a
    round that returns is on the closing bracket. *)
Lemma round_open open close seen char v :
  1 <= bracketCount v ->
  match round open close seen char v with
  | Some v' => 1 <= bracketCount v'
  | None => char = close
  end.
Proof.
  intros Hn. unfold round.
  destruct (negb (isEscaped v) && _); [exact Hn|].
  match goal with |- context [match ?e with Some _ => Some _ | None => _ end] =>
    destruct e end; [exact Hn|].
  destruct (isEscapedObject v); [exact Hn|].
  destruct (Ascii.eqb_spec char open) as [->|Ho].
  - destruct (bracketCount v + 1 =? 0) eqn:E; [lia|cbn; lia].
  - destruct (Ascii.eqb_spec char close) as [->|Hc].
    + destruct (bracketCount v - 1 =? 0) eqn:E; [reflexivity|cbn; lia].
    + destruct (bracketCount v =? 0) eqn:E; [lia|cbn; lia].
Qed.

Lemma scan_ends_close open close rest :
  forall seen v r,
    1 <= bracketCount v ->
    scan open close seen rest v = Ok r ->
    exists body, r = seen +:+ body +:+ String close "".
Proof.
  induction rest as [|char rest IH]; intros seen v r Hn; cbn [scan]; [discriminate|].
  pose proof (round_open open close seen char v Hn) as Hround.
  destruct (round open close seen char v) as [v'|].
  - intros Hs. destruct (IH _ _ _ Hround Hs) as (body & ->).
    exists (String char body). now rewrite append_snoc.
  - intros [= <-]. subst char. now exists "".
Qed.

(** X9 -- when [cutAfterJS(mixedJson)] returns [r]: [r] is a prefix of
    [mixedJson]; it starts with the opening bracket [mixedJson] starts with
    and ends with the matching closing bracket; and the text after [r] plays
    no part: [cutAfterJS] returns [r] for [r] followed by any text, and so for
    [r] itself. *)
Theorem cutAfterJS_prefix :
  forall mixedJson r,
    cutAfterJS mixedJson = Ok r ->
    (exists t, mixedJson = r +:+ t) /\
    ((exists body, r = "[" +:+ body +:+ "]") \/
     (exists body, r = "{" +:+ body +:+ "}")) /\
    (forall t', cutAfterJS (r +:+ t') = Ok r) /\
    cutAfterJS r = Ok r.
Proof.
  intros mixedJson r Hcut.
  assert ((exists t, mixedJson = r +:+ t) /\
          ((exists body, r = "[" +:+ body +:+ "]") \/
           (exists body, r = "{" +:+ body +:+ "}")) /\
          (forall t', cutAfterJS (r +:+ t') = Ok r)) as (H1 & H2 & H3).
  { unfold cutAfterJS in Hcut. destruct mixedJson as [|firstChar rest]; [discriminate|].
    destruct (Ascii.eqb_spec firstChar "[") as [->|Hsq];
      [|destruct (Ascii.eqb_spec firstChar "{") as [->|Hcu]; [|discriminate]].
    - destruct (scan_returns _ _ _ _ _ _ Hcut) as (r1 & t & Hrest & Hne & -> & Htail).
      rewrite append_nil_l in *.
      destruct r1 as [|c1 r1]; [congruence|]. rewrite append_cons in Hrest.
      injection Hrest as <- ->.
      split; [now exists t|]. split.
      + left. change (scan "[" "]" "" (String "[" (r1 +:+ t)) (mkScan None false 0))
          with (scan "[" "]" "[" (r1 +:+ t) (mkScan None false 1)) in Hcut.
        apply scan_ends_close in Hcut as (body & Hbody); [|cbn; lia].
        exists body. exact Hbody.
      + intros t'. rewrite append_cons. unfold cutAfterJS. cbn [Ascii.eqb Bool.eqb].
        rewrite <- append_cons. apply Htail.
    - destruct (scan_returns _ _ _ _ _ _ Hcut) as (r1 & t & Hrest & Hne & -> & Htail).
      rewrite append_nil_l in *.
      destruct r1 as [|c1 r1]; [congruence|]. rewrite append_cons in Hrest.
      injection Hrest as <- ->.
      split; [now exists t|]. split.
      + right. change (scan "{" "}" "" (String "{" (r1 +:+ t)) (mkScan None false 0))
          with (scan "{" "}" "{" (r1 +:+ t) (mkScan None false 1)) in Hcut.
        apply scan_ends_close in Hcut as (body & Hbody); [|cbn; lia].
        exists body. exact Hbody.
      + intros t'. rewrite append_cons. unfold cutAfterJS. cbn [Ascii.eqb Bool.eqb].
        rewrite <- append_cons. apply Htail. }
  split; [exact H1|]. split; [exact H2|]. split; [exact H3|].
  specialize (H3 ""). now rewrite append_nil_r in H3.
Qed.

(** A character that neither starts a quoted part nor escapes. *)
Definition plain (c : ascii) : bool :=
  negb (existsb (Ascii.eqb c) [ascii_of_nat 34; "'"; "`"; "/"; "\"]%char).

(** Opening brackets less closing brackets in [s]. *)
Definition delta (open close char : ascii) : Z :=
  if Ascii.eqb char open then 1 else if Ascii.eqb char close then -1 else 0.

Fixpoint depth (open close : ascii) (s : string) : Z :=
  match s with
  | EmptyString => 0
  | String char r => delta open close char + depth open close r
  end.

Lemma round_plain open close seen char n :
  plain char = true ->
  round open close seen char (mkScan None false n) =
  if n + delta open close char =? 0 then None
  else Some (mkScan None false (n + delta open close char)).
Proof.
  unfold plain. rewrite negb_true_iff. cbn [existsb]. rewrite !orb_false_iff.
  intros (H1 & H2 & H3 & H4 & H5 & _).
  unfold round. cbn [isEscaped isEscapedObject negb andb bracketCount].
  unfold ESCAPING_SEQUENZES. cbn [List.find start startPrefix].
  rewrite H1, H2, H3, H4, H5. cbn [andb]. unfold delta.
  destruct (Ascii.eqb char open); [reflexivity|].
  destruct (Ascii.eqb char close); [reflexivity|].
  now rewrite Z.add_0_r.
Qed.

Lemma scan_plain open close r1 :
  forall seen t n,
    allChars plain r1 = true -> 1 <= n -> r1 <> "" ->
    scan open close seen (r1 +:+ t) (mkScan None false n) = Ok (seen +:+ r1) ->
    n + depth open close r1 = 0 /\
    forall k, (0 < k < String.length r1)%nat ->
      1 <= n + depth open close (take k r1).
Proof.
  induction r1 as [|char r1 IH]; intros seen t n Hall Hn Hne; [congruence|].
  cbn [allChars] in Hall. apply andb_true_iff in Hall as [Hc Hall].
  rewrite append_cons. cbn [scan]. rewrite (round_plain _ _ _ _ _ Hc).
  assert (delta open close char = 1 \/ delta open close char = -1 \/
          delta open close char = 0) as Hd.
  { unfold delta. destruct (Ascii.eqb char open); [now left|].
    destruct (Ascii.eqb char close); [right; now left|right; now right]. }
  destruct (n + delta open close char =? 0) eqn:E.
  - apply Z.eqb_eq in E.
    intros [= Heq]. rewrite <- (append_snoc seen char "") in Heq at 1.
    rewrite <- (append_snoc seen char r1) in Heq.
    apply append_inv_l in Heq. subst r1. cbn [depth String.length take].
    split; [lia|]. intros k Hk. lia.
  - intros Hs. rewrite <- (append_snoc seen char r1) in Hs.
    apply Z.eqb_neq in E.
    destruct r1 as [|c2 r2].
    + exfalso. apply scan_returns in Hs as (r1 & t0 & _ & Hne1 & Heq & _).
      rewrite append_nil_r in Heq.
      rewrite <- (append_nil_r (seen +:+ String char "")) in Heq at 1.
      apply append_inv_l in Heq. congruence.
    + assert (1 <= n + delta open close char) as Hn' by lia.
      destruct (IH _ _ _ Hall Hn' ltac:(discriminate) Hs) as [IH1 IH2].
      cbn [depth] in *. split; [lia|]. intros k Hk.
      destruct k as [|k]; [lia|]. cbn [take depth].
      destruct k as [|k]; [cbn [take depth]; lia|].
      specialize (IH2 (S k)). cbn [String.length] in *.
      specialize (IH2 ltac:(lia)). cbn [take depth] in *. lia.
Qed.

(** X10 -- on text without quotes, backticks, slashes and backslashes,
    what [cutAfterJS] returns is the shortest prefix in which the opening
    bracket the text starts with is balanced against its closing bracket:
    in [r] the two occur equally often, and in every shorter non-empty
    prefix of [r] the opening one occurs more often. *)
Theorem cutAfterJS_balanced :
  forall mixedJson r,
    cutAfterJS mixedJson = Ok r ->
    allChars plain r = true ->
    exists open close rest,
      ((open = "[" /\ close = "]") \/ (open = "{" /\ close = "}"))%char /\
      r = String open rest /\
      depth open close r = 0 /\
      forall k, (0 < k < String.length r)%nat -> 0 < depth open close (take k r).
Proof.
  intros mixedJson r Hcut Hplain.
  assert (forall open close rest,
            Ascii.eqb open open = true ->
            round open close "" open (mkScan None false 0) = Some (mkScan None false 1) ->
            scan open close "" (String open rest) (mkScan None false 0) = Ok r ->
            exists rest',
              r = String open rest' /\
              depth open close r = 0 /\
              forall k, (0 < k < String.length r)%nat ->
                0 < depth open close (take k r)) as Hgen.
  { intros open close rest Hoo Hfirst Hs.
    destruct (scan_returns _ _ _ _ _ _ Hs) as (r1 & t & Hrest & Hne & -> & _).
    rewrite append_nil_l in *.
    destruct r1 as [|c1 r1]; [congruence|]. rewrite append_cons in Hrest.
    injection Hrest as <- ->. exists r1. split; [reflexivity|].
    cbn [scan] in Hs. rewrite Hfirst in Hs. rewrite append_nil_l in Hs.
    cbn [allChars] in Hplain. apply andb_true_iff in Hplain as [_ Hplain].
    destruct r1 as [|c2 r2].
    - exfalso. apply scan_returns in Hs as (r1 & t0 & _ & Hne1 & Heq & _).
      rewrite <- (append_nil_r (String open "")) in Heq at 1.
      apply append_inv_l in Heq. congruence.
    - change (String open (String c2 r2)) with (String open "" +:+ String c2 r2) in Hs.
      destruct (scan_plain open close (String c2 r2) (String open "") t 1 Hplain
                  ltac:(lia) ltac:(discriminate) Hs) as [D1 D2].
      assert (delta open close open = 1) as Hd by (unfold delta; now rewrite Hoo).
      cbn [depth] in *. rewrite Hd. split; [lia|]. intros k Hk.
      destruct k as [|k]; [lia|]. cbn [take depth]. rewrite Hd.
      destruct k as [|k]; [cbn [take depth]; lia|].
      specialize (D2 (S k)). cbn [String.length] in *.
      specialize (D2 ltac:(lia)). cbn [take depth] in *. lia. }
  unfold cutAfterJS in Hcut. destruct mixedJson as [|firstChar rest]; [discriminate|].
  destruct (Ascii.eqb_spec firstChar "[") as [->|Hsq];
    [|destruct (Ascii.eqb_spec firstChar "{") as [->|Hcu]; [|discriminate]].
  - destruct (Hgen "["%char "]"%char rest eq_refl eq_refl Hcut) as (rest' & H1 & H2 & H3).
    exists "["%char, "]"%char, rest'. split; [left; now split|]. now split.
  - destruct (Hgen "{"%char "}"%char rest eq_refl eq_refl Hcut) as (rest' & H1 & H2 & H3).
    exists "{"%char, "}"%char, rest'. split; [right; now split|]. now split.
Qed.

Lemma cutAfterJS_prefix_witness :
  cutAfterJS "{a:[1,{b:2}]};var c = {};" = Ok "{a:[1,{b:2}]}" /\
  (exists t, "{a:[1,{b:2}]};var c = {};" = "{a:[1,{b:2}]}" +:+ t) /\
  ((exists body, "{a:[1,{b:2}]}" = "[" +:+ body +:+ "]") \/
   (exists body, "{a:[1,{b:2}]}" = "{" +:+ body +:+ "}")) /\
  (forall t', cutAfterJS ("{a:[1,{b:2}]}" +:+ t') = Ok "{a:[1,{b:2}]}") /\
  cutAfterJS "{a:[1,{b:2}]}" = Ok "{a:[1,{b:2}]}".
Proof.
  split; [reflexivity|].
  apply (cutAfterJS_prefix "{a:[1,{b:2}]};var c = {};" "{a:[1,{b:2}]}").
  reflexivity.
Defined.

Lemma cutAfterJS_balanced_witness :
  cutAfterJS "[[1,2],[3]],[4]" = Ok "[[1,2],[3]]" /\
  allChars plain "[[1,2],[3]]" = true /\
  exists open close rest,
    ((open = "[" /\ close = "]") \/ (open = "{" /\ close = "}"))%char /\
    "[[1,2],[3]]" = String open rest /\
    depth open close "[[1,2],[3]]" = 0 /\
    forall k, (0 < k < String.length "[[1,2],[3]]")%nat ->
              0 < depth open close (take k "[[1,2],[3]]").
Proof.
  split; [reflexivity|]. split; [reflexivity|].
  apply (cutAfterJS_balanced "[[1,2],[3]],[4]" "[[1,2],[3]]"); reflexivity.
Defined.

End UtilsTextFacts.

(* ===================================================================== *)
(** ** src/info.ts: [wrapWithCache] *)
(* ===================================================================== *)

Module InfoCache.
Import JsText UrlUtils Cache.

(** [[funcName, id, options.lang].join('-')]; [join] writes [undefined] as
    the empty string. *)
Definition cacheKey (funcName id : string) (lang : option string) : string :=
  funcName +:+ "-" +:+ id +:+ "-" +:+ default "" lang.

Section Wrap.
Variable newURL : string -> result URL.
Context {X : Type}.

(** A call [func(id, options)] of an async function: it is logged and
    returns the promise [p]. *)
Definition asyncCall (p : nat) : Producer X := mkProducer p (VPromise p).

(** The function [wrapWithCache(funcName, func)] returns, applied to a link
    and the [lang] option: what its promise is settled with -- the value
    [getOrSet] returned, or the error of [getVideoID] -- and the cache
    afterwards.  [func id lang] is the promise a call [func(id, options)]
    would return.  ([checkForUpdates] is started and not waited for.) *)
Definition wrapWithCache (funcName : string) (func : string -> option string -> nat)
    (link : string) (lang : option string) (s : State string X)
    : result (Value X) * State string X :=
  match getVideoID newURL link with
  | Throw e => (Throw e, s)
  | Ok id =>
      let '(v, s) := getOrSet (cacheKey funcName id lang) (asyncCall (func id lang)) s in
      (Ok v, s)
  end.

End Wrap.

End InfoCache.

Module InfoCacheFacts.
Import JsText JsTextFacts UtilsTextFacts UrlUtils UrlUtilsFacts Cache InfoCache.

Lemma append_eq_cases a b x y :
  a +:+ x = b +:+ y ->
  (exists c, b = a +:+ c /\ x = c +:+ y) \/ (exists c, a = b +:+ c /\ y = c +:+ x).
Proof.
  revert b. induction a as [|p a IH]; intros b.
  - rewrite append_nil_l. intros ->. left. now exists b.
  - destruct b as [|q b].
    + rewrite append_nil_l. intros <-. right. now exists (String p a).
    + rewrite !append_cons. intros [= <- Heq].
      destruct (IH b Heq) as [(c & -> & ->)|(c & -> & ->)]; [left|right];
        exists c; now rewrite append_cons.
Qed.

Lemma trimStart_app a x : trimStart a <> "" -> trimStart (a +:+ x) = trimStart a +:+ x.
Proof.
  induction a as [|c a IH]; [now cbn|]. rewrite append_cons. cbn [trimStart].
  destruct (isWhiteSpace c); [exact IH|]. intros _. now rewrite append_cons.
Qed.

Lemma trimEnd_app_length a c y :
  isWhiteSpace c = false ->
  (String.length a + 1 <= String.length (trimEnd (a +:+ String c y)))%nat.
Proof.
  intros Hc. induction a as [|d a IH].
  - rewrite append_nil_l. cbn [trimEnd]. rewrite Hc. cbn. lia.
  - rewrite append_cons. cbn [trimEnd].
    destruct (trimEnd (a +:+ String c y)) as [|e r] eqn:E.
    + cbn [String.length] in IH. lia.
    + rewrite andb_false_r. cbn [String.length] in *. lia.
Qed.

(** A string that [validateID] accepts is not continued by a hyphen and
    more to one that it accepts too. *)
Lemma validateID_no_hyphen_after a c :
  validateID a = true -> validateID (a +:+ String "-" c) = false.
Proof.
  unfold validateID, idRegex, trim. intros Ha.
  apply andb_true_iff in Ha as [Hl _]. apply Nat.eqb_eq in Hl.
  assert (trimStart a <> "") as Hne by (intros E; rewrite E in Hl; discriminate).
  rewrite (trimStart_app _ _ Hne).
  pose proof (trimEnd_app_length (trimStart a) "-" c eq_refl) as Hge.
  destruct (trimEnd_length (trimStart a)) as [Hle _].
  apply andb_false_iff. left. apply Nat.eqb_neq. lia.
Qed.

Lemma cacheKey_id_lang id id' l l' :
  validateID id = true -> validateID id' = true ->
  id +:+ "-" +:+ l = id' +:+ "-" +:+ l' -> id = id' /\ l = l'.
Proof.
  intros Hv Hv' Heq.
  assert (id = id') as <-.
  { destruct (append_eq_cases _ _ _ _ Heq) as [(c & Hc & Hx)|(c & Hc & Hx)];
      (destruct c as [|d c]; [now rewrite append_nil_r in Hc|]);
      rewrite !append_cons, append_nil_l in Hx; injection Hx as <- _; exfalso.
    - rewrite Hc, (validateID_no_hyphen_after _ _ Hv) in Hv'. discriminate.
    - rewrite Hc, (validateID_no_hyphen_after _ _ Hv') in Hv. discriminate. }
  split; [reflexivity|]. apply append_inv_l in Heq.
  rewrite !append_cons, !append_nil_l in Heq. congruence.
Qed.

Section Wrap.
Variable newURL : string -> result URL.
Context {X : Type}.

Lemma getOrSet_then_cached key (p : nat) (s : State string X) :
  has key s = false ->
  let s1 := snd (getOrSet key (asyncCall p) s) in
  fst (getOrSet key (asyncCall p) s) = VPromise p /\
  invoked s1 = p :: invoked s /\
  forall q, getOrSet key (asyncCall q) s1 = (VPromise p, s1).
Proof.
  intros Hhas. cbv zeta. rewrite (CacheFacts.getOrSet_miss key (asyncCall p) s Hhas).
  cbn [fst snd asyncCall returns pid watch].
  split; [reflexivity|]. split; [reflexivity|].
  intros q.
  apply (CacheFacts.getOrSet_hit key (asyncCall q) _ (mkEntry (nextTid s) (VPromise p))).
  - cbn [cache]. apply lookup_insert_eq.
  - discriminate.
Qed.

(** X28 -- the wrapped [getInfo] and [getBasicInfo] share cached results
    exactly between calls for the same function, video id and language.
    A link in which [getVideoID] finds no id rejects with that error and
    leaves the cache as it is; two keys are equal only when function name,
    id and language (an absent one counting as empty) are; and while an
    entry is in the cache, a call for the same function, id and language
    gets the promise of the first call without [func] being called again. *)
Theorem wrapWithCache_shares_by_id_and_lang :
  forall (func : string -> option string -> nat),
    (forall funcName link lang (s : State string X) e,
       getVideoID newURL link = Throw e ->
       wrapWithCache newURL funcName func link lang s = (Throw e, s)) /\
    (forall funcName funcName' link link' id id' lang lang',
       In funcName ["getBasicInfo"; "getInfo"] ->
       In funcName' ["getBasicInfo"; "getInfo"] ->
       getVideoID newURL link = Ok id -> getVideoID newURL link' = Ok id' ->
       cacheKey funcName id lang = cacheKey funcName' id' lang' ->
       funcName = funcName' /\ id = id' /\ default "" lang = default "" lang') /\
    (forall funcName link link' id lang lang' (s : State string X),
       getVideoID newURL link = Ok id -> getVideoID newURL link' = Ok id ->
       default "" lang = default "" lang' ->
       has (cacheKey funcName id lang) s = false ->
       let first := wrapWithCache newURL funcName func link lang s in
       let second := wrapWithCache newURL funcName func link' lang' (snd first) in
       fst first = Ok (VPromise (func id lang)) /\
       invoked (snd first) = func id lang :: invoked s /\
       second = (Ok (VPromise (func id lang)), snd first)).
Proof.
  intros func. split; [|split].
  - intros funcName link lang s e He. unfold wrapWithCache. now rewrite He.
  - intros funcName funcName' link link' id id' lang lang' Hf Hf' Hid Hid' Hkey.
    apply getVideoID_valid in Hid, Hid'.
    assert (funcName = funcName') as <-.
    { unfold cacheKey in Hkey.
      destruct Hf as [<-|[<-|[]]], Hf' as [<-|[<-|[]]];
        try reflexivity; rewrite !append_cons in Hkey; discriminate. }
    split; [reflexivity|]. unfold cacheKey in Hkey.
    apply append_inv_l in Hkey.
    rewrite !append_cons, !append_nil_l in Hkey. injection Hkey as Hkey.
    apply (cacheKey_id_lang id id' _ _ Hid Hid' Hkey).
  - intros funcName link link' id lang lang' s Hid Hid' Hlang Hhas. cbv zeta.
    unfold wrapWithCache. rewrite Hid, Hid'.
    assert (cacheKey funcName id lang' = cacheKey funcName id lang) as ->
        by (unfold cacheKey; now rewrite Hlang).
    destruct (getOrSet_then_cached (cacheKey funcName id lang) (func id lang) s Hhas)
      as (H1 & H2 & H3). cbv zeta in *.
    destruct (getOrSet (cacheKey funcName id lang) (asyncCall (func id lang)) s)
      as [v s1] eqn:E. cbn [fst snd] in *. subst v.
    split; [reflexivity|]. split; [exact H2|]. now rewrite H3.
Qed.

End Wrap.

End InfoCacheFacts.

(* ===================================================================== *)
(** ** src/utils.ts: the header helpers *)
(* ===================================================================== *)

Module UtilsProps.
Import JsText.

(** An object used as a map from names to values, as an object literal
    makes it: an ordinary object whose prototype is [Object.prototype], here
    its own properties in insertion order, no name twice.  ([Object.keys]
    lists names that are canonical array indices first; such a name equals
    its lower-case form, so at most one property matches it and the order
    does not show in [find] below.)  The values are primitives, as header
    values are. *)
Definition Obj (V : Type) := list (string * V).

Section Objects.
Context {V : Type}.

(** [obj[key]] *)
Fixpoint objGet (key : string) (obj : Obj V) : option V :=
  match obj with
  | [] => None
  | (k, v) :: rest => if String.eqb k key then Some v else objGet key rest
  end.

(** The own property [key] of [obj] defined as [value]
    ([CreateDataProperty], which object spread performs): an existing
    property keeps its place, a new one goes last. *)
Fixpoint objSet (key : string) (value : V) (obj : Obj V) : Obj V :=
  match obj with
  | [] => [(key, value)]
  | (k, v) :: rest =>
      if String.eqb k key then (k, value) :: rest
      else (k, v) :: objSet key value rest
  end.

(** [Object.keys(obj).includes(key)] *)
Definition hasOwn (key : string) (obj : Obj V) : bool :=
  existsb (String.eqb key) (map fst obj).

(** [obj[key] = value].  An assignment defines the own property, except
    for the name [__proto__] on an object that has no own property of that
    name: the assignment then reaches the setter that [Object.prototype]
    holds under this name, which leaves the own properties as they are.
    (No other property of [Object.prototype] has a setter or is
    read-only.) *)
Definition objAssign (key : string) (value : V) (obj : Obj V) : Obj V :=
  if String.eqb key "__proto__" && negb (hasOwn key obj) then obj
  else objSet key value obj.

(** [{ ...a, ...b }] on top of [a] *)
Definition spread (a b : Obj V) : Obj V :=
  fold_left (fun acc kv => objSet (fst kv) (snd kv) acc) b a.

End Objects.

(** [s.toLowerCase()] for a string of ASCII characters: the letters [A]
    to [Z] go to [a] to [z] and nothing else changes.  On other strings
    [String.prototype.toLowerCase] does more (it folds the letters of every
    script, the Kelvin sign for one to the ASCII letter [k]); the statements
    about names below are for ASCII names, as header names are. *)
Definition lowerChar (c : ascii) : ascii :=
  let n := nat_of_ascii c in
  if ((65 <=? n) && (n <=? 90))%nat then ascii_of_nat (n + 32) else c.

Fixpoint toLowerCase (s : string) : string :=
  match s with
  | EmptyString => EmptyString
  | String c r => String (lowerChar c) (toLowerCase r)
  end.

(** Every character of [s] is an ASCII character. *)
Definition isAscii (s : string) : bool :=
  allChars (fun c => (nat_of_ascii c <? 128)%nat) s.

Section Props.
Context {V : Type}.

(** [obj] is [None] for [null] or [undefined]. *)
Definition findPropKeyInsensitive (obj : option (Obj V)) (prop : string) : option string :=
  match obj with
  | None => None
  | Some obj =>
      if String.eqb prop "" then None
      else
        let lowerProp := toLowerCase prop in
        match List.find (fun kv => String.eqb (toLowerCase (fst kv)) lowerProp) obj with
        | Some (key, _) => if String.eqb key "" then None else Some key
        | None => None
        end
  end.

Definition getPropInsensitive (obj : option (Obj V)) (prop : string) : option V :=
  match obj with
  | None => None
  | Some o =>
      match findPropKeyInsensitive obj prop with
      | Some actualKey => objGet actualKey o
      | None => None
      end
  end.

(** [setPropInsensitive] assigns in place; here it returns the key it used
    and the object after the assignment. *)
Definition setPropInsensitive (obj : option (Obj V)) (prop : string) (value : V)
    : option string * option (Obj V) :=
  match obj with
  | None => (None, obj)
  | Some o =>
      if String.eqb prop "" then (None, obj)
      else
        let keyToUse := default prop (findPropKeyInsensitive obj prop) in
        (Some keyToUse, Some (objAssign keyToUse value o))
  end.

End Props.

Definition defaultUserAgent : string :=
  "Mozilla/5.0 (Windows NT 10.0; Win64; x64) AppleWebKit/537.36 (KHTML, like Gecko) Chrome/87.0.4280.101 Safari/537.36".

(** The headers [applyDefaultHeaders] leaves in [options.requestOptions],
    from the ones it finds there ([None] when there are none). *)
Definition applyDefaultHeaders (headers : option (Obj string)) : Obj string :=
  spread [("User-Agent", defaultUserAgent)] (default [] headers).

End UtilsProps.

Module UtilsPropsFacts.
Import JsText UtilsProps.

Section Objects.
Context {V : Type}.
Implicit Types (obj o : Obj V).

Lemma objGet_objSet_same key value obj : objGet key (objSet key value obj) = Some value.
Proof.
  induction obj as [|[k v] rest IH]; cbn [objSet objGet].
  - now rewrite String.eqb_refl.
  - destruct (String.eqb k key) eqn:E; cbn [objGet]; rewrite E; [reflexivity|exact IH].
Qed.

Lemma objGet_objSet_other key key' value obj :
  key' <> key -> objGet key' (objSet key value obj) = objGet key' obj.
Proof.
  intros Hne. induction obj as [|[k v] rest IH]; cbn [objSet objGet].
  - destruct (String.eqb_spec key key'); [congruence|reflexivity].
  - destruct (String.eqb_spec k key) as [->|Hk]; cbn [objGet].
    + destruct (String.eqb_spec key key'); [congruence|reflexivity].
    + destruct (String.eqb k key'); [reflexivity|exact IH].
Qed.

(** An assignment defines the own property for every name but
    [__proto__], and for that one too when the object has it already. *)
Lemma objAssign_objSet key value obj :
  key <> "__proto__" \/ hasOwn key obj = true ->
  objAssign key value obj = objSet key value obj.
Proof.
  unfold objAssign. intros [Hk|Hown].
  - apply String.eqb_neq in Hk. now rewrite Hk.
  - rewrite Hown. now rewrite andb_false_r.
Qed.

Lemma objAssign_proto value obj :
  hasOwn "__proto__" obj = false -> objAssign "__proto__" value obj = obj.
Proof. intros Hown. unfold objAssign. now rewrite Hown. Qed.

(** A property of the names of an object. *)
Lemma Forall_names (P : string -> Prop) obj :
  Forall (fun kv => P (fst kv)) obj <-> Forall P (map fst obj).
Proof. symmetry. apply Forall_map. Qed.

Lemma hasOwn_In key obj : hasOwn key obj = true <-> In key (map fst obj).
Proof.
  unfold hasOwn. rewrite existsb_exists. split.
  - intros (k & Hin & Hk). apply String.eqb_eq in Hk. now subst.
  - intros Hin. exists key. split; [exact Hin|apply String.eqb_refl].
Qed.

(** The names of an object once a property is defined: as before when the name was
    there, else with the name added at the end. *)
Lemma keys_objSet key value obj :
  map fst (objSet key value obj) =
  if existsb (String.eqb key) (map fst obj) then map fst obj
  else (map fst obj ++ [key])%list.
Proof.
  induction obj as [|[k v] rest IH]; cbn [objSet map fst existsb app]; [reflexivity|].
  rewrite (String.eqb_sym key k).
  destruct (String.eqb k key) eqn:E; cbn [map fst orb]; [reflexivity|].
  rewrite IH. now destruct (existsb _ _).
Qed.

Lemma find_key_In (p : string -> bool) obj k v :
  List.find (fun kv => p (fst kv)) obj = Some (k, v) -> In k (map fst obj) /\ p k = true.
Proof.
  intros Hf. apply find_some in Hf as [Hin Hp]. split; [|exact Hp].
  apply in_map_iff. now exists (k, v).
Qed.

(** [find] on the names only looks at the names. *)
Lemma find_keys (p : string -> bool) obj obj' :
  map fst obj = map fst obj' ->
  option_map fst (List.find (fun kv => p (fst kv)) obj) =
  option_map fst (List.find (fun kv => p (fst kv)) obj').
Proof.
  revert obj'. induction obj as [|[k v] rest IH]; intros [|[k' v'] rest'];
    cbn [map fst List.find]; try discriminate; [reflexivity|].
  intros [= <- Hrest]. destruct (p k); [reflexivity|]. now apply IH.
Qed.

End Objects.

Lemma toLowerCase_empty s : toLowerCase s = "" -> s = "".
Proof. now destruct s. Qed.

Section Props.
Context {V : Type}.
Implicit Types (o : Obj V).

(** What [findPropKeyInsensitive] finds is the first name of the object
    that equals [prop] in lower case. *)
Lemma findPropKeyInsensitive_spec o prop :
  prop <> "" ->
  findPropKeyInsensitive (Some o) prop =
  option_map fst
    (List.find (fun kv => String.eqb (toLowerCase (fst kv)) (toLowerCase prop)) o).
Proof.
  intros Hp. unfold findPropKeyInsensitive.
  destruct (String.eqb_spec prop ""); [congruence|].
  destruct (List.find _ o) as [[k v]|] eqn:Hf; [|reflexivity].
  destruct (String.eqb_spec k "") as [->|]; [|reflexivity].
  apply find_some in Hf as [_ Hl]. cbn [fst toLowerCase] in Hl. apply String.eqb_eq in Hl.
  symmetry in Hl. apply toLowerCase_empty in Hl. congruence.
Qed.

Lemma find_app_none (p : string * V -> bool) o kv :
  List.find p o = None -> List.find p (o ++ [kv]) = if p kv then Some kv else None.
Proof.
  induction o as [|x o IH]; cbn [List.find app]; [reflexivity|].
  destruct (p x); [discriminate|exact IH].
Qed.

Lemma find_app_some (p : string * V -> bool) o o' x :
  List.find p o = Some x -> List.find p (o ++ o') = Some x.
Proof.
  induction o as [|y o IH]; cbn [List.find app]; [discriminate|].
  destruct (p y); [tauto|exact IH].
Qed.

Lemma find_none_not_key (prop : string) o :
  List.find (fun kv => String.eqb (toLowerCase (fst kv)) (toLowerCase prop)) o = None ->
  existsb (String.eqb prop) (map fst o) = false.
Proof.
  induction o as [|[k v] o IH]; cbn [List.find map fst existsb]; [reflexivity|].
  destruct (String.eqb_spec (toLowerCase k) (toLowerCase prop)) as [|Hne]; [discriminate|].
  intros Hf. rewrite (IH Hf), orb_false_r.
  destruct (String.eqb_spec prop k) as [->|]; [congruence|reflexivity].
Qed.

(** Some name of the object equals [prop] in lower case exactly when
    [findPropKeyInsensitive] finds one. *)
Lemma findPropKeyInsensitive_matched o prop :
  prop <> "" ->
  (exists k, In k (map fst o) /\ toLowerCase k = toLowerCase prop) <->
  findPropKeyInsensitive (Some o) prop <> None.
Proof.
  intros Hp. rewrite findPropKeyInsensitive_spec by exact Hp.
  destruct (List.find _ o) as [[k v]|] eqn:Hf; cbn [option_map]; split.
  - discriminate.
  - intros _. apply (find_key_In (fun k => String.eqb (toLowerCase k) (toLowerCase prop)))
      in Hf as [Hin Hl].
    exists k. split; [exact Hin|now apply String.eqb_eq].
  - intros (k & Hin & Hl). apply in_map_iff in Hin as ([k' v'] & <- & Hin).
    eapply find_none in Hf; [|exact Hin]. cbn [fst] in Hf. apply String.eqb_neq in Hf.
    cbn [fst] in Hl. congruence.
  - congruence.
Qed.

(** The object after [setPropInsensitive(obj, prop, value)] when the
    assignment defines a property: the first name that equals [prop] in lower
    case takes the value, and without one the property [prop] is added at the
    end. *)
Lemma setPropInsensitive_spec o prop (value : V) :
  prop <> "" ->
  prop <> "__proto__" \/ findPropKeyInsensitive (Some o) prop <> None ->
  exists key o',
    setPropInsensitive (Some o) prop value = (Some key, Some o') /\
    o' = objSet key value o /\
    toLowerCase key = toLowerCase prop /\
    findPropKeyInsensitive (Some o') prop = Some key /\
    (map fst o' = map fst o \/
     (findPropKeyInsensitive (Some o) prop = None /\ key = prop /\
      map fst o' = (map fst o ++ [prop])%list)).
Proof.
  intros Hp Hcase. unfold setPropInsensitive.
  destruct (String.eqb_spec prop ""); [congruence|].
  rewrite !findPropKeyInsensitive_spec in * by exact Hp.
  set (p := fun kv : string * V => String.eqb (toLowerCase (fst kv)) (toLowerCase prop)) in *.
  destruct (List.find p o) as [[k v]|] eqn:Hf; cbn [option_map fst default] in *.
  - pose proof Hf as Hf'. apply (find_key_In (fun k => String.eqb (toLowerCase k)
                                   (toLowerCase prop))) in Hf' as [Hin Hl].
    rewrite objAssign_objSet by (right; now apply hasOwn_In).
    exists k, (objSet k value o). split; [reflexivity|]. split; [reflexivity|].
    apply String.eqb_eq in Hl. split; [exact Hl|].
    assert (map fst (objSet k value o) = map fst o) as Hkeys.
    { rewrite keys_objSet.
      assert (existsb (String.eqb k) (map fst o) = true) as ->; [|reflexivity].
      apply existsb_exists. exists k. split; [exact Hin|apply String.eqb_refl]. }
    split; [|now left].
    rewrite findPropKeyInsensitive_spec by exact Hp. fold p.
    pose proof (find_keys (fun k => String.eqb (toLowerCase k) (toLowerCase prop))
                  _ _ Hkeys) as Hsame.
    cbn beta in Hsame. fold p in Hsame. rewrite Hsame, Hf. reflexivity.
  - destruct Hcase as [Hcase|Hcase]; [|congruence].
    rewrite objAssign_objSet by now left.
    exists prop, (objSet prop value o). split; [reflexivity|]. split; [reflexivity|].
    split; [reflexivity|].
    assert (map fst (objSet prop value o) = (map fst o ++ [prop])%list) as Hkeys.
    { rewrite keys_objSet. now rewrite (find_none_not_key _ _ Hf). }
    split; [|right; now repeat split].
    rewrite findPropKeyInsensitive_spec by exact Hp. fold p.
    assert (map fst (objSet prop value o) = map fst (o ++ [(prop, value)])) as Hk2.
    { rewrite Hkeys, map_app. reflexivity. }
    pose proof (find_keys (fun k => String.eqb (toLowerCase k) (toLowerCase prop))
                  _ _ Hk2) as Hsame.
    cbn beta in Hsame. fold p in Hsame. rewrite Hsame.
    rewrite (find_app_none p o (prop, value) Hf). unfold p at 1. cbn [fst].
    now rewrite String.eqb_refl.
Qed.

(** [setPropInsensitive(obj, '__proto__', value)] on an object without a
    name that matches: nothing is added, and the name is returned all the
    same. *)
Lemma setPropInsensitive_proto o (value : V) :
  findPropKeyInsensitive (Some o) "__proto__" = None ->
  setPropInsensitive (Some o) "__proto__" value = (Some "__proto__", Some o).
Proof.
  intros Hnone. unfold setPropInsensitive. cbn [String.eqb Ascii.eqb Bool.eqb].
  rewrite Hnone. cbn [default]. rewrite objAssign_proto; [reflexivity|].
  rewrite findPropKeyInsensitive_spec in Hnone by discriminate.
  destruct (List.find _ o) eqn:Hf; [discriminate|].
  exact (find_none_not_key _ _ Hf).
Qed.

(** X11 -- for ASCII names, as header names are: after
    [setPropInsensitive(obj, prop, value)] with a non-empty [prop],
    [getPropInsensitive] gives [value] for every name that equals [prop] up
    to the case of its letters, and gives what it gave before for every
    other name.  The one exception is [prop] = [__proto__] on an object
    none of whose names matches it: that assignment adds no property and the
    object stays as it was. *)
Theorem getPropInsensitive_after_set :
  forall o prop (value : V),
    prop <> "" ->
    isAscii prop = true ->
    Forall (fun kv => isAscii (fst kv) = true) o ->
    let obj' := snd (setPropInsensitive (Some o) prop value) in
    let matched := exists k, In k (map fst o) /\ toLowerCase k = toLowerCase prop in
    (prop <> "__proto__" \/ matched ->
     (forall prop', isAscii prop' = true -> toLowerCase prop' = toLowerCase prop ->
        getPropInsensitive obj' prop' = Some value) /\
     (forall prop', isAscii prop' = true -> toLowerCase prop' <> toLowerCase prop ->
        getPropInsensitive obj' prop' = getPropInsensitive (Some o) prop')) /\
    (prop = "__proto__" -> ~ matched -> obj' = Some o).
Proof.
  intros o prop value Hp _ _ obj' matched. split.
  - intros Hcase.
    assert (prop <> "__proto__" \/ findPropKeyInsensitive (Some o) prop <> None) as Hcase'.
    { destruct Hcase as [Hcase|Hcase]; [now left|right].
      now apply findPropKeyInsensitive_matched. }
    destruct (setPropInsensitive_spec o prop value Hp Hcase')
      as (key & o' & Hset & Ho' & Hkey & Hfind & Hkeys).
    subst obj'. rewrite Hset. cbn [snd]. split.
    + intros prop' _ Hl.
      assert (prop' <> "") as Hp'.
      { intros ->. cbn [toLowerCase] in Hl. symmetry in Hl.
        apply toLowerCase_empty in Hl. congruence. }
      unfold getPropInsensitive.
      rewrite findPropKeyInsensitive_spec by exact Hp'. rewrite Hl.
      rewrite <- findPropKeyInsensitive_spec by exact Hp. rewrite Hfind.
      subst o'. apply objGet_objSet_same.
    + intros prop' _ Hl. unfold getPropInsensitive.
      destruct (String.eqb_spec prop' "") as [->|Hp'].
      { unfold findPropKeyInsensitive. reflexivity. }
      rewrite !findPropKeyInsensitive_spec by exact Hp'.
      set (p := fun kv : string * V => String.eqb (toLowerCase (fst kv)) (toLowerCase prop')).
      assert (forall k, p (k, value) = true -> k <> key) as Hother.
      { intros k Hk ->. unfold p in Hk. cbn [fst] in Hk. apply String.eqb_eq in Hk.
        congruence. }
      destruct Hkeys as [Hkeys|(Hnone & -> & Hkeys)].
      * pose proof (find_keys (fun k => String.eqb (toLowerCase k) (toLowerCase prop'))
                      _ _ Hkeys) as Hsame.
        cbn beta in Hsame. fold p in Hsame. rewrite Hsame.
        destruct (List.find p o) as [[k v]|] eqn:Hf; cbn [option_map fst]; [|reflexivity].
        subst o'. apply objGet_objSet_other.
        apply find_some in Hf as [_ Hk]. apply Hother. exact Hk.
      * assert (map fst o' = map fst (o ++ [(prop, value)])) as Hk2.
        { rewrite Hkeys, map_app. reflexivity. }
        pose proof (find_keys (fun k => String.eqb (toLowerCase k) (toLowerCase prop'))
                      _ _ Hk2) as Hsame.
        cbn beta in Hsame. fold p in Hsame. rewrite Hsame.
        destruct (List.find p o) as [[k v]|] eqn:Hf.
        -- rewrite (find_app_some p o _ _ Hf). cbn [option_map fst].
           subst o'. apply objGet_objSet_other.
           apply find_some in Hf as [_ Hk]. apply Hother. exact Hk.
        -- rewrite (find_app_none p o _ Hf).
           assert (p (prop, value) = false) as ->; [|reflexivity].
           unfold p. cbn [fst]. apply String.eqb_neq. congruence.
  - intros -> Hnot. subst obj'. rewrite setPropInsensitive_proto; [reflexivity|].
    destruct (findPropKeyInsensitive (Some o) "__proto__") eqn:Hf; [|reflexivity].
    exfalso. apply Hnot. apply findPropKeyInsensitive_matched; [discriminate|].
    now rewrite Hf.
Qed.

(** X12 -- for ASCII names, as header names are: [setPropInsensitive]
    never makes two names that differ only in the case of their letters.
    When no two names of [obj] are equal in lower case, the same holds after
    the call, the names are still ASCII names and the object has at most one
    name more; the name the call returns equals [prop] up to the case of its
    letters and is the one it assigned to: it holds [value] afterwards,
    except that for [__proto__] on an object without a property of that name
    the assignment adds nothing and the object stays as it was. *)
Theorem setPropInsensitive_keeps_names_distinct :
  forall o prop (value : V),
    prop <> "" ->
    isAscii prop = true ->
    Forall (fun kv => isAscii (fst kv) = true) o ->
    NoDup (map (fun kv => toLowerCase (fst kv)) o) ->
    exists key o',
      setPropInsensitive (Some o) prop value = (Some key, Some o') /\
      toLowerCase key = toLowerCase prop /\
      (In key (map fst o) \/ key <> "__proto__" -> objGet key o' = Some value) /\
      (~ In key (map fst o) -> key = "__proto__" -> o' = o) /\
      NoDup (map (fun kv => toLowerCase (fst kv)) o') /\
      Forall (fun kv => isAscii (fst kv) = true) o' /\
      (length o' <= length o + 1)%nat.
Proof.
  intros o prop value Hp Hascii Hall Hnd.
  destruct (String.eqb_spec prop "__proto__") as [->|Hproto].
  - destruct (findPropKeyInsensitive (Some o) "__proto__") as [k|] eqn:Hfound.
    + (* a name matches: it takes the value *)
      destruct (setPropInsensitive_spec o "__proto__" value Hp)
        as (key & o' & Hset & Ho' & Hkey & Hfind & Hkeys);
        [right; now rewrite Hfound|].
      destruct Hkeys as [Hkeys|(Hnone & _)]; [|congruence].
      exists key, o'. split; [exact Hset|]. split; [exact Hkey|].
      split; [intros _; subst o'; apply objGet_objSet_same|].
      split.
      { intros Hnot Hk. exfalso. apply Hnot.
        rewrite findPropKeyInsensitive_spec in Hfind by exact Hp.
        destruct (List.find _ o') as [[k' v']|] eqn:Hf; [|discriminate].
        cbn [option_map fst] in Hfind. injection Hfind as ->.
        apply (find_key_In (fun k => String.eqb (toLowerCase k) (toLowerCase "__proto__")))
          in Hf as [Hin _].
        now rewrite <- Hkeys. }
      assert (forall l : Obj V, map (fun kv => toLowerCase (fst kv)) l
                                = map toLowerCase (map fst l)) as Hmap.
      { intros l. now rewrite map_map. }
      rewrite Hmap in *. rewrite Hkeys.
      split; [exact Hnd|]. split.
      * apply (Forall_names (fun k => isAscii k = true)). rewrite Hkeys.
        now apply (Forall_names (fun k => isAscii k = true)).
      * assert (length o' = length (map fst o')) as -> by now rewrite length_map.
        rewrite Hkeys, length_map. lia.
    + (* no name matches: nothing is added *)
      exists "__proto__", o. split; [now apply setPropInsensitive_proto|].
      split; [reflexivity|]. split.
      { intros [Hin|Hne]; [|congruence]. exfalso.
        assert (findPropKeyInsensitive (Some o) "__proto__" <> None) as Hsome; [|congruence].
        apply findPropKeyInsensitive_matched; [exact Hp|]. now exists "__proto__". }
      split; [reflexivity|]. split; [exact Hnd|]. split; [exact Hall|lia].
  - destruct (setPropInsensitive_spec o prop value Hp)
      as (key & o' & Hset & Ho' & Hkey & Hfind & Hkeys); [now left|].
    exists key, o'. split; [exact Hset|]. split; [exact Hkey|].
    split; [intros _; subst o'; apply objGet_objSet_same|].
    split.
    { intros Hnot Hk. exfalso. destruct Hkeys as [Hkeys|(Hnone & -> & Hkeys)]; [|congruence].
      apply Hnot. rewrite findPropKeyInsensitive_spec in Hfind by exact Hp.
      destruct (List.find _ o') as [[k' v']|] eqn:Hf; [|discriminate].
      cbn [option_map fst] in Hfind. injection Hfind as ->.
      apply (find_key_In (fun k => String.eqb (toLowerCase k) (toLowerCase prop)))
        in Hf as [Hin _].
      now rewrite <- Hkeys. }
    assert (forall l : Obj V, map (fun kv => toLowerCase (fst kv)) l
                              = map toLowerCase (map fst l)) as Hmap.
    { intros l. now rewrite map_map. }
    rewrite Hmap in *.
    assert (length o' = length (map fst o')) as Hlen by now rewrite length_map.
    destruct Hkeys as [Hkeys|(Hnone & -> & Hkeys)].
    + rewrite Hkeys. split; [exact Hnd|]. split.
      * apply (Forall_names (fun k => isAscii k = true)). rewrite Hkeys.
        now apply (Forall_names (fun k => isAscii k = true)).
      * rewrite Hlen, Hkeys, length_map. lia.
    + rewrite Hkeys. split; [|split].
      * rewrite map_app. cbn [map]. apply NoDup_app. split; [exact Hnd|].
        split; [|apply NoDup_singleton].
        intros x Hx Hx'. apply list_elem_of_singleton in Hx'. subst x.
        rewrite findPropKeyInsensitive_spec in Hnone by exact Hp.
        destruct (List.find _ o) as [kv|] eqn:Hf; [discriminate|].
        apply list_elem_of_In in Hx. apply in_map_iff in Hx as (k & Hk & Hin).
        apply in_map_iff in Hin as ([k' v'] & <- & Hin).
        eapply find_none in Hf; [|exact Hin]. cbn [fst] in Hf.
        apply String.eqb_neq in Hf. cbn [fst] in Hk. congruence.
      * apply (Forall_names (fun k => isAscii k = true)). rewrite Hkeys.
        apply Forall_app. split.
        -- now apply (Forall_names (fun k => isAscii k = true)).
        -- constructor; [exact Hascii|constructor].
      * rewrite Hlen, Hkeys, length_app, length_map. cbn [length]. lia.
Qed.

End Props.

Lemma objGet_not_key {V} key (obj : Obj V) :
  ~ In key (map fst obj) -> objGet key obj = None.
Proof.
  induction obj as [|[k v] rest IH]; cbn [objGet map fst In]; [reflexivity|].
  intros Hn. destruct (String.eqb_spec k key); [tauto|]. apply IH. tauto.
Qed.

(** [{ ...a, ...b }]: a property of [b] wins over one of [a]. *)
Lemma objGet_spread {V} key (a b : Obj V) :
  NoDup (map fst b) ->
  objGet key (spread a b) =
  match objGet key b with
  | Some v => Some v
  | None => objGet key a
  end.
Proof.
  unfold spread. revert a. induction b as [|[k v] b IH]; intros a Hnd;
    cbn [fold_left objGet fst snd map]; [reflexivity|].
  cbn [map fst] in Hnd. apply NoDup_cons in Hnd as [Hk Hnd].
  rewrite IH by exact Hnd.
  destruct (String.eqb_spec k key) as [->|Hne].
  - rewrite objGet_not_key; [apply objGet_objSet_same|].
    intros Hin. apply Hk. now apply list_elem_of_In.
  - destruct (objGet key b); [reflexivity|]. apply objGet_objSet_other. congruence.
Qed.

(** The first property of [a] stays the first one of [{ ...a, ...b }]. *)
Lemma spread_head {V} k v (a b : Obj V) :
  exists v' rest, spread ((k, v) :: a) b = (k, v') :: rest.
Proof.
  unfold spread. revert v a. induction b as [|[k0 v0] b IH]; intros v a;
    cbn [fold_left fst snd objSet]; [now exists v, a|].
  destruct (String.eqb k k0); apply IH.
Qed.

(** X13 -- [applyDefaultHeaders] keeps every header the caller gave, with
    its value, and adds [User-Agent] with the default value unless the caller
    gave a header of exactly that name.  The [User-Agent] property is the
    first one of the result, so a case-insensitive lookup of [user-agent]
    reads it, also when the caller gave the header in another spelling. *)
Theorem applyDefaultHeaders_spec :
  forall headers : Obj string,
    NoDup (map fst headers) ->
    let h := applyDefaultHeaders (Some headers) in
    (forall k v, objGet k headers = Some v -> objGet k h = Some v) /\
    (objGet "User-Agent" headers = None ->
     objGet "User-Agent" h = Some defaultUserAgent) /\
    (forall k, k <> "User-Agent" -> objGet k h = objGet k headers) /\
    getPropInsensitive (Some h) "user-agent" = objGet "User-Agent" h.
Proof.
  intros headers Hnd h. subst h. unfold applyDefaultHeaders.
  change (default [] (Some headers)) with headers.
  split; [|split; [|split]].
  - intros k v Hk. rewrite objGet_spread by exact Hnd. now rewrite Hk.
  - intros Hk. rewrite objGet_spread by exact Hnd. now rewrite Hk.
  - intros k Hk. rewrite objGet_spread by exact Hnd.
    destruct (objGet k headers); [reflexivity|].
    cbn [objGet]. destruct (String.eqb_spec "User-Agent" k); [congruence|reflexivity].
  - destruct (spread_head "User-Agent" defaultUserAgent [] headers) as (v' & rest & ->).
    reflexivity.
Qed.

(** Headers a caller gave, with the cookie header in capitals. *)
Definition sampleHeaders : Obj string :=
  [("Cookie", "a=1"); ("user-agent", "curl/8.0")].

Lemma getPropInsensitive_after_set_witness :
  "cookie" <> "" /\
  isAscii "cookie" = true /\
  Forall (fun kv => isAscii (fst kv) = true) sampleHeaders /\
  let obj' := snd (setPropInsensitive (Some sampleHeaders) "cookie" "b=2") in
  let matched :=
    exists k, In k (map fst sampleHeaders) /\ toLowerCase k = toLowerCase "cookie" in
  (("cookie" : string) <> "__proto__" \/ matched ->
   (forall prop', isAscii prop' = true -> toLowerCase prop' = toLowerCase "cookie" ->
      getPropInsensitive obj' prop' = Some "b=2") /\
   (forall prop', isAscii prop' = true -> toLowerCase prop' <> toLowerCase "cookie" ->
      getPropInsensitive obj' prop' = getPropInsensitive (Some sampleHeaders) prop')) /\
  (("cookie" : string) = "__proto__" -> ~ matched -> obj' = Some sampleHeaders).
Proof.
  assert (Forall (fun kv : string * string => isAscii (fst kv) = true) sampleHeaders)
    as Hall by (repeat constructor).
  split; [discriminate|]. split; [reflexivity|]. split; [exact Hall|].
  apply (getPropInsensitive_after_set sampleHeaders "cookie" "b=2");
    [discriminate|reflexivity|exact Hall].
Defined.

Lemma setPropInsensitive_keeps_names_distinct_witness :
  "cookie" <> "" /\
  isAscii "cookie" = true /\
  Forall (fun kv => isAscii (fst kv) = true) sampleHeaders /\
  NoDup (map (fun kv => toLowerCase (fst kv)) sampleHeaders) /\
  exists key o',
    setPropInsensitive (Some sampleHeaders) "cookie" "b=2" = (Some key, Some o') /\
    toLowerCase key = toLowerCase "cookie" /\
    (In key (map fst sampleHeaders) \/ key <> "__proto__" -> objGet key o' = Some "b=2") /\
    (~ In key (map fst sampleHeaders) -> key = "__proto__" -> o' = sampleHeaders) /\
    NoDup (map (fun kv => toLowerCase (fst kv)) o') /\
    Forall (fun kv => isAscii (fst kv) = true) o' /\
    (length o' <= length sampleHeaders + 1)%nat.
Proof.
  assert (NoDup (map (fun kv => toLowerCase (fst kv)) sampleHeaders)) as Hnd.
  { cbn. apply NoDup_cons. split; [|apply NoDup_singleton].
    intros Hin. apply list_elem_of_singleton in Hin. discriminate. }
  assert (Forall (fun kv : string * string => isAscii (fst kv) = true) sampleHeaders)
    as Hall by (repeat constructor).
  split; [discriminate|]. split; [reflexivity|]. split; [exact Hall|]. split; [exact Hnd|].
  apply (setPropInsensitive_keeps_names_distinct sampleHeaders "cookie" "b=2");
    [discriminate|reflexivity|exact Hall|exact Hnd].
Defined.

(** An assignment to [__proto__] adds nothing to an object without a
    property of that name, and the object reads as before. *)
Example setPropInsensitive_proto_sample :
  setPropInsensitive (Some sampleHeaders) "__proto__" "x"
    = (Some "__proto__", Some sampleHeaders) /\
  getPropInsensitive (snd (setPropInsensitive (Some sampleHeaders) "__proto__" "x"))
    "__proto__" = None.
Proof. split; reflexivity. Qed.

Lemma applyDefaultHeaders_spec_witness :
  NoDup (map fst sampleHeaders) /\
  let h := applyDefaultHeaders (Some sampleHeaders) in
  (forall k v, objGet k sampleHeaders = Some v -> objGet k h = Some v) /\
  (objGet "User-Agent" sampleHeaders = None ->
   objGet "User-Agent" h = Some defaultUserAgent) /\
  (forall k, k <> "User-Agent" -> objGet k h = objGet k sampleHeaders) /\
  getPropInsensitive (Some h) "user-agent" = objGet "User-Agent" h.
Proof.
  assert (NoDup (map fst sampleHeaders)) as Hnd.
  { cbn. apply NoDup_cons. split; [|apply NoDup_singleton].
    intros Hin. apply list_elem_of_singleton in Hin. discriminate. }
  split; [exact Hnd|].
  apply (applyDefaultHeaders_spec sampleHeaders Hnd).
Defined.

End UtilsPropsFacts.

(* ===================================================================== *)
(** ** src/format-utils.ts: [sortFormats] as a comparator *)
(* ===================================================================== *)

Module SortFormatsFacts.
Import FormatUtils FormatUtilsFacts.

(** A sort key that never yields [NaN]. *)
Definition numeric (fn : VideoFormat -> option Z) : Prop :=
  forall f, exists z, fn f = Some z.

Lemma sortFormatsBy_numeric sortBy a b :
  Forall numeric sortBy -> exists z, sortFormatsBy a b sortBy = Some z.
Proof.
  induction 1 as [|fn rest Hfn _ IH]; cbn [sortFormatsBy]; [now exists 0|].
  destruct (Hfn a) as [x ->], (Hfn b) as [y ->]. cbn [numSub notZero].
  destruct (negb (y - x =? 0)); [now exists (y - x)|exact IH].
Qed.

Lemma sortFormatsBy_flip sortBy a b z :
  Forall numeric sortBy ->
  sortFormatsBy a b sortBy = Some z -> sortFormatsBy b a sortBy = Some (- z).
Proof.
  induction 1 as [|fn rest Hfn _ IH]; cbn [sortFormatsBy].
  - intros [= <-]. reflexivity.
  - destruct (Hfn a) as [x ->], (Hfn b) as [y ->]. cbn [numSub notZero].
    destruct (Z.eqb_spec (y - x) 0) as [E|E]; cbn [negb];
      destruct (Z.eqb_spec (x - y) 0) as [E'|E']; cbn [negb]; try lia.
    + exact IH.
    + intros [= <-]. f_equal. lia.
Qed.

Lemma sortFormatsBy_trans sortBy x y z :
  Forall numeric sortBy ->
  notAfter (fun a b => sortFormatsBy a b sortBy) x y ->
  notAfter (fun a b => sortFormatsBy a b sortBy) y z ->
  notAfter (fun a b => sortFormatsBy a b sortBy) x z.
Proof.
  unfold notAfter. induction 1 as [|fn rest Hfn _ IH]; cbn [sortFormatsBy]; [reflexivity|].
  destruct (Hfn x) as [kx ->], (Hfn y) as [ky ->], (Hfn z) as [kz ->].
  cbn [numSub notZero].
  destruct (Z.eqb_spec (ky - kx) 0) as [E1|E1]; cbn [negb cmpPositive];
    destruct (Z.eqb_spec (kz - ky) 0) as [E2|E2]; cbn [negb cmpPositive];
    destruct (Z.eqb_spec (kz - kx) 0) as [E3|E3]; cbn [negb cmpPositive];
    rewrite ?Z.ltb_ge; try lia; try exact IH.
Qed.

Lemma sortFormats_keys :
  Forall numeric [
    (fun format => boolNum (truthyB (isHLS format)));
    (fun format => boolNum (truthyB (isDashMPD format)));
    (fun format => boolNum (hasContentLength format));
    (fun format => boolNum (truthyB (hasVideo format) && truthyB (hasAudio format)));
    (fun format => boolNum (truthyB (hasVideo format)));
    (fun format => Some (qualityLabelNum format));
    getVideoBitrate;
    getAudioBitrate;
    getVideoEncodingRank;
    getAudioEncodingRank
  ].
Proof. repeat constructor; intros f; eexists; reflexivity. Qed.

Lemma sortFormats_flip a b :
  exists z, sortFormats a b = Some z /\ sortFormats b a = Some (- z).
Proof.
  destruct (sortFormatsBy_numeric _ a b sortFormats_keys) as [z Hz].
  exists z. split; [exact Hz|]. now apply (sortFormatsBy_flip _ a b z sortFormats_keys).
Qed.

Lemma sortFormats_trans x y z :
  notAfter sortFormats x y -> notAfter sortFormats y z -> notAfter sortFormats x z.
Proof. apply (sortFormatsBy_trans _ x y z sortFormats_keys). Qed.

Lemma sortFormats_total x y :
  cmpPositive (sortFormats x y) = true -> notAfter sortFormats y x.
Proof.
  intros Hpos. destruct (sortFormats_flip x y) as (z & Hxy & Hyx).
  unfold notAfter. rewrite Hxy in Hpos. rewrite Hyx. cbn [cmpPositive] in *.
  apply Z.ltb_lt in Hpos. apply Z.ltb_ge. lia.
Qed.

(** X14 -- [sortFormats] is a consistent comparator: it never yields
    [NaN], swapping its arguments negates its result, and it is transitive.
    So [formats.sort(sortFormats)] rearranges the formats into an array in
    which no format has to move behind a later one; in particular, when some
    format is an HLS format the first one of the sorted array is one. *)
Theorem sortFormats_consistent :
  (forall a b, exists z, sortFormats a b = Some z /\ sortFormats b a = Some (- z)) /\
  (forall x y z, notAfter sortFormats x y -> notAfter sortFormats y z ->
     notAfter sortFormats x z) /\
  (forall formats,
     Permutation formats (arraySort sortFormats formats) /\
     StronglySorted (notAfter sortFormats) (arraySort sortFormats formats) /\
     forall best rest g,
       arraySort sortFormats formats = best :: rest ->
       In g formats -> truthyB (isHLS g) = true -> truthyB (isHLS best) = true).
Proof.
  split; [exact sortFormats_flip|]. split; [exact sortFormats_trans|].
  assert (forall x y, True -> True -> cmpPositive (sortFormats x y) = true ->
            notAfter sortFormats y x) as Htotal
      by (intros x y _ _; apply sortFormats_total).
  assert (forall x y z, True -> True -> True -> notAfter sortFormats x y ->
            notAfter sortFormats y z -> notAfter sortFormats x z) as Htrans
      by (intros x y z _ _ _; apply sortFormats_trans).
  intros formats. split; [apply arraySort_perm|].
  assert (Forall (fun _ : VideoFormat => True) formats) as HP
      by (apply List.Forall_forall; tauto).
  split.
  - apply (arraySort_sorted sortFormats (fun _ => True)); [exact Htotal|exact Htrans|exact HP].
  - intros best rest g Hsorted Hg Hhls.
    assert (notAfter sortFormats best g) as Hna.
    { apply (arraySort_head_first sortFormats (fun _ => True)) with formats rest;
        [exact Htotal|exact Htrans|exact HP|exact Hsorted|exact Hg]. }
    unfold notAfter, sortFormats in Hna. cbn [sortFormatsBy] in Hna.
    rewrite Hhls in Hna. destruct (truthyB (isHLS best)); [reflexivity|].
    cbn in Hna. discriminate.
Qed.

End SortFormatsFacts.

(* ===================================================================== *)
(** ** src/sig.ts: the record [decipherFormats] builds *)
(* ===================================================================== *)

Module DecipherFacts.
Import FormatUtils Sig.

(** Every entry of the record is stored under the url of its format. *)
Definition keyedByUrl (r : FormatRecord) : Prop :=
  forall k f, In (k, f) r -> url f = Some k /\ k <> "".

Lemma recordSet_In key format r k f :
  In (k, f) (recordSet key format r) -> (k = key /\ f = format) \/ In (k, f) r.
Proof.
  induction r as [|[k0 f0] rest IH]; cbn [recordSet In].
  - intros [[= <- <-]|[]]. now left.
  - destruct (String.eqb_spec k0 key) as [->|Hne]; cbn [In].
    + intros [[= <- <-]|Hin]; [now left|right; now right].
    + intros [Heq|Hin]; [right; now left|].
      destruct (IH Hin) as [?|?]; [now left|right; now right].
Qed.

Lemma recordSet_keys key format r :
  map fst (recordSet key format r) =
  if existsb (String.eqb key) (map fst r) then map fst r
  else (map fst r ++ [key])%list.
Proof.
  induction r as [|[k v] rest IH]; cbn [recordSet map fst existsb app]; [reflexivity|].
  rewrite (String.eqb_sym key k).
  destruct (String.eqb k key) eqn:E; cbn [map fst orb]; [reflexivity|].
  rewrite IH. now destruct (existsb _ _).
Qed.

Lemma recordSet_NoDup key format r :
  NoDup (map fst r) -> NoDup (map fst (recordSet key format r)).
Proof.
  intros Hnd. rewrite recordSet_keys.
  destruct (existsb (String.eqb key) (map fst r)) eqn:E; [exact Hnd|].
  apply NoDup_app. split; [exact Hnd|].
  split; [|apply NoDup_singleton].
  intros x Hx Hx'. apply list_elem_of_singleton in Hx'. subst x.
  apply list_elem_of_In in Hx.
  assert (existsb (String.eqb key) (map fst r) = true); [|congruence].
  apply existsb_exists. exists key. split; [exact Hx|apply String.eqb_refl].
Qed.

Lemma recordSet_length key format r :
  (length (recordSet key format r) <= S (length r))%nat.
Proof.
  induction r as [|[k v] rest IH]; cbn [recordSet length]; [lia|].
  destruct (String.eqb k key); cbn [length]; lia.
Qed.

Section WithApi.
Variable api : UrlApi.

Lemma decipherEach_keyed formats d n :
  forall acc r,
    keyedByUrl acc -> NoDup (map fst acc) ->
    decipherEach api formats d n acc = Ok r ->
    keyedByUrl r /\ NoDup (map fst r) /\
    (length r <= length acc + length formats)%nat.
Proof.
  induction formats as [|format rest IH]; intros acc r Hk Hnd; cbn [decipherEach].
  - intros [= <-]. split; [exact Hk|]. split; [exact Hnd|]. cbn. lia.
  - destruct (setDownloadURL api format d n) as [format'|e]; cbn [rbind]; [|discriminate].
    destruct (truthyS (url format')) eqn:Hu.
    + intros Hr. apply IH in Hr as (H1 & H2 & H3).
      * split; [exact H1|]. split; [exact H2|].
        pose proof (recordSet_length (default "" (url format')) format' acc).
        cbn [length]. lia.
      * intros k f Hin. apply recordSet_In in Hin as [[-> ->]|Hin]; [|now apply Hk].
        unfold truthyS in Hu. destruct (url format') as [u|]; [|discriminate].
        change (default "" (Some u)) with u. split; [reflexivity|].
        apply negb_true_iff, String.eqb_neq in Hu. exact Hu.
      * now apply recordSet_NoDup.
    + intros Hr. apply IH in Hr as (H1 & H2 & H3); [|exact Hk|exact Hnd].
      split; [exact H1|]. split; [exact H2|]. cbn [length]. lia.
Qed.

(** X15 -- in the record [decipherFormats] resolves with, every format is
    stored under its own url, which is not empty; no url is there twice;
    and there are at most as many entries as formats went in. *)
Theorem decipherFormats_keyed_by_url :
  forall formats functions r,
    decipherFormats api formats functions = Ok r ->
    (forall k f, In (k, f) r -> url f = Some k /\ k <> "") /\
    NoDup (map fst r) /\
    (length r <= length formats)%nat.
Proof.
  intros formats functions r. unfold decipherFormats.
  destruct functions as [[d n]|e]; cbn [rbind]; [|discriminate].
  intros Hr. apply decipherEach_keyed in Hr; [exact Hr| |constructor].
  intros k f [].
Qed.




End WithApi.

Lemma decipherFormats_keyed_by_url_witness :
  exists r,
    decipherFormats SigFacts.sampleApi [SigFacts.plain18; SigFacts.throttled140]
      (Ok (Some SigFacts.identityScript, Some SigFacts.upperN)) = Ok r /\
    (forall k f, In (k, f) r -> url f = Some k /\ k <> "") /\
    NoDup (map fst r) /\
    (length r <= 2)%nat.
Proof.
  eexists. split; [vm_compute; reflexivity|].
  apply (decipherFormats_keyed_by_url SigFacts.sampleApi
           [SigFacts.plain18; SigFacts.throttled140]
           (Ok (Some SigFacts.identityScript, Some SigFacts.upperN))).
  vm_compute. reflexivity.
Defined.

End DecipherFacts.

(* ===================================================================== *)
(** ** src/info.ts: [getM3U8]; src/utils.ts: [playError];
       src/index.ts: a destroyed stream *)
(* ===================================================================== *)

Module ManifestFacts.
Import FormatUtils Utils Info DecipherFacts.

(** The step of [forEach] in [getM3U8]. *)
Definition addStream (formats : Sig.FormatRecord) (line : string) : Sig.FormatRecord :=
  match matchItag line with
  | Some digits =>
      Sig.recordSet line
        (withContentLength (Some EmptyString)
           (withUrl (Some line) (bareFormat (orZero (parseInt digits)))))
        formats
  | None => formats
  end.

(** What [getM3U8] says of an entry: it is stored under a stream line, and
    its format has that line as url and the itag the line names. *)
Definition streamEntry (lines : list string) (k : string) (f : VideoFormat) : Prop :=
  In k lines /\ isHttpLine k = true /\ url f = Some k /\
  exists digits, matchItag k = Some digits /\ itag f = orZero (parseInt digits).

Lemma addStream_fold (lines : list string) :
  forall all acc,
    (forall line, In line lines -> In line all /\ isHttpLine line = true) ->
    (forall k f, In (k, f) acc -> streamEntry all k f) ->
    NoDup (map fst acc) ->
    let r := fold_left addStream lines acc in
    (forall k f, In (k, f) r -> streamEntry all k f) /\
    NoDup (map fst r) /\
    (forall k, In k (map fst acc) -> In k (map fst r)) /\
    (forall line digits, In line lines -> matchItag line = Some digits ->
       In line (map fst r)).
Proof.
  induction lines as [|line lines IH]; intros all acc Hl Hacc Hnd; cbn [fold_left].
  - split; [exact Hacc|]. split; [exact Hnd|]. split; [tauto|]. intros ? ? [].
  - assert (forall k f, In (k, f) (addStream acc line) -> streamEntry all k f) as Hacc'.
    { intros k f. unfold addStream. destruct (matchItag line) as [digits|] eqn:Hm;
        [|apply Hacc].
      intros Hin. apply recordSet_In in Hin as [[-> ->]|Hin]; [|now apply Hacc].
      destruct (Hl line) as [Hin Hhttp]; [now left|].
      split; [exact Hin|]. split; [exact Hhttp|]. split; [reflexivity|].
      exists digits. split; [exact Hm|reflexivity]. }
    assert (NoDup (map fst (addStream acc line))) as Hnd'.
    { unfold addStream. destruct (matchItag line); [|exact Hnd].
      now apply recordSet_NoDup. }
    assert (forall k, In k (map fst acc) -> In k (map fst (addStream acc line))) as Hkeep.
    { intros k Hk. unfold addStream. destruct (matchItag line); [|exact Hk].
      rewrite recordSet_keys. destruct (existsb _ _); [exact Hk|].
      apply in_or_app. now left. }
    destruct (IH all (addStream acc line)) as (H1 & H2 & H3 & H4);
      [intros l Hin; apply Hl; now right|exact Hacc'|exact Hnd'|].
    split; [exact H1|]. split; [exact H2|]. split; [intros k Hk; apply H3, Hkeep, Hk|].
    intros l digits [<-|Hin] Hm; [|now apply (H4 l digits)].
    apply H3. unfold addStream. rewrite Hm. rewrite recordSet_keys.
    destruct (existsb _ _) eqn:E.
    + apply existsb_exists in E as (x & Hx & Heq). apply String.eqb_eq in Heq.
      now subst x.
    + apply in_or_app. right. now left.
Qed.

(** X17 -- [getM3U8] makes one request and resolves with one format per
    distinct stream line of the playlist: every entry is stored under a line
    of the body that starts with [http://] or [https://] and names an itag
    between [/itag/] and [/], its format has that line as url and that itag;
    every such line is the key of an entry; and no key is there twice. *)
Theorem getM3U8_one_format_per_stream_line :
  forall (w : World) (url0 body : string),
    hlsBody w url0 = Ok body ->
    let lines := splitOn (ascii_of_nat 10) body in
    exists r,
      getM3U8 w url0 = ([HlsManifest url0], Ok r) /\
      (forall k f, In (k, f) r ->
         In k lines /\ isHttpLine k = true /\ url f = Some k /\
         exists digits, matchItag k = Some digits /\ itag f = orZero (parseInt digits)) /\
      (forall line digits,
         In line lines -> isHttpLine line = true -> matchItag line = Some digits ->
         In line (map fst r)) /\
      NoDup (map fst r).
Proof.
  intros w url0 body Hbody lines. exists (m3u8Formats body).
  split; [unfold getM3U8; rewrite Hbody; reflexivity|].
  destruct (addStream_fold (List.filter isHttpLine lines) lines [])
    as (H1 & H2 & _ & H4).
  - intros line Hin. apply filter_In in Hin. exact Hin.
  - intros k f [].
  - constructor.
  - split; [exact H1|]. split; [|exact H2].
    intros line digits Hin Hhttp Hm. apply (H4 line digits); [|exact Hm].
    apply filter_In. now split.
Qed.

(** A world whose HLS manifest is the sample playlist. *)
Definition playlistWorld : World :=
  mkWorld SigFacts.sampleApi (fun _ => Ok (InfoFacts.watchInfo InfoFacts.webResponse))
    (fun _ => Ok tt) (Ok None) (Ok None) InfoFacts.onYouTube (fun _ => Ok tt)
    InfoFacts.refused (Ok (None, None)) (fun _ => Ok [])
    (fun _ => Ok InfoFacts.samplePlaylist) [].

Lemma getM3U8_one_format_per_stream_line_witness :
  hlsBody playlistWorld "https://manifest.googlevideo.com/api/manifest/hls_variant/id/1"
  = Ok InfoFacts.samplePlaylist /\
  let lines := splitOn (ascii_of_nat 10) InfoFacts.samplePlaylist in
  exists r,
    getM3U8 playlistWorld "https://manifest.googlevideo.com/api/manifest/hls_variant/id/1"
    = ([HlsManifest "https://manifest.googlevideo.com/api/manifest/hls_variant/id/1"], Ok r) /\
    (forall k f, In (k, f) r ->
       In k lines /\ isHttpLine k = true /\ url f = Some k /\
       exists digits, matchItag k = Some digits /\ itag f = orZero (parseInt digits)) /\
    (forall line digits,
       In line lines -> isHttpLine line = true -> matchItag line = Some digits ->
       In line (map fst r)) /\
    NoDup (map fst r).
Proof.
  split; [reflexivity|].
  apply (getM3U8_one_format_per_stream_line playlistWorld
           "https://manifest.googlevideo.com/api/manifest/hls_variant/id/1"
           InfoFacts.samplePlaylist).
  reflexivity.
Defined.

End ManifestFacts.

(* ===================================================================== *)
(** ** src/info.ts: which formats [getInfo] ends up with *)
(* ===================================================================== *)

Module ReconciliationFacts.
Import FormatUtils Utils Sig Info InfoFacts DecipherFacts ManifestFacts.

(** *** Records merged by [Object.assign] *)






(** *** The records of the sources hold no key twice *)




Section Sources.
Variable w : World.


End Sources.

(** *** [Promise.all] *)








(** *** The device requests *)

Section Devices.
Variable w : World.
Variable id : string.





End Devices.

(** *** [getInfo] *)



(** *** A sample resolution *)





End ReconciliationFacts.

Module PlayErrorFacts.
Import FormatUtils Utils InfoFacts.

(** X18 -- [playError] reports an error for the four statuses [ERROR],
    [LOGIN_REQUIRED], [LIVE_STREAM_OFFLINE] and [UNPLAYABLE] and for nothing
    else: a response without [playabilityStatus], or with any other status or
    none, gives [null].  The error is an [UnrecoverableError] whose message
    is not empty, and is the [reason] whenever the response gives one. *)
Theorem playError_exactly_four_statuses :
  forall player_response : option PlayerResponse,
    (playError player_response = None <->
     forall r ps st,
       player_response = Some r -> playabilityStatus r = Some ps ->
       status ps = Some st -> ~ unplayable st) /\
    (forall e, playError player_response = Some e ->
       exists msg, e = UnrecoverableError msg /\ msg <> "" /\
         forall r ps, player_response = Some r -> playabilityStatus r = Some ps ->
           truthyS (reason ps) = true -> reason ps = Some msg).
Proof.
  intros [r|].
  2:{ split; [split; [intros _ r ps st Habs; discriminate|intros _; reflexivity]|].
      intros e Habs. discriminate. }
  cbn [playError]. destruct (playabilityStatus r) as [ps|] eqn:Hps.
  2:{ split; [split; [intros _ r' ps st [= <-] Habs; rewrite Hps in Habs; discriminate
                     |intros _; reflexivity]|].
      intros e Habs. discriminate. }
  assert (forall d, d <> "" ->
            orString (reason ps) d <> "" /\
            (truthyS (reason ps) = true -> reason ps = Some (orString (reason ps) d)))
    as Hreason.
  { intros d Hd. split; [now apply orString_nonempty|].
    unfold truthyS, orString. destruct (reason ps) as [s|]; [|discriminate].
    destruct (String.eqb s ""); [discriminate|reflexivity]. }
  assert (unplayable (orString (status ps) "") ->
          exists st, status ps = Some st /\ unplayable st) as Hun.
  { unfold orString. destruct (status ps) as [st|].
    - destruct (String.eqb_spec st "") as [->|_]; intros Hu; [|now exists st].
      unfold unplayable in Hu. intuition discriminate.
    - unfold unplayable. intuition discriminate. }
  assert (forall st, status ps = Some st -> unplayable st ->
            unplayable (orString (status ps) "")) as Hback.
  { intros st -> Hu. unfold orString. destruct (String.eqb_spec st "") as [->|_];
      [|exact Hu]. unfold unplayable in Hu. intuition discriminate. }
  assert (forall msg d,
            d <> "" -> msg = orString (reason ps) d ->
            unplayable (orString (status ps) "") ->
            (Some (UnrecoverableError msg) = None <->
             forall r0 ps0 st,
               Some r = Some r0 -> playabilityStatus r0 = Some ps0 ->
               status ps0 = Some st -> ~ unplayable st) /\
            (forall e, Some (UnrecoverableError msg) = Some e ->
               exists msg0, e = UnrecoverableError msg0 /\ msg0 <> "" /\
                 forall r0 ps0, Some r = Some r0 -> playabilityStatus r0 = Some ps0 ->
                   truthyS (reason ps0) = true -> reason ps0 = Some msg0)) as Herr.
  { intros msg d Hd -> Hu. destruct (Hreason d Hd) as [N1 N2]. split.
    - split; [discriminate|]. intros Hno. exfalso.
      destruct (Hun Hu) as (st & Est & Hst). exact (Hno r ps st eq_refl Hps Est Hst).
    - intros e [= <-]. eexists. split; [reflexivity|]. split; [exact N1|].
      intros r0 ps0 [= <-] Hps0. rewrite Hps in Hps0. injection Hps0 as <-. exact N2. }
  set (s := orString (status ps) "") in *.
  destruct (String.eqb_spec s "ERROR") as [He|He];
    [|destruct (String.eqb_spec s "LOGIN_REQUIRED") as [Hl|Hl]]; cbn [orb].
  1,2: eapply Herr; [|reflexivity|unfold unplayable; tauto];
       apply orString_nonempty; discriminate.
  destruct (String.eqb_spec s "LIVE_STREAM_OFFLINE") as [Ho|Ho];
    [|destruct (String.eqb_spec s "UNPLAYABLE") as [Hu|Hu]].
  1,2: eapply Herr; [|reflexivity|unfold unplayable; tauto]; discriminate.
  split; [|discriminate]. split; [|reflexivity].
  intros _ r0 ps0 st [= <-] Hps0 Hstatus Hbad. rewrite Hps in Hps0. injection Hps0 as <-.
  apply (Hback st Hstatus) in Hbad. fold s in Hbad. unfold unplayable in Hbad. tauto.
Qed.

End PlayErrorFacts.

Module DestroyFacts.
Import FormatUtils Download.

(** [stream._destroy]: [stream.destroyed = true]. *)
Definition destroy (d : Chunking) : Chunking :=
  mkChunking (start d) (end_ d) (shouldEnd d) true (inFlight d) (requests d).

Lemma deliver_destroyed chunk rangeEnd contentLength n :
  forall d, destroyed d = true ->
    requests (deliver chunk rangeEnd contentLength n d) = requests d /\
    destroyed (deliver chunk rangeEnd contentLength n d) = true.
Proof.
  induction n as [|n IH]; intros d Hd; cbn [deliver]; [now split|].
  destruct (inFlight d); [now split|].
  assert (onEnd chunk rangeEnd contentLength d =
          mkChunking (start d) (end_ d) (shouldEnd d) (destroyed d)
                     (Nat.pred (inFlight d)) (requests d)) as Hend.
  { unfold onEnd. cbn [destroyed]. now rewrite Hd. }
  destruct (IH (onEnd chunk rangeEnd contentLength d)) as [H1 H2].
  - rewrite Hend. exact Hd.
  - rewrite H1, H2, Hend. now split.
Qed.

(** X19 -- once the stream is destroyed, the chunked download sends no
    further range request, however many of the requests in flight end
    afterwards. *)
Theorem no_request_after_destroy :
  forall (options : DownloadOptions) (format : VideoFormat) (n m : nat),
    let d := destroy (chunkedDownload options format n) in
    requests (deliver (chunkSize options) (rangeEndOf options)
                (contentLengthOf options format) m d)
    = requests (chunkedDownload options format n).
Proof.
  intros options format n m d.
  destruct (deliver_destroyed (chunkSize options) (rangeEndOf options)
              (contentLengthOf options format) m d eq_refl) as [H _].
  exact H.
Qed.

End DestroyFacts.

(* ===================================================================== *)
(** ** src/index.ts: how [downloadFromInfoCallback] starts *)
(* ===================================================================== *)

Module DownloadStart.
Import FormatUtils Utils Info.

(** What [downloadFromInfoCallback] emits on the stream before any request. *)
Inductive StreamEvent :=
| EmitError (err : JsError)
| EmitInfo (info : VideoInfo) (format : VideoFormat).

(** [downloadFromInfoCallback] up to [if (stream.destroyed) return;]: the
    events emitted and the format the function goes on to download, if it
    goes on.  [destroys format] says whether a listener of ['info'] destroys
    the stream. *)
Definition chooseAndAnnounce (info : VideoInfo) (options : FormatOptions)
    (destroys : VideoFormat -> bool) : list StreamEvent * option VideoFormat :=
  match playError (player_response info) with
  | Some err => ([EmitError err], None)
  | None =>
      match info_formats info with
      | None | Some [] => ([EmitError (Error "This video is unavailable")], None)
      | Some formats =>
          match chooseFormat formats options with
          | Throw e => ([EmitError e], None)
          | Ok format =>
              ([EmitInfo info format], if destroys format then None else Some format)
          end
      end
  end.

End DownloadStart.

Module DownloadStartFacts.
Import FormatUtils FormatUtilsFacts Utils Info InfoFacts DownloadStart.

(** X29 -- [downloadFromInfoCallback] emits exactly one of ['error'] and
    ['info'] before it requests anything, and goes on to download only after
    ['info'], with the format it announced, unless a listener destroyed the
    stream.  A response with one of the four unplayable statuses gives the
    [UnrecoverableError] of [playError] whatever the formats are; after that
    check, missing or empty [info.formats] gives "This video is
    unavailable"; a format chosen from [info.formats] (no [format] option
    given) is one of them. *)
Theorem downloadFromInfoCallback_start :
  forall (info : VideoInfo) (options : FormatOptions) (destroys : VideoFormat -> bool),
    let events := fst (chooseAndAnnounce info options destroys) in
    let chosen := snd (chooseAndAnnounce info options destroys) in
    ((exists err, events = [EmitError err] /\ chosen = None) \/
     (exists format formats,
        events = [EmitInfo info format] /\
        chosen = (if destroys format then None else Some format) /\
        playError (player_response info) = None /\
        info_formats info = Some formats /\ formats <> [] /\
        chooseFormat formats options = Ok format /\
        (FormatUtils.format options = None -> In format formats))) /\
    (forall pr ps st,
       player_response info = Some pr -> playabilityStatus pr = Some ps ->
       status ps = Some st -> unplayable st ->
       exists msg, events = [EmitError (UnrecoverableError msg)] /\ msg <> "" /\
                   chosen = None) /\
    (playError (player_response info) = None ->
     info_formats info = None \/ info_formats info = Some [] ->
     events = [EmitError (Error "This video is unavailable")] /\ chosen = None).
Proof.
  intros info options destroys. cbv zeta. unfold chooseAndAnnounce. split; [|split].
  - destruct (playError (player_response info)) as [err|] eqn:Hp;
      [left; now exists err|].
    destruct (info_formats info) as [[|f0 fs]|] eqn:Hf;
      [left; eexists; now split| |left; eexists; now split].
    destruct (chooseFormat (f0 :: fs) options) as [format|e] eqn:Hc;
      [|left; now exists e].
    right. exists format, (f0 :: fs). cbn [fst snd].
    repeat (split; [reflexivity || exact Hc || discriminate|]).
    intros Hnone. destruct options as [q flt given]. cbn in Hnone. subst given.
    exact (chooseFormat_filtered_member _ _ _ _ Hc).
  - intros pr ps st Hpr Hps Hst Hun. rewrite Hpr.
    destruct (playError_unplayable pr ps st Hps Hst Hun) as (msg & -> & Hmsg).
    exists msg. now repeat split.
  - intros -> [-> | ->]; now split.
Qed.

End DownloadStartFacts.

(* ===================================================================== *)
(** ** src/info-extras.ts (the second file of [src/unnamed/part_005]):
       [getLikes] *)
(* ===================================================================== *)

Module InfoExtras.
Import JsText.

(** The class [[\\d,.]] as the source writes it: a backslash, the letter
    [d], a comma, a dot. *)
Definition likesClass (c : ascii) : bool :=
  existsb (Ascii.eqb c) ["\"; "d"; ","; "."]%char.

(** The longest prefix of characters satisfying [p]. *)
Fixpoint takeWhile (p : ascii -> bool) (s : string) : string :=
  match s with
  | String c r => if p c then String c (takeWhile p r) else EmptyString
  | EmptyString => EmptyString
  end.

(** [text.match(/[\\d,.]+/)]: the first, longest run of characters of the
    class; [None] for [null]. *)
Fixpoint matchLikes (text : string) : option string :=
  match text with
  | EmptyString => None
  | String c r => if likesClass c then Some (takeWhile likesClass text) else matchLikes r
  end.

(** [s.replace(/\\D+/g, '')]: every backslash followed by one or more [D]
    goes, with those [D].  [inMatch] says that the characters before were
    such a match, so that a [D] still belongs to it. *)
Fixpoint stripFrom (inMatch : bool) (s : string) : string :=
  match s with
  | EmptyString => EmptyString
  | String c r =>
      if inMatch && Ascii.eqb c "D" then stripFrom true r
      else if Ascii.eqb c "\" && String.prefix "D" r then stripFrom true r
      else String c (stripFrom false r)
  end.

Definition stripBackslashD (s : string) : string := stripFrom false s.

(** [getLikes]: the result is [null] ([None]), or the number [parseInt]
    gives, [NaN] being [Some None].  [accessibilityText] is what the chain of
    property reads and [find] calls of the [try] block reaches: [None] when a
    link of the chain is missing, so that the block throws, or when what is
    reached is not a string. *)
Definition getLikes (accessibilityText : option string) : option (option Z) :=
  match accessibilityText with
  | None => None
  | Some text =>
      match matchLikes text with
      | None => None
      | Some run => Some (parseInt (stripBackslashD run))
      end
  end.

End InfoExtras.

Module InfoExtrasFacts.
Import JsText InfoExtras.

Lemma takeWhile_all p s : allChars p (takeWhile p s) = true.
Proof.
  induction s as [|c r IH]; cbn [takeWhile]; [reflexivity|].
  destruct (p c) eqn:E; [|reflexivity]. cbn [allChars]. now rewrite E.
Qed.

Lemma likesClass_not_D c : likesClass c = true -> c <> "D"%char.
Proof. intros Hc ->. discriminate. Qed.

Lemma stripFrom_class inMatch s :
  allChars likesClass s = true -> stripFrom inMatch s = s.
Proof.
  revert inMatch. induction s as [|c r IH]; intros inMatch; [reflexivity|].
  cbn [allChars]. intros Hc. apply andb_true_iff in Hc as [Hc Hr]. cbn [stripFrom].
  assert (Ascii.eqb c "D" = false) as ->
      by (apply Ascii.eqb_neq; now apply likesClass_not_D).
  rewrite andb_false_r.
  assert (String.prefix "D" r = false) as ->.
  { destruct r as [|d r']; [reflexivity|]. cbn [allChars] in Hr.
    apply andb_true_iff in Hr as [Hd _]. apply likesClass_not_D in Hd.
    cbn [String.prefix]. destruct (ascii_dec "D" d); [congruence|reflexivity]. }
  rewrite andb_false_r. now rewrite IH.
Qed.

Lemma parseInt_class c r : likesClass c = true -> parseInt (String c r) = None.
Proof.
  unfold likesClass. cbn [existsb]. rewrite !orb_true_iff.
  intros [H|[H|[H|[H|H]]]]; try discriminate; apply Ascii.eqb_eq in H; subst c;
    reflexivity.
Qed.

(** X20 -- [getLikes] never returns a count: whatever the response holds,
    the result is [null] or [NaN].  (The pattern it matches the text
    against, as written, looks for backslashes, the letter [d], commas and
    dots, not for digits.) *)
Theorem getLikes_never_a_count :
  forall accessibilityText,
    getLikes accessibilityText = None \/ getLikes accessibilityText = Some None.
Proof.
  intros [text|]; [|now left]. unfold getLikes.
  destruct (matchLikes text) as [run|] eqn:Hm; [|now left]. right. f_equal.
  assert (exists c r, run = String c r /\ allChars likesClass run = true)
    as (c & r & -> & Hall).
  { clear -Hm. induction text as [|c r IH]; [discriminate|]. cbn [matchLikes] in Hm.
    destruct (likesClass c) eqn:Hc; [|now apply IH].
    injection Hm as <-. cbn [takeWhile]. rewrite Hc. eexists _, _. split; [reflexivity|].
    cbn [allChars]. rewrite Hc. apply takeWhile_all. }
  unfold stripBackslashD. rewrite (stripFrom_class _ _ Hall). apply parseInt_class.
  cbn [allChars] in Hall. now apply andb_true_iff in Hall as [Hc _].
Qed.

End InfoExtrasFacts.

(* ===================================================================== *)
(** ** src/sig.ts: the fallback n-transform *)
(* ===================================================================== *)

Module SigFallback.

(** The function of the script [extractNTransform] falls back on when it
    finds no n-transform function in the player script, on the characters
    of its argument ([a.split("")] ... [a.join("")]). *)

(** [a[i] = ((parseInt(a[i]) + 5) % 10).toString()] for a digit [a[i]] *)
Definition shiftDigit (c : ascii) : ascii :=
  let n := nat_of_ascii c in
  if ((48 <=? n) && (n <=? 57))%nat then ascii_of_nat (48 + (n - 48 + 5) mod 10) else c.

(** [var t = a[0]; a[0] = a[a.length-1]; a[a.length-1] = t] *)
Definition swapEnds (a : list ascii) : list ascii :=
  match a with
  | first :: rest =>
      match rev rest with
      | last :: middle => last :: (rev middle ++ [first])%list
      | [] => a
      end
  | [] => a
  end.

Definition fallbackNFunc (a : string) : string :=
  let a := list_ascii_of_string a in
  let a := rev a in
  let a := map shiftDigit a in
  let a := if (2 <? length a)%nat then swapEnds a else a in
  string_of_list_ascii a.

End SigFallback.

Module SigFallbackFacts.
Import SigFallback.

Lemma shiftDigit_twice c : shiftDigit (shiftDigit c) = c.
Proof. destruct c as [[] [] [] [] [] [] [] []]; reflexivity. Qed.

Lemma swapEnds_spec first middle last :
  swapEnds (first :: middle ++ [last]) = last :: middle ++ [first].
Proof.
  unfold swapEnds. rewrite rev_app_distr. cbn [rev app]. now rewrite rev_involutive.
Qed.

(** The transform on a list with two ends: the ends keep their places and
    the middle is reversed, digits shifted. *)
Lemma transform_ends first middle last :
  swapEnds (map shiftDigit (rev (first :: middle ++ [last])))
  = shiftDigit first :: map shiftDigit (rev middle) ++ [shiftDigit last].
Proof.
  cbn [rev]. rewrite rev_app_distr. cbn [rev app map]. rewrite map_app. cbn [map].
  apply swapEnds_spec.
Qed.

Lemma ends_of (l : list ascii) :
  (2 < length l)%nat -> exists first middle last, l = first :: middle ++ [last].
Proof.
  destruct l as [|first rest]; cbn [length]; [lia|]. intros Hl.
  destruct (exists_last (l := rest)) as (middle & last & ->);
    [intros ->; cbn in Hl; lia|]. now exists first, middle, last.
Qed.

(** X21 -- the fallback n-transform keeps the length of its argument and
    undoes itself: applied twice it gives the argument back. *)
Theorem fallbackNFunc_involutive :
  forall a : string,
    String.length (fallbackNFunc a) = String.length a /\
    fallbackNFunc (fallbackNFunc a) = a.
Proof.
  intros a.
  assert (forall l : list ascii, String.length (string_of_list_ascii l) = length l) as Hlen.
  { induction l as [|c l IH]; cbn; [reflexivity|now rewrite IH]. }
  assert (forall l : list ascii,
            let t := fun l => if (2 <? length l)%nat then swapEnds l else l in
            length (t (map shiftDigit (rev l))) = length l /\
            t (map shiftDigit (rev (t (map shiftDigit (rev l))))) = l) as Hlist.
  { intros l t. subst t. cbn beta.
    assert (map shiftDigit (map shiftDigit l) = l) as Htwice.
    { rewrite map_map. rewrite <- (map_id l) at 2. apply map_ext, shiftDigit_twice. }
    rewrite length_map, length_rev.
    destruct (2 <? length l)%nat eqn:E.
    - apply Nat.ltb_lt in E. destruct (ends_of l E) as (first & middle & last & ->).
      rewrite transform_ends. split.
      + cbn [length]. rewrite !length_app, length_map, length_rev. reflexivity.
      + assert ((2 <? length (map shiftDigit
                  (rev (shiftDigit first :: map shiftDigit (rev middle) ++ [shiftDigit last]))))%nat
                = true) as ->.
        { apply Nat.ltb_lt. rewrite length_map, length_rev. cbn [length].
          rewrite length_app, length_map, length_rev. cbn [length] in *.
          rewrite length_app in E. cbn [length] in E. lia. }
        rewrite transform_ends. rewrite !shiftDigit_twice.
        rewrite <- map_rev, rev_involutive.
        rewrite map_map.
        assert (map (fun x => shiftDigit (shiftDigit x)) middle = middle) as ->;
          [|reflexivity].
        rewrite <- (map_id middle) at 2. apply map_ext, shiftDigit_twice.
    - split; [now rewrite length_map, length_rev|].
      rewrite !length_map, !length_rev, !length_map, !length_rev, E.
      rewrite <- map_rev, rev_involutive. exact Htwice. }
  unfold fallbackNFunc. cbn zeta.
  destruct (Hlist (list_ascii_of_string a)) as [H1 H2].
  split.
  - rewrite Hlen. cbn beta in H1. rewrite H1.
    clear. induction a as [|c a IH]; cbn; [reflexivity|now rewrite IH].
  - rewrite list_ascii_of_string_of_list_ascii. cbn beta in H2. rewrite H2.
    apply string_of_list_ascii_of_string.
Qed.

End SigFallbackFacts.

(* ===================================================================== *)
(** ** src/utils.ts: [generateClientPlaybackNonce] *)
(* ===================================================================== *)

Module UtilsRandom.
Import JsText.

(** [Math.random()] gives a number that is at least 0 and less than 1; a
    number is a rational, and the product of one with a power of two that
    the code then floors is exact.  [random i] is what the [i]-th call
    gives. *)
Definition Random := nat -> Q.

(** [Math.floor(r * n)] *)
Definition floorTimes (r : Q) (n : Z) : Z := Qfloor (r * inject_Z n).

Definition BASE64_URL_CHARS : string :=
  "ABCDEFGHIJKLMNOPQRSTUVWXYZabcdefghijklmnopqrstuvwxyz0123456789-_".

(** [s.charAt(i)] *)
Definition charAt (s : string) (i : Z) : string :=
  if i <? 0 then EmptyString
  else match String.get (Z.to_nat i) s with
       | Some c => String c EmptyString
       | None => EmptyString
       end.

(** [length] is the number of rounds of the loop; [new Array(length)]
    throws for a length that is negative or not an integer. *)
Definition generateClientPlaybackNonce (random : Random) (length : nat) : string :=
  let charCount := Z.of_nat (String.length BASE64_URL_CHARS) in
  fold_right append EmptyString
    (map (fun i => charAt BASE64_URL_CHARS (floorTimes (random i) charCount))
         (seq 0 length)).

End UtilsRandom.

Module UtilsRandomFacts.
Import JsText JsTextFacts UtilsRandom.

Lemma floorTimes_range (r : Q) (n : Z) :
  (0 <= r)%Q -> (r < 1)%Q -> 0 < n -> 0 <= floorTimes r n < n.
Proof.
  intros H0 H1 Hn. unfold floorTimes.
  assert (0 <= r * inject_Z n)%Q as Hlo.
  { apply Qmult_le_0_compat; [exact H0|]. change 0%Q with (inject_Z 0).
    rewrite <- Zle_Qle. lia. }
  assert (r * inject_Z n < inject_Z n)%Q as Hhi.
  { rewrite <- (Qmult_1_l (inject_Z n)) at 2. apply Qmult_lt_compat_r; [|exact H1].
    change 0%Q with (inject_Z 0). rewrite <- Zlt_Qlt. lia. }
  split.
  - change 0 with (Qfloor 0). now apply Qfloor_resp_le.
  - rewrite Zlt_Qlt. eapply Qle_lt_trans; [apply Qfloor_le|exact Hhi].
Qed.

(** A character of the alphabet. *)
Definition inAlphabet (c : ascii) : bool :=
  existsb (Ascii.eqb c) (list_ascii_of_string BASE64_URL_CHARS).

Lemma charAt_alphabet i :
  0 <= i < 64 ->
  exists c, charAt BASE64_URL_CHARS i = String c EmptyString /\ inAlphabet c = true.
Proof.
  intros Hi.
  assert (forallb (fun k => match String.get k BASE64_URL_CHARS with
                            | Some c => inAlphabet c
                            | None => false
                            end) (seq 0 64) = true) as Hall by reflexivity.
  rewrite forallb_forall in Hall. specialize (Hall (Z.to_nat i)).
  unfold charAt. destruct (Z.ltb_spec i 0); [lia|].
  destruct (String.get (Z.to_nat i) BASE64_URL_CHARS) as [c|].
  - exists c. split; [reflexivity|]. apply Hall. apply in_seq. lia.
  - discriminate Hall. apply in_seq. lia.
Qed.

(** X22 -- [generateClientPlaybackNonce(length)] returns a string of
    exactly [length] characters, each one of the 64 characters of the
    alphabet (letters, digits, [-] and [_]), whatever [Math.random]
    gives. *)
Theorem generateClientPlaybackNonce_spec :
  forall (random : Random) (length : nat),
    (forall i, (0 <= random i)%Q /\ (random i < 1)%Q) ->
    String.length (generateClientPlaybackNonce random length) = length /\
    allChars inAlphabet (generateClientPlaybackNonce random length) = true.
Proof.
  intros random n Hr. unfold generateClientPlaybackNonce. cbn zeta.
  change (Z.of_nat (String.length BASE64_URL_CHARS)) with 64.
  generalize 0%nat as from. induction n as [|n IH]; intros from; cbn [seq map fold_right].
  - split; reflexivity.
  - destruct (Hr from) as [H0 H1].
    destruct (charAt_alphabet (floorTimes (random from) 64)) as (c & -> & Hc);
      [apply floorTimes_range; [exact H0|exact H1|lia]|].
    destruct (IH (S from)) as [IH1 IH2].
    rewrite append_cons, append_nil_l. cbn [String.length allChars].
    rewrite IH1, IH2, Hc. split; reflexivity.
Qed.

(** A [Math.random] that gives one half at every call. *)
Definition half : Random := fun _ => (1 # 2)%Q.

Lemma half_range : forall i, (0 <= half i)%Q /\ (half i < 1)%Q.
Proof. intros i. split; [discriminate|reflexivity]. Qed.

Lemma generateClientPlaybackNonce_spec_witness :
  (forall i, (0 <= half i)%Q /\ (half i < 1)%Q) /\
  String.length (generateClientPlaybackNonce half 16) = 16%nat /\
  allChars inAlphabet (generateClientPlaybackNonce half 16) = true.
Proof.
  split; [exact half_range|].
  apply (generateClientPlaybackNonce_spec half 16 half_range).
Defined.

End UtilsRandomFacts.

(* ===================================================================== *)
(** ** Regular expressions that only test a whole string *)
(* ===================================================================== *)

Module JsRegExp.

(** A pattern without groups to read back, backreferences or assertions,
    written between [^] and [$]: [test] says whether the whole string is in
    its language.  The language is decided by derivatives. *)
Inductive RegExp :=
| Fail
| Eps
| Class (p : ascii -> bool)
| Cat (a b : RegExp)
| Alt (a b : RegExp)
| Star (a : RegExp).

Fixpoint nullable (r : RegExp) : bool :=
  match r with
  | Fail => false
  | Eps => true
  | Class _ => false
  | Cat a b => nullable a && nullable b
  | Alt a b => nullable a || nullable b
  | Star _ => true
  end.

Definition cat (a b : RegExp) : RegExp :=
  match a, b with
  | Fail, _ | _, Fail => Fail
  | Eps, _ => b
  | _, Eps => a
  | _, _ => Cat a b
  end.

Definition alt (a b : RegExp) : RegExp :=
  match a, b with
  | Fail, _ => b
  | _, Fail => a
  | _, _ => Alt a b
  end.

Fixpoint deriv (c : ascii) (r : RegExp) : RegExp :=
  match r with
  | Fail | Eps => Fail
  | Class p => if p c then Eps else Fail
  | Cat a b => alt (cat (deriv c a) b) (if nullable a then deriv c b else Fail)
  | Alt a b => alt (deriv c a) (deriv c b)
  | Star a => cat (deriv c a) (Star a)
  end.

(** [/^r$/.test(s)] *)
Fixpoint test (r : RegExp) (s : string) : bool :=
  match s with
  | EmptyString => nullable r
  | String c s => test (deriv c r) s
  end.

(** A character, a range of characters, a string of characters. *)
Definition chr (c : ascii) : RegExp := Class (Ascii.eqb c).

Definition range (lo hi : ascii) : RegExp :=
  Class (fun c => (nat_of_ascii lo <=? nat_of_ascii c)%nat &&
                  (nat_of_ascii c <=? nat_of_ascii hi)%nat).

Fixpoint str (s : string) : RegExp :=
  match s with
  | EmptyString => Eps
  | String c s => Cat (chr c) (str s)
  end.

Fixpoint alts (rs : list RegExp) : RegExp :=
  match rs with
  | [] => Fail
  | [r] => r
  | r :: rs => Alt r (alts rs)
  end.

Fixpoint cats (rs : list RegExp) : RegExp :=
  match rs with
  | [] => Eps
  | [r] => r
  | r :: rs => Cat r (cats rs)
  end.

(** [r{n}] *)
Fixpoint times (n : nat) (r : RegExp) : RegExp :=
  match n with
  | O => Eps
  | S n => Cat r (times n r)
  end.

(** [r{0,n}] *)
Fixpoint upTo (n : nat) (r : RegExp) : RegExp :=
  match n with
  | O => Eps
  | S n => Alt Eps (Cat r (upTo n r))
  end.

(** [r{m,n}] and [r{m,}] *)
Definition rep (m n : nat) (r : RegExp) : RegExp := Cat (times m r) (upTo (n - m) r).
Definition atLeast (m : nat) (r : RegExp) : RegExp := Cat (times m r) (Star r).

End JsRegExp.

(* ===================================================================== *)
(** ** src/utils.ts: [isIPv6], [normalizeIP], [getRandomIPv6] *)
(* ===================================================================== *)

Module UtilsIPv6.
Import JsText JsRegExp UtilsRandom.

(** [[0-9a-fA-F]] *)
Definition hex : RegExp := alts [range "0" "9"; range "a" "f"; range "A" "F"].

(** [[0-9a-fA-F]{1,4}], then with a colon after and before it *)
Definition group : RegExp := rep 1 4 hex.
Definition groupColon : RegExp := Cat group (chr ":").
Definition colonGroup : RegExp := Cat (chr ":") group.

(** [25[0-5]|(?:2[0-4]|1{0,1}[0-9]){0,1}[0-9]] *)
Definition octet : RegExp :=
  Alt (cats [str "25"; range "0" "5"])
      (Cat (rep 0 1 (Alt (Cat (chr "2") (range "0" "4"))
                         (Cat (rep 0 1 (chr "1")) (range "0" "9"))))
           (range "0" "9")).

(** [(?:octet\.){3,3}octet] *)
Definition dotted : RegExp := Cat (rep 3 3 (Cat octet (chr "."))) octet.

(** The alternatives of [IPV6_REGEX], in the order of the source. *)
Definition addressForms : list RegExp :=
  [ Cat (rep 7 7 groupColon) group;
    Cat (rep 1 7 groupColon) (chr ":");
    Cat (rep 1 6 groupColon) colonGroup;
    Cat (rep 1 5 groupColon) (rep 1 2 colonGroup);
    Cat (rep 1 4 groupColon) (rep 1 3 colonGroup);
    Cat (rep 1 3 groupColon) (rep 1 4 colonGroup);
    Cat (rep 1 2 groupColon) (rep 1 5 colonGroup);
    Cat groupColon (rep 1 6 colonGroup);
    Cat (chr ":") (Alt (rep 1 7 colonGroup) (chr ":"));
    cats [str "fe80:"; rep 0 4 (Cat (chr ":") (rep 0 4 hex)); chr "%";
          atLeast 1 (alts [range "0" "9"; range "a" "z"; range "A" "Z"])];
    cats [str "::";
          rep 0 1 (cats [str "ffff"; rep 0 1 (Cat (chr ":") (rep 1 4 (chr "0"))); chr ":"]);
          dotted];
    cats [rep 1 4 groupColon; chr ":"; dotted] ].

(** [(?:\/(?:1[0-1][0-9]|12[0-8]|[1-9][0-9]|[1-9]))?] *)
Definition maskSuffix : RegExp :=
  rep 0 1
    (Cat (chr "/")
         (alts [cats [chr "1"; range "0" "1"; range "0" "9"];
                cats [str "12"; range "0" "8"];
                cats [range "1" "9"; range "0" "9"];
                range "1" "9"])).

Definition IPV6_REGEX : RegExp := Cat (alts addressForms) maskSuffix.

Definition isIPv6 (ip : string) : bool := test IPV6_REGEX ip.

(** What a call does: it returns, or it throws an error of the class
    [name] with [message]. *)
Inductive outcome (A : Type) :=
| Return (a : A)
| Raise (name message : string).
Arguments Return {A} a.
Arguments Raise {A} name message.

(** [s.split(sep)] for a separator that is not empty; [skipping] counts the
    characters of a separator still to pass. *)
Fixpoint splitFrom (sep : string) (skipping : nat) (s : string) : list string :=
  match s with
  | EmptyString => [EmptyString]
  | String c r =>
      match skipping with
      | S k => splitFrom sep k r
      | O =>
          if String.prefix sep s
          then EmptyString :: splitFrom sep (String.length sep - 1) r
          else match splitFrom sep 0 r with
               | p :: ps => String c p :: ps
               | [] => [String c EmptyString]
               end
      end
  end.

Definition split (sep s : string) : list string := splitFrom sep 0 s.

(** [parseInt(s, radix)] for radix 10 or 16; [undefined] reads as the
    string 'undefined'. *)
Definition parseIntRadix (radix : Z) (s : option string) : option Z :=
  let s := trimStart (default "undefined" s) in
  let '(sign, s) :=
    match s with
    | String "-"%char r => (-1, r)
    | String "+"%char r => (1, r)
    | _ => (1, s)
    end in
  let s :=
    if radix =? 16 then
      match s with
      | String "0"%char (String "x"%char r) => r
      | String "0"%char (String "X"%char r) => r
      | _ => s
      end
    else s in
  option_map (Z.mul sign) (parseDigits radix s None).

(** [parts[i] ? parts[i].split(':') : []] *)
Definition groupsOf (part : option string) : list string :=
  match part with
  | Some p => if String.eqb p "" then [] else split ":" p
  | None => []
  end.

Definition normalizeIP (ip : string) : outcome (list (option Z)) :=
  let parts := split "::" ip in
  let leftParts := groupsOf (nth_error parts 0) in
  let rightParts := groupsOf (nth_error parts 1) in
  let missingGroups := 8 - Z.of_nat (length leftParts + length rightParts) in
  if missingGroups <? 0 then Raise "RangeError" "Invalid array length"
  else
    let fullGroups :=
      (leftParts ++ repeat "0" (Z.to_nat missingGroups) ++ rightParts)%list in
    Return (map (fun part => parseIntRadix 16 (Some (if String.eqb part "" then "0" else part)))
                fullGroups).

(** The conversion of a number to a 32-bit integer that [&], [|] and [<<]
    apply to their operands; [NaN] and [undefined] give 0. *)
Definition toInt32 (x : option Z) : Z :=
  match x with
  | Some z => (z + 2 ^ 31) mod 2 ^ 32 - 2 ^ 31
  | None => 0
  end.

(** [x.toString(16)] *)
Definition toString16 (x : option Z) : string :=
  match x with
  | Some z => HexadecimalString.NilZero.string_of_int (Z.to_hex_int z)
  | None => "NaN"
  end.

(** [s.padStart(4, '0')] *)
Definition padStart4 (s : string) : string :=
  fold_right append s (repeat "0" (4 - String.length s)).

(** [parts.join(':')] *)
Fixpoint join (parts : list string) : string :=
  match parts with
  | [] => EmptyString
  | [p] => p
  | p :: ps => p +:+ ":" +:+ join ps
  end.

Definition formatAddress (randomAddress : list (option Z)) : string :=
  join (map (fun x => padStart4 (toString16 x)) randomAddress).

(** The loop of [getRandomIPv6] from group [i] on, [count] groups to go,
    [calls] being the number of calls of [Math.random] made so far. *)
Fixpoint fillAddress (random : Random) (numericAddress : list (option Z))
    (fixedGroups partialBits : Z) (i : Z) (count calls : nat) : list (option Z) :=
  match count with
  | O => []
  | S count =>
      if i <? fixedGroups then
        nth (Z.to_nat i) numericAddress None
          :: fillAddress random numericAddress fixedGroups partialBits (i + 1) count calls
      else if (i =? fixedGroups) && (0 <? partialBits) then
        let maskBits := toInt32 (Some (Z.shiftl 65535 (16 - partialBits))) in
        let fixedPart := Z.land (toInt32 (nth (Z.to_nat i) numericAddress None)) maskBits in
        let randomPart := floorTimes (random calls) (Z.shiftl 1 (16 - partialBits)) in
        Some (Z.lor fixedPart (toInt32 (Some randomPart)))
          :: fillAddress random numericAddress fixedGroups partialBits (i + 1) count (S calls)
      else
        Some (floorTimes (random calls) 65536)
          :: fillAddress random numericAddress fixedGroups partialBits (i + 1) count (S calls)
  end.

Definition getRandomIPv6 (random : Random) (cidr : string) : outcome string :=
  if negb (isIPv6 cidr) then Raise "Error" "Invalid IPv6 format"
  else
    let parts := split "/" cidr in
    let baseAddress := default "" (nth_error parts 0) in
    let prefixString := nth_error parts 1 in
    match parseIntRadix 10 prefixString with
    | None => Raise "Error" "Invalid IPv6 subnet mask (must be between 1 and 128)"
    | Some prefixLength =>
        if (prefixLength <? 1) || (128 <? prefixLength)
        then Raise "Error" "Invalid IPv6 subnet mask (must be between 1 and 128)"
        else
          match normalizeIP baseAddress with
          | Raise name message => Raise name message
          | Return numericAddress =>
              let fixedGroups := prefixLength / 16 in
              let partialBits := prefixLength mod 16 in
              Return (formatAddress
                        (fillAddress random numericAddress fixedGroups partialBits 0 8 0))
          end
    end.

End UtilsIPv6.

Module UtilsIPv6Facts.
Import JsText JsTextFacts JsRegExp UtilsRandom UtilsRandomFacts UtilsIPv6.

(** A group of an address: a 16-bit number. *)
Definition isGroup (g : Z) : Prop := 0 <= g < 65536.

Lemma toInt32_small z : - 2 ^ 31 <= z < 2 ^ 31 -> toInt32 (Some z) = z.
Proof.
  intros Hz. unfold toInt32. rewrite Z.mod_small; lia.
Qed.

Lemma testbit_above x k n : 0 <= x < 2 ^ k -> 0 <= k <= n -> Z.testbit x n = false.
Proof.
  intros Hx Hk. apply Z.testbit_false; [lia|].
  rewrite Z.div_small; [reflexivity|]. split; [lia|].
  apply Z.lt_le_trans with (2 ^ k); [lia|]. apply Z.pow_le_mono_r; lia.
Qed.

(** [x & (0xffff << k)] keeps the bits of a group from bit [k] up. *)
Lemma land_mask x k :
  isGroup x -> 0 <= k <= 16 ->
  Z.land x (Z.shiftl 65535 k) = Z.shiftl (Z.shiftr x k) k.
Proof.
  intros Hx Hk. apply Z.bits_inj'. intros n Hn.
  rewrite Z.land_spec, !Z.shiftl_spec by lia.
  destruct (Z.ltb_spec n k) as [Hlt|Hge].
  - rewrite (Z.testbit_neg_r 65535 (n - k)), (Z.testbit_neg_r (Z.shiftr x k) (n - k))
      by lia. apply andb_false_r.
  - rewrite Z.shiftr_spec by lia. replace (n - k + k) with n by lia.
    destruct (Z.ltb_spec (n - k) 16) as [Hlo|Hhi].
    + change 65535 with (Z.ones 16). rewrite Z.ones_spec_low by lia. apply andb_true_r.
    + rewrite (testbit_above x 16 n) by (unfold isGroup in Hx; cbn; lia). reflexivity.
Qed.

Lemma lor_disjoint hi lo k :
  0 <= hi -> 0 <= k -> 0 <= lo < 2 ^ k ->
  Z.lor (Z.shiftl hi k) lo = hi * 2 ^ k + lo.
Proof.
  intros Hhi Hk Hlo.
  assert (Z.land (Z.shiftl hi k) lo = 0) as Hdis.
  { apply Z.bits_inj'. intros n Hn. rewrite Z.land_spec, Z.bits_0.
    destruct (Z.ltb_spec n k) as [Hlt|Hge].
    - rewrite Z.shiftl_spec_low by lia. reflexivity.
    - rewrite (testbit_above lo k n) by lia. apply andb_false_r. }
  rewrite <- Z.lxor_lor by exact Hdis. rewrite <- Z.add_nocarry_lxor by exact Hdis.
  now rewrite Z.shiftl_mul_pow2 by lia.
Qed.

(** The group that is partly fixed: its top [partialBits] bits are those of
    the base group, and it is a group. *)
Lemma partial_group x rnd partialBits :
  isGroup x -> 0 < partialBits < 16 ->
  0 <= rnd < Z.shiftl 1 (16 - partialBits) ->
  let v := Z.lor (Z.land (toInt32 (Some x))
                         (toInt32 (Some (Z.shiftl 65535 (16 - partialBits)))))
                 (toInt32 (Some rnd)) in
  isGroup v /\ v / 2 ^ (16 - partialBits) = x / 2 ^ (16 - partialBits).
Proof.
  intros Hx Hp Hr v. subst v. set (k := 16 - partialBits) in *.
  assert (0 < k < 16) as Hk by lia.
  rewrite Z.shiftl_1_l in Hr.
  assert (0 < 2 ^ k) as Hpos by (apply Z.pow_pos_nonneg; lia).
  assert (2 ^ k <= 2 ^ 15) as Hk15 by (apply Z.pow_le_mono_r; lia).
  assert (2 ^ k * 2 ^ (16 - k) = 65536) as Hsplit.
  { rewrite <- Z.pow_add_r by lia. replace (k + (16 - k)) with 16 by lia. reflexivity. }
  assert (0 < 2 ^ (16 - k)) as Hpos' by (apply Z.pow_pos_nonneg; lia).
  unfold isGroup in Hx.
  rewrite (toInt32_small x) by lia.
  rewrite (toInt32_small rnd) by lia.
  rewrite (toInt32_small (Z.shiftl 65535 k)).
  2:{ rewrite Z.shiftl_mul_pow2 by lia. lia. }
  rewrite land_mask by (unfold isGroup; lia).
  rewrite Z.shiftr_div_pow2 by lia.
  assert (0 <= x / 2 ^ k < 2 ^ (16 - k)) as Hq.
  { split; [apply Z.div_pos; lia|]. apply Z.div_lt_upper_bound; lia. }
  rewrite lor_disjoint by lia. split.
  - unfold isGroup. nia.
  - rewrite Z.div_add_l by lia. rewrite (Z.div_small rnd) by lia. lia.
Qed.

Lemma nth_map_Some (bs : list Z) i :
  (i < length bs)%nat -> nth i (map Some bs) None = Some (nth i bs 0).
Proof.
  revert i. induction bs as [|b bs IH]; intros [|i]; cbn [length nth map]; try lia.
  - reflexivity.
  - intros Hi. apply IH. lia.
Qed.

(** The groups the loop fills in from group [i] on. *)
Lemma fillAddress_spec (random : Random) (bs : list Z) fixedGroups partialBits :
  (forall i, (0 <= random i)%Q /\ (random i < 1)%Q) ->
  length bs = 8%nat -> Forall isGroup bs ->
  0 <= fixedGroups -> 0 <= partialBits < 16 ->
  forall count i calls,
    (i + count = 8)%nat ->
    exists rs,
      fillAddress random (map Some bs) fixedGroups partialBits (Z.of_nat i) count calls
      = map Some rs /\
      length rs = count /\ Forall isGroup rs /\
      (forall j, (j < count)%nat -> Z.of_nat (i + j) < fixedGroups ->
         nth j rs 0 = nth (i + j) bs 0) /\
      (forall j, (j < count)%nat -> Z.of_nat (i + j) = fixedGroups -> 0 < partialBits ->
         nth j rs 0 / 2 ^ (16 - partialBits) = nth (i + j) bs 0 / 2 ^ (16 - partialBits)).
Proof.
  intros Hr Hlen Hbs Hf Hp. induction count as [|count IH]; intros i calls Hi.
  - exists []. cbn. repeat split; try constructor; intros j Hj; lia.
  - cbn [fillAddress].
    replace (Z.of_nat i + 1) with (Z.of_nat (S i)) by lia.
    assert (isGroup (nth i bs 0)) as Hg.
    { rewrite List.Forall_forall in Hbs. apply Hbs, nth_In. lia. }
    assert (nth (Z.to_nat (Z.of_nat i)) (map Some bs) None = Some (nth i bs 0)) as Hnth.
    { rewrite Nat2Z.id. apply nth_map_Some. lia. }
    destruct (Hr calls) as [R0 R1].
    destruct (Z.ltb_spec (Z.of_nat i) fixedGroups) as [Hlt|Hge].
    + destruct (IH (S i) calls ltac:(lia)) as (rs & -> & Hl & Hall & Hfix & Hpart).
      exists (nth i bs 0 :: rs). rewrite Hnth. split; [reflexivity|].
      split; [cbn [length]; lia|]. split; [now constructor|]. split.
      * intros [|j] Hj Hij; cbn [nth]; [now rewrite Nat.add_0_r|].
        rewrite (Hfix j) by lia. f_equal. lia.
      * intros [|j] Hj Hij Hpb; cbn [nth]; [lia|].
        rewrite (Hpart j) by lia. do 2 f_equal. lia.
    + destruct (Z.eqb_spec (Z.of_nat i) fixedGroups) as [Heq|Hne];
        [destruct (Z.ltb_spec 0 partialBits) as [Hpb|Hpb]|]; cbn [andb].
      * destruct (IH (S i) (S calls) ltac:(lia)) as (rs & -> & Hl & Hall & Hfix & Hpart).
        rewrite Hnth.
        destruct (partial_group (nth i bs 0)
                    (floorTimes (random calls) (Z.shiftl 1 (16 - partialBits)))
                    partialBits Hg ltac:(lia)) as [G1 G2].
        { apply floorTimes_range; [exact R0|exact R1|].
          rewrite Z.shiftl_1_l. apply Z.pow_pos_nonneg; lia. }
        eexists (_ :: rs). split; [reflexivity|].
        split; [cbn [length]; lia|]. split; [constructor; [exact G1|exact Hall]|]. split.
        -- intros [|j] Hj Hij; cbn [nth]; [lia|].
           rewrite (Hfix j) by lia. f_equal. lia.
        -- intros [|j] Hj Hij _; cbn [nth]; [now rewrite Nat.add_0_r|lia].
      * destruct (IH (S i) (S calls) ltac:(lia)) as (rs & -> & Hl & Hall & Hfix & Hpart).
        eexists (_ :: rs). split; [reflexivity|].
        split; [cbn [length]; lia|]. split.
        { constructor; [|exact Hall]. apply floorTimes_range; [exact R0|exact R1|lia]. }
        split.
        -- intros [|j] Hj Hij; cbn [nth]; [lia|].
           rewrite (Hfix j) by lia. f_equal. lia.
        -- intros [|j] Hj Hij Hpb'; cbn [nth]; lia.
      * destruct (IH (S i) (S calls) ltac:(lia)) as (rs & -> & Hl & Hall & Hfix & Hpart).
        eexists (_ :: rs). split; [reflexivity|].
        split; [cbn [length]; lia|]. split.
        { constructor; [|exact Hall]. apply floorTimes_range; [exact R0|exact R1|lia]. }
        split.
        -- intros [|j] Hj Hij; cbn [nth]; [lia|].
           rewrite (Hfix j) by lia. f_equal. lia.
        -- intros [|j] Hj Hij Hpb'; cbn [nth]; [lia|].
           rewrite (Hpart j) by lia. do 2 f_equal. lia.
Qed.

Lemma normalizeIP_length ip l : normalizeIP ip = Return l -> length l = 8%nat.
Proof.
  unfold normalizeIP. cbn zeta.
  set (lp := groupsOf _). set (rp := groupsOf _).
  destruct (Z.ltb_spec (8 - Z.of_nat (length lp + length rp)) 0); [discriminate|].
  intros [= <-]. rewrite length_map, !length_app, repeat_length. lia.
Qed.

(** X23 -- [getRandomIPv6(cidr)] for a block [base/p] that passes the
    format check, [p] between 1 and 128, whose base address [normalizeIP]
    reads as eight 16-bit groups: whatever [Math.random] gives, the result is
    the text of eight 16-bit groups (four hexadecimal digits each, joined by
    colons) that lie in the block: the first [p / 16] groups are those of the
    base address, and when [p] is not a multiple of 16 the next group has the
    same top [p mod 16] bits as that of the base address. *)
Theorem getRandomIPv6_in_block :
  forall (random : Random) (cidr base prefixString : string) (p : Z) (bs : list Z),
    (forall i, (0 <= random i)%Q /\ (random i < 1)%Q) ->
    isIPv6 cidr = true ->
    nth_error (split "/" cidr) 0 = Some base ->
    nth_error (split "/" cidr) 1 = Some prefixString ->
    parseIntRadix 10 (Some prefixString) = Some p ->
    1 <= p <= 128 ->
    normalizeIP base = Return (map Some bs) ->
    Forall isGroup bs ->
    exists rs,
      getRandomIPv6 random cidr = Return (formatAddress (map Some rs)) /\
      length rs = 8%nat /\
      Forall isGroup rs /\
      (forall i, (Z.of_nat i < p / 16) -> nth i rs 0 = nth i bs 0) /\
      (0 < p mod 16 ->
       nth (Z.to_nat (p / 16)) rs 0 / 2 ^ (16 - p mod 16)
       = nth (Z.to_nat (p / 16)) bs 0 / 2 ^ (16 - p mod 16)).
Proof.
  intros random cidr base prefixString p bs Hr Hip Hbase Hprefix Hparse Hp Hnorm Hbs.
  assert (length bs = 8%nat) as Hlen.
  { apply normalizeIP_length in Hnorm. now rewrite length_map in Hnorm. }
  assert (0 <= p / 16 <= 8) as Hf.
  { split; [apply Z.div_pos; lia|]. apply Z.div_le_upper_bound; lia. }
  assert (0 <= p mod 16 < 16) as Hpb by (apply Z.mod_pos_bound; lia).
  destruct (fillAddress_spec random bs (p / 16) (p mod 16) Hr Hlen Hbs ltac:(lia) Hpb
              8%nat 0%nat 0%nat eq_refl) as (rs & Hfill & Hl & Hall & Hfix & Hpart).
  exists rs. split.
  - unfold getRandomIPv6. rewrite Hip. cbn [negb]. cbn zeta.
    rewrite Hbase, Hprefix, Hparse.
    change (default "" (Some base)) with base.
    destruct (Z.ltb_spec p 1); [lia|]. destruct (Z.ltb_spec 128 p); [lia|]. cbn [orb].
    rewrite Hnorm. change 0 with (Z.of_nat 0) at 1. now rewrite Hfill.
  - split; [exact Hl|]. split; [exact Hall|]. split.
    + intros i Hi. apply (Hfix i); lia.
    + intros Hpos.
      assert (p / 16 < 8) as Hlt.
      { apply Z.div_lt_upper_bound; [lia|].
        assert (p <> 128) by (intros ->; change (128 mod 16) with 0 in Hpos; lia). lia. }
      apply (Hpart (Z.to_nat (p / 16))); lia.
Qed.

Lemma getRandomIPv6_in_block_witness :
  isIPv6 "2001:db8::/60" = true /\
  normalizeIP "2001:db8::" = Return (map Some [8193; 3512; 0; 0; 0; 0; 0; 0]) /\
  exists rs,
    getRandomIPv6 half "2001:db8::/60" = Return (formatAddress (map Some rs)) /\
    length rs = 8%nat /\
    Forall isGroup rs /\
    (forall i, (Z.of_nat i < 60 / 16) -> nth i rs 0 = nth i [8193; 3512; 0; 0; 0; 0; 0; 0] 0) /\
    (0 < 60 mod 16 ->
     nth (Z.to_nat (60 / 16)) rs 0 / 2 ^ (16 - 60 mod 16)
     = nth (Z.to_nat (60 / 16)) [8193; 3512; 0; 0; 0; 0; 0; 0] 0 / 2 ^ (16 - 60 mod 16)).
Proof.
  split; [vm_compute; reflexivity|]. split; [vm_compute; reflexivity|].
  apply (getRandomIPv6_in_block half "2001:db8::/60" "2001:db8::" "60" 60
           [8193; 3512; 0; 0; 0; 0; 0; 0]).
  - exact half_range.
  - vm_compute. reflexivity.
  - vm_compute. reflexivity.
  - vm_compute. reflexivity.
  - vm_compute. reflexivity.
  - lia.
  - vm_compute. reflexivity.
  - repeat constructor; unfold isGroup; lia.
Defined.

End UtilsIPv6Facts.

Module UtilsIPv6RoundTrip.
Import JsText JsTextFacts JsRegExp UtilsRandom UtilsRandomFacts UtilsIPv6 UtilsIPv6Facts.

Definition formatGroup (g : Z) : string := padStart4 (toString16 (Some g)).

Definition notColon (c : ascii) : bool := negb (Ascii.eqb c ":").

(** The text of a group is four characters, none a colon, that
    [parseInt(_, 16)] reads back as the group. *)
Definition groupOk (g : Z) : bool :=
  let s := formatGroup g in
  match s with
  | String c1 (String c2 (String c3 (String c4 EmptyString))) =>
      notColon c1 && notColon c2 && notColon c3 && notColon c4 &&
      match parseIntRadix 16 (Some s) with
      | Some v => v =? g
      | None => false
      end
  | _ => false
  end.

Definition digits16 : list Z := [0; 1; 2; 3; 4; 5; 6; 7; 8; 9; 10; 11; 12; 13; 14; 15].

Lemma all_groups_ok :
  forallb (fun d3 => forallb (fun d2 => forallb (fun d1 => forallb (fun d0 =>
    groupOk (((d3 * 16 + d2) * 16 + d1) * 16 + d0)) digits16) digits16) digits16) digits16
  = true.
Proof. vm_compute. reflexivity. Qed.

Lemma digit16 d : 0 <= d < 16 -> In d digits16.
Proof.
  intros Hd. unfold digits16. cbn [In].
  assert (d = 0 \/ d = 1 \/ d = 2 \/ d = 3 \/ d = 4 \/ d = 5 \/ d = 6 \/ d = 7 \/
          d = 8 \/ d = 9 \/ d = 10 \/ d = 11 \/ d = 12 \/ d = 13 \/ d = 14 \/ d = 15)
    as Hcases by lia.
  intuition auto.
Qed.

Lemma group_text g : isGroup g -> groupOk g = true.
Proof.
  intros Hg. unfold isGroup in Hg.
  assert (0 <= g / 4096 < 16) as H3 by (Z.to_euclidean_division_equations; lia).
  assert (0 <= g / 256 mod 16 < 16) as H2 by (Z.to_euclidean_division_equations; lia).
  assert (0 <= g / 16 mod 16 < 16) as H1 by (Z.to_euclidean_division_equations; lia).
  assert (0 <= g mod 16 < 16) as H0 by (Z.to_euclidean_division_equations; lia).
  pose proof all_groups_ok as Hall.
  rewrite forallb_forall in Hall. specialize (Hall _ (digit16 _ H3)).
  rewrite forallb_forall in Hall. specialize (Hall _ (digit16 _ H2)).
  rewrite forallb_forall in Hall. specialize (Hall _ (digit16 _ H1)).
  rewrite forallb_forall in Hall. specialize (Hall _ (digit16 _ H0)).
  replace (((g / 4096 * 16 + g / 256 mod 16) * 16 + g / 16 mod 16) * 16 + g mod 16)
    with g in Hall by (Z.to_euclidean_division_equations; lia).
  exact Hall.
Qed.

(** Text that starts with a character other than a colon and holds no two
    colons in a row. *)
Definition plainStart (s : string) : Prop :=
  match s with
  | String c _ => notColon c = true
  | EmptyString => False
  end.

Lemma split_no_double s : includes s "::" = false -> split "::" s = [s].
Proof.
  unfold split. induction s as [|c r IH]; [reflexivity|].
  cbn [includes]. intros Hinc. apply orb_false_iff in Hinc as [Hp Hr].
  cbn [splitFrom]. rewrite Hp. now rewrite (IH Hr).
Qed.

Lemma split_colon_plain s :
  allChars notColon s = true -> split ":" s = [s].
Proof.
  unfold split. induction s as [|c r IH]; [reflexivity|].
  cbn [allChars]. intros Hc. apply andb_true_iff in Hc as [Hc Hr].
  cbn [splitFrom]. rewrite (IH Hr).
  assert (String.prefix ":" (String c r) = false) as ->; [|reflexivity].
  cbn [String.prefix]. destruct (ascii_dec ":" c) as [<-|]; [discriminate|reflexivity].
Qed.

Lemma split_colon_app g rest :
  allChars notColon g = true ->
  split ":" (g +:+ ":" +:+ rest) = g :: split ":" rest.
Proof.
  unfold split. induction g as [|c r IH]; intros Hc.
  - rewrite append_nil_l, append_cons, append_nil_l. cbn [splitFrom].
    assert (String.prefix ":" (String ":" rest) = true) as ->; [|reflexivity].
    cbn [String.prefix]. destruct (ascii_dec ":" ":"); [now destruct rest|congruence].
  - cbn [allChars] in Hc. apply andb_true_iff in Hc as [Hc Hr].
    rewrite append_cons. cbn [splitFrom]. rewrite (IH Hr).
    assert (String.prefix ":" (String c (r +:+ ":" +:+ rest)) = false) as ->; [|reflexivity].
    cbn [String.prefix]. destruct (ascii_dec ":" c) as [<-|]; [discriminate|reflexivity].
Qed.

Lemma includes_plain_app g rest :
  allChars notColon g = true -> plainStart rest -> includes rest "::" = false ->
  includes (g +:+ ":" +:+ rest) "::" = false.
Proof.
  intros Hg Hstart Hrest. induction g as [|c r IH].
  - rewrite append_nil_l, append_cons, append_nil_l. cbn [includes].
    rewrite Hrest, orb_false_r.
    destruct rest as [|d rest']; [destruct Hstart|]. cbn [plainStart] in Hstart.
    cbn [String.prefix]. destruct (ascii_dec ":" ":"); [|congruence].
    destruct (ascii_dec ":" d) as [<-|]; [discriminate|reflexivity].
  - cbn [allChars] in Hg. apply andb_true_iff in Hg as [Hc Hr].
    rewrite append_cons. cbn [includes]. rewrite (IH Hr), orb_false_r.
    cbn [String.prefix]. destruct (ascii_dec ":" c) as [<-|]; [discriminate|reflexivity].
Qed.

Lemma includes_plain g : allChars notColon g = true -> includes g "::" = false.
Proof.
  induction g as [|c r IH]; [reflexivity|]. cbn [allChars]. intros Hc.
  apply andb_true_iff in Hc as [Hc Hr]. cbn [includes]. rewrite (IH Hr), orb_false_r.
  cbn [String.prefix]. destruct (ascii_dec ":" c) as [<-|]; [discriminate|reflexivity].
Qed.

(** What holds of the text of a group. *)
Record groupText (g : Z) (s : string) : Prop := {
  text_plain : allChars notColon s = true;
  text_start : plainStart s;
  text_value : parseIntRadix 16 (Some s) = Some g
}.

Lemma formatGroup_text g : isGroup g -> groupText g (formatGroup g).
Proof.
  intros Hg. pose proof (group_text g Hg) as Hok. unfold groupOk in Hok. cbn zeta in Hok.
  destruct (formatGroup g) as [|c1 [|c2 [|c3 [|c4 [|c5 r]]]]]; try discriminate.
  destruct (parseIntRadix 16 (Some (String c1 (String c2 (String c3 (String c4 ""))))))
    as [v|] eqn:Hv; [|now rewrite andb_false_r in Hok].
  repeat (apply andb_true_iff in Hok as [Hok ?]).
  match goal with H : (v =? g) = true |- _ => apply Z.eqb_eq in H; subst v end.
  split; [|exact Hok|exact Hv].
  cbn [allChars]. now repeat (apply andb_true_iff; split).
Qed.

Lemma join_texts (gs : list Z) :
  Forall isGroup gs -> gs <> [] ->
  let s := join (map formatGroup gs) in
  plainStart s /\ includes s "::" = false /\
  split ":" s = map formatGroup gs.
Proof.
  induction 1 as [|g gs Hg Hgs IH]; intros Hne; [congruence|].
  destruct (formatGroup_text g Hg) as [P1 P2 P3].
  destruct gs as [|g' gs'].
  - cbn [map join]. split; [exact P2|]. split; [now apply includes_plain|].
    now apply split_colon_plain.
  - destruct (IH ltac:(discriminate)) as (Q1 & Q2 & Q3).
    change (join (map formatGroup (g :: g' :: gs')))
      with (formatGroup g +:+ ":" +:+ join (map formatGroup (g' :: gs'))).
    split; [|split].
    + destruct (formatGroup g); [destruct P2|exact P2].
    + now apply includes_plain_app.
    + rewrite split_colon_app by exact P1. cbn zeta in Q3. now rewrite Q3.
Qed.

(** X24 -- [normalizeIP] reads back what [getRandomIPv6] writes: for
    eight 16-bit groups, the text of the address (each group as four
    hexadecimal digits, joined by colons) is normalised to those groups. *)
Theorem normalizeIP_reads_formatAddress :
  forall gs : list Z,
    length gs = 8%nat -> Forall isGroup gs ->
    normalizeIP (formatAddress (map Some gs)) = Return (map Some gs).
Proof.
  intros gs Hlen Hgs.
  assert (gs <> []) as Hne by (intros ->; discriminate).
  destruct (join_texts gs Hgs Hne) as (S1 & S2 & S3). cbn zeta in *.
  assert (formatAddress (map Some gs) = join (map formatGroup gs)) as ->.
  { unfold formatAddress. now rewrite map_map. }
  set (s := join (map formatGroup gs)) in *.
  unfold normalizeIP. cbn zeta. rewrite (split_no_double s S2).
  cbn [nth_error groupsOf].
  assert (String.eqb s "" = false) as ->.
  { destruct s; [destruct S1|reflexivity]. }
  rewrite S3. rewrite length_map, Hlen. cbn [length Nat.add].
  change (8 - Z.of_nat 8 <? 0) with false. cbn iota.
  change (Z.to_nat (8 - Z.of_nat 8)) with 0%nat. cbn [repeat app].
  rewrite app_nil_r, map_map. f_equal.
  clear -Hgs. induction Hgs as [|g gs Hg _ IH]; [reflexivity|]. cbn [map].
  rewrite IH. f_equal.
  destruct (formatGroup_text g Hg) as [_ P2 P3].
  assert (String.eqb (formatGroup g) "" = false) as ->; [|exact P3].
  destruct (formatGroup g); [destruct P2|reflexivity].
Qed.

Lemma normalizeIP_reads_formatAddress_witness :
  length [8193; 3512; 0; 0; 0; 0; 43981; 1] = 8%nat /\
  Forall isGroup [8193; 3512; 0; 0; 0; 0; 43981; 1] /\
  formatAddress (map Some [8193; 3512; 0; 0; 0; 0; 43981; 1])
  = "2001:0db8:0000:0000:0000:0000:abcd:0001" /\
  normalizeIP (formatAddress (map Some [8193; 3512; 0; 0; 0; 0; 43981; 1]))
  = Return (map Some [8193; 3512; 0; 0; 0; 0; 43981; 1]).
Proof.
  assert (Forall isGroup [8193; 3512; 0; 0; 0; 0; 43981; 1]) as Hgs
      by (repeat constructor; unfold isGroup; lia).
  split; [reflexivity|]. split; [exact Hgs|]. split; [vm_compute; reflexivity|].
  apply (normalizeIP_reads_formatAddress [8193; 3512; 0; 0; 0; 0; 43981; 1] eq_refl Hgs).
Defined.

End UtilsIPv6RoundTrip.

(* ===================================================================== *)
(** ** src/format-utils.ts: [addFormatMeta]; src/info.ts: the last part of
       [getInfo] *)
(* ===================================================================== *)

Module FormatMeta.
Import FormatUtils JsText UtilsText UtilsIPv6.

(** A format with the properties [addFormatMeta] adds to those of
    [VideoFormat]. *)
Record EnhancedFormat := mkEnhanced {
  enhanced : VideoFormat;
  container : option string;
  videoCodec : option string;
  audioCodec : option string
}.

(** [\w] *)
Definition isWordChar (c : ascii) : bool :=
  let n := nat_of_ascii c in
  (((48 <=? n) && (n <=? 57)) || ((65 <=? n) && (n <=? 90)) ||
   ((97 <=? n) && (n <=? 122)) || (n =? 95))%nat.

(** The pattern [p\b] matches at the start of [s]. *)
Definition wordHere (p s : string) : bool :=
  String.prefix p s &&
  match skip (String.length p) s with
  | String c _ => negb (isWordChar c)
  | EmptyString => true
  end.

(** [/\bsource[/=]yt_live_broadcast\b/.test(s)]; [afterWord] says that the
    character before [s] is a word character. *)
Fixpoint liveSource (afterWord : bool) (s : string) : bool :=
  match s with
  | EmptyString => false
  | String c r =>
      (negb afterWord &&
       (wordHere "source/yt_live_broadcast" s || wordHere "source=yt_live_broadcast" s))
      || liveSource (isWordChar c) r
  end.

(** [/\/manifest\/hls_(variant|playlist)\//.test(s)] *)
Definition hlsManifest (s : string) : bool :=
  includes s "/manifest/hls_variant/" || includes s "/manifest/hls_playlist/".

(** [/\/manifest\/dash\//.test(s)] *)
Definition dashManifest (s : string) : bool := includes s "/manifest/dash/".

(** [arr.slice(-1)[0]] *)
Definition lastOf (l : list string) : option string := lastItem l.

(** [addFormatMeta] from the object [{ ...formatInfo, ...format }] on. *)
Definition addMeta (e : VideoFormat) : EnhancedFormat :=
  let hasVideo := truthyS (qualityLabel e) in
  let hasAudio := truthyN (audioBitrate e) in
  let container :=
    if truthyS (mimeType e)
    then nth_error (splitOn "/" (hd EmptyString (splitOn ";" (default "" (mimeType e))))) 1
    else None in
  let codecs :=
    if truthyS (mimeType e)
    then Some (between (default "" (mimeType e)) (PString ("codecs=" +:+ dq)) dq)
    else None in
  let videoCodec :=
    if hasVideo && truthyS codecs
    then nth_error (split ", " (default "" codecs)) 0 else None in
  let audioCodec :=
    if hasAudio && truthyS codecs
    then lastOf (split ", " (default "" codecs)) else None in
  let url := orString (url e) "" in
  mkEnhanced
    (mkVideoFormat (itag e) (FormatUtils.url e) (mimeType e) (bitrate e) (audioBitrate e)
       (width e) (height e) (fps e) (contentLength e) (qualityLabel e)
       (audioSampleRate e) codecs (Some hasVideo) (Some hasAudio)
       (Some (liveSource false url)) (Some (hlsManifest url)) (Some (dashManifest url))
       (signatureCipher e) (cipher e))
    container videoCodec audioCodec.

Definition withIsHLS (b : option bool) (f : EnhancedFormat) : EnhancedFormat :=
  let e := enhanced f in
  mkEnhanced
    (mkVideoFormat (itag e) (url e) (mimeType e) (bitrate e) (audioBitrate e)
       (width e) (height e) (fps e) (contentLength e) (qualityLabel e)
       (audioSampleRate e) (codecs e) (hasVideo e) (hasAudio e)
       (isLive e) b (isDashMPD e) (signatureCipher e) (cipher e))
    (container f) (videoCodec f) (audioCodec f).

Definition withEstimate (b : option Z) (f : EnhancedFormat) : EnhancedFormat :=
  mkEnhanced (withAudioBitrate b (enhanced f)) (container f) (videoCodec f) (audioCodec f).

Section Finish.
(** [{ ...FORMATS[format.itag], ...format }]: the table is that of
    [formats.ts]. *)
Variable withFormatInfo : VideoFormat -> VideoFormat.
(** [estimateAudioBitrate] of [info.ts]. *)
Variable estimateAudioBitrate : EnhancedFormat -> option Z.

Definition addFormatMeta (format : VideoFormat) : EnhancedFormat :=
  addMeta (withFormatInfo format).

(** The function [getInfo] maps over [info.formats]. *)
Definition finishFormat (format : VideoFormat) : EnhancedFormat :=
  let enhancedFormat := addFormatMeta format in
  let enhancedFormat :=
    if negb (truthyN (audioBitrate (enhanced enhancedFormat))) &&
       truthyB (hasAudio (enhanced enhancedFormat))
    then withEstimate (estimateAudioBitrate enhancedFormat) enhancedFormat
    else enhancedFormat in
  let e := enhanced enhancedFormat in
  if negb (truthyB (isHLS e)) && truthyS (mimeType e) &&
     (includes (default "" (mimeType e)) "hls" ||
      includes (default "" (mimeType e)) "x-mpegURL" ||
      includes (default "" (mimeType e)) "application/vnd.apple.mpegurl")
  then withIsHLS (Some true) enhancedFormat
  else enhancedFormat.

(** [formatUtils.sortFormats] on the enhanced formats. *)
Definition byRank (a b : EnhancedFormat) : option Z :=
  sortFormats (enhanced a) (enhanced b).

Definition both (f : EnhancedFormat) : bool :=
  truthyB (hasVideo (enhanced f)) && truthyB (hasAudio (enhanced f)).
Definition video (f : EnhancedFormat) : bool := truthyB (hasVideo (enhanced f)).
Definition audio (f : EnhancedFormat) : bool := truthyB (hasAudio (enhanced f)).

(** [a || b] on what [find] gives. *)
Definition orElse {A} (a b : option A) : option A :=
  match a with
  | Some _ => a
  | None => b
  end.

(** The last part of [getInfo], on the formats that passed the filter:
    the sorted [info.formats] and [info.bestFormat]. *)
Definition finishFormats (formats : list VideoFormat)
    : list EnhancedFormat * option EnhancedFormat :=
  let formats := arraySort byRank (map finishFormat formats) in
  let bestFormat :=
    orElse (List.find both formats)
      (orElse (List.find video formats)
         (orElse (List.find audio formats) (hd_error formats))) in
  (formats, bestFormat).

End Finish.

End FormatMeta.

Module FormatMetaFacts.
Import FormatUtils FormatUtilsFacts SortFormatsFacts JsText UtilsText FormatMeta.

Lemma addMeta_flags e :
  hasVideo (enhanced (addMeta e)) = Some (truthyS (qualityLabel e)) /\
  hasAudio (enhanced (addMeta e)) = Some (truthyN (audioBitrate e)) /\
  audioBitrate (enhanced (addMeta e)) = audioBitrate e /\
  qualityLabel (enhanced (addMeta e)) = qualityLabel e.
Proof. repeat split. Qed.

Lemma truthyB_Some b : truthyB (Some b) = b.
Proof. now destruct b. Qed.

(** X25 -- the formats of [getInfo] never get an estimated audio bitrate:
    whatever [estimateAudioBitrate] would give, a format comes out with the
    audio bitrate it has after [FORMATS] is merged in, [hasAudio] says
    whether that bitrate is a number other than 0, and [hasVideo] whether
    the quality label is a non-empty string.  So a format without an audio
    bitrate has [hasAudio] false. *)
Theorem getInfo_never_estimates :
  forall (withFormatInfo : VideoFormat -> VideoFormat)
         (estimate estimate' : EnhancedFormat -> option Z) (format : VideoFormat),
    let f := finishFormat withFormatInfo estimate format in
    f = finishFormat withFormatInfo estimate' format /\
    audioBitrate (enhanced f) = audioBitrate (withFormatInfo format) /\
    hasAudio (enhanced f) = Some (truthyN (audioBitrate (withFormatInfo format))) /\
    hasVideo (enhanced f) = Some (truthyS (qualityLabel (withFormatInfo format))).
Proof.
  intros withFormatInfo estimate estimate' format f. subst f.
  assert (forall est, finishFormat withFormatInfo est format =
            let e := addMeta (withFormatInfo format) in
            if negb (truthyB (isHLS (enhanced e))) && truthyS (mimeType (enhanced e)) &&
               (includes (default "" (mimeType (enhanced e))) "hls" ||
                includes (default "" (mimeType (enhanced e))) "x-mpegURL" ||
                includes (default "" (mimeType (enhanced e))) "application/vnd.apple.mpegurl")
            then withIsHLS (Some true) e else e) as Hfin.
  { intros est. unfold finishFormat, addFormatMeta. cbn zeta.
    destruct (addMeta_flags (withFormatInfo format)) as (_ & Ha & Hb & _).
    rewrite Ha, Hb, truthyB_Some.
    destruct (truthyN (audioBitrate (withFormatInfo format))); reflexivity. }
  rewrite !Hfin. cbn zeta. split; [reflexivity|].
  destruct (_ && _ && _); repeat split.
Qed.

Section Best.
Variable withFormatInfo : VideoFormat -> VideoFormat.
Variable estimateAudioBitrate : EnhancedFormat -> option Z.

Lemma byRank_total x y :
  True -> True -> cmpPositive (byRank x y) = true -> notAfter byRank y x.
Proof.
  intros _ _. apply (sortFormats_total (enhanced x) (enhanced y)).
Qed.

Lemma byRank_trans x y z :
  True -> True -> True ->
  notAfter byRank x y -> notAfter byRank y z -> notAfter byRank x z.
Proof.
  intros _ _ _. apply (sortFormats_trans (enhanced x) (enhanced y) (enhanced z)).
Qed.

(** The first element of a sorted array that satisfies [p] is not ranked
    behind any element that satisfies [p]. *)
Lemma find_sorted_first (p : EnhancedFormat -> bool) l best :
  StronglySorted (notAfter byRank) l ->
  List.find p l = Some best ->
  In best l /\ p best = true /\
  forall g, In g l -> p g = true -> notAfter byRank best g.
Proof.
  induction 1 as [|x l Hs IH Hx]; cbn [List.find]; [discriminate|].
  destruct (p x) eqn:Hp.
  - intros [= <-]. split; [now left|]. split; [exact Hp|].
    intros g [<-|Hg] _.
    + apply (notAfter_refl byRank (fun _ => True) byRank_total x I).
    + rewrite List.Forall_forall in Hx. now apply Hx.
  - intros Hf. destruct (IH Hf) as (Hin & Hb & Hrank).
    split; [now right|]. split; [exact Hb|].
    intros g [<-|Hg] Hpg; [congruence|]. now apply Hrank.
Qed.

Lemma find_none_all (p : EnhancedFormat -> bool) l g :
  List.find p l = None -> In g l -> p g = false.
Proof. intros Hf Hg. now apply (find_none p l Hf). Qed.

(** X26 -- at the end of [getInfo], [info.formats] is the finished formats
    sorted by [sortFormats], and [info.bestFormat] is one of them: a format
    with video and audio when there is one, else one with video when there is
    one, else one with audio when there is one, else the first format; and
    among the formats of the kind it is taken from, none is ranked before it
    by [sortFormats]. *)
Theorem getInfo_bestFormat :
  forall formats : list VideoFormat,
    formats <> [] ->
    let sorted := fst (finishFormats withFormatInfo estimateAudioBitrate formats) in
    let kind (best : EnhancedFormat) : EnhancedFormat -> bool :=
      if both best then both else if video best then video
      else if audio best then audio else fun _ => true in
    Permutation (map (finishFormat withFormatInfo estimateAudioBitrate) formats) sorted /\
    StronglySorted (notAfter byRank) sorted /\
    exists best,
      snd (finishFormats withFormatInfo estimateAudioBitrate formats) = Some best /\
      In best sorted /\
      (forall g, In g sorted -> both g = true -> both best = true) /\
      (forall g, In g sorted -> video g = true -> video best = true) /\
      ((forall g, In g sorted -> video g = false) ->
       forall g, In g sorted -> audio g = true -> audio best = true) /\
      (forall g, In g sorted -> kind best g = true -> notAfter byRank best g).
Proof.
  intros formats Hne sorted kind. subst sorted. unfold finishFormats. cbn [fst snd].
  set (fs := map (finishFormat withFormatInfo estimateAudioBitrate) formats).
  set (sorted := arraySort byRank fs).
  assert (Permutation fs sorted) as Hperm by apply arraySort_perm.
  assert (StronglySorted (notAfter byRank) sorted) as Hsorted.
  { apply (arraySort_sorted byRank (fun _ => True) byRank_total byRank_trans).
    apply List.Forall_forall. tauto. }
  split; [exact Hperm|]. split; [exact Hsorted|].
  assert (video_of_both : forall g, both g = true -> video g = true).
  { intros g. unfold both, video. now intros [? _]%andb_true_iff. }
  assert (audio_of_both : forall g, both g = true -> audio g = true).
  { intros g. unfold both, audio. now intros [_ ?]%andb_true_iff. }
  destruct (List.find both sorted) as [best|] eqn:Hboth; cbn [orElse].
  { destruct (find_sorted_first both sorted best Hsorted Hboth) as (Hin & Hb & Hrank).
    exists best. split; [reflexivity|]. split; [exact Hin|].
    split; [intros; exact Hb|]. split; [intros; now apply video_of_both|].
    split; [intros; now apply audio_of_both|].
    intros g Hg Hk. subst kind. cbn beta in Hk. rewrite Hb in Hk. now apply Hrank. }
  destruct (List.find video sorted) as [best|] eqn:Hvideo; cbn [orElse].
  { destruct (find_sorted_first video sorted best Hsorted Hvideo) as (Hin & Hb & Hrank).
    pose proof (find_none_all both sorted best Hboth Hin) as Hnb.
    exists best. split; [reflexivity|]. split; [exact Hin|].
    split; [intros g Hg Hgb; now rewrite (find_none_all both sorted g Hboth Hg) in Hgb|].
    split; [intros; exact Hb|].
    split; [intros Hno; now rewrite (Hno best Hin) in Hb|].
    intros g Hg Hk. subst kind. cbn beta in Hk. rewrite Hnb, Hb in Hk. now apply Hrank. }
  destruct (List.find audio sorted) as [best|] eqn:Haudio; cbn [orElse].
  { destruct (find_sorted_first audio sorted best Hsorted Haudio) as (Hin & Hb & Hrank).
    pose proof (find_none_all both sorted best Hboth Hin) as Hnb.
    pose proof (find_none_all video sorted best Hvideo Hin) as Hnv.
    exists best. split; [reflexivity|]. split; [exact Hin|].
    split; [intros g Hg Hgb; now rewrite (find_none_all both sorted g Hboth Hg) in Hgb|].
    split; [intros g Hg Hgv; now rewrite (find_none_all video sorted g Hvideo Hg) in Hgv|].
    split; [intros; exact Hb|].
    intros g Hg Hk. subst kind. cbn beta in Hk. rewrite Hnb, Hnv, Hb in Hk.
    now apply Hrank. }
  destruct sorted as [|best rest] eqn:Es.
  { exfalso. apply Permutation_sym, Permutation_nil in Hperm. subst fs.
    destruct formats; [congruence|discriminate]. }
  exists best. cbn [hd_error]. split; [reflexivity|]. split; [now left|].
  pose proof (find_none_all both _ best Hboth ltac:(now left)) as Hnb.
  pose proof (find_none_all video _ best Hvideo ltac:(now left)) as Hnv.
  pose proof (find_none_all audio _ best Haudio ltac:(now left)) as Hna.
  split; [intros g Hg Hgb; now rewrite (find_none_all both _ g Hboth Hg) in Hgb|].
  split; [intros g Hg Hgv; now rewrite (find_none_all video _ g Hvideo Hg) in Hgv|].
  split; [intros _ g Hg Hga; now rewrite (find_none_all audio _ g Haudio Hg) in Hga|].
  intros g Hg _. inversion Hsorted as [|? ? _ Hall]; subst.
  destruct Hg as [<-|Hg].
  - apply (notAfter_refl byRank (fun _ => True) byRank_total best I).
  - rewrite List.Forall_forall in Hall. now apply Hall.
Qed.

End Best.

(** A video-only format, an audio-only format and a format with both. *)
Definition sampleFormats : list VideoFormat :=
  [ withQualityLabel (Some "1080p") (withBitrate (Some 4000000) SigFacts.plain18);
    withAudioBitrate (Some 128) SigFacts.throttled140;
    withAudioBitrate (Some 96)
      (withQualityLabel (Some "360p") (withBitrate (Some 500000) SigFacts.plain18)) ].

Lemma getInfo_bestFormat_witness :
  sampleFormats <> [] /\
  let sorted := fst (finishFormats (fun f => f) (fun _ => None) sampleFormats) in
  exists best,
    snd (finishFormats (fun f => f) (fun _ => None) sampleFormats) = Some best /\
    In best sorted /\
    both best = true /\
    forall g, In g sorted -> both g = true -> notAfter byRank best g.
Proof.
  split; [discriminate|].
  destruct (getInfo_bestFormat (fun f => f) (fun _ => None) sampleFormats)
    as (_ & _ & best & Hbest & Hin & Hboth & _ & _ & Hrank); [discriminate|].
  exists best. split; [exact Hbest|]. split; [exact Hin|].
  assert (both best = true) as Hb.
  { apply (Hboth (finishFormat (fun f => f) (fun _ => None)
                    (withAudioBitrate (Some 96)
                       (withQualityLabel (Some "360p")
                          (withBitrate (Some 500000) SigFacts.plain18))))).
    - vm_compute. auto 6.
    - vm_compute. reflexivity. }
  split; [exact Hb|]. intros g Hg Hgb. apply Hrank; [exact Hg|].
  rewrite Hb. exact Hgb.
Defined.

End FormatMetaFacts.

(* ===================================================================== *)
(** ** src/agent.ts: the cookies given to the jar *)
(* ===================================================================== *)

Module Agent.

(** [interface YTCookie]; [expirationDate] is in seconds. *)
Record YTCookie := mkYTCookie {
  name : string;
  value : string;
  expirationDate : option Q;
  domain : option string;
  path : option string;
  secure : option bool;
  httpOnly : option bool;
  hostOnly : option bool;
  sameSite : option string;
  session : option bool
}.

(** [expires]: [new Date(seconds * 1000)], kept as the seconds, or
    ['Infinity']. *)
Inductive Expires :=
| At (seconds : Q)
| Infinity.

(** A [Cookie] of tough-cookie, as [convertCookie] constructs it.  It has no
    property called [name]. *)
Record Cookie := mkCookie {
  key : string;
  cookieValue : string;
  expires : Expires;
  cookieDomain : option string;
  cookiePath : option string;
  cookieSecure : option bool;
  cookieHttpOnly : option bool;
  cookieSameSite : string;
  cookieHostOnly : option bool
}.

(** An element of the array given to [addCookies]. *)
Inductive CookieInput :=
| Plain (cookie : YTCookie)
| Instance (cookie : Cookie).

Definition convertSameSite (sameSite : option string) : string :=
  match sameSite with
  | Some s =>
      if String.eqb s "strict" then "strict"
      else if String.eqb s "lax" then "lax"
      else "none"
  | None => "none"
  end.

Definition SOCS : YTCookie :=
  mkYTCookie "SOCS" "CAI" None (Some ".youtube.com") (Some "/") (Some true)
             (Some false) (Some false) (Some "lax") (Some false).

Section WithToughCookie.
(** [canonicalDomain] and [Cookie.parse] of tough-cookie. *)
Variable canonicalDomain : string -> option string.
Variable parse : string -> option Cookie.

Definition convertCookie (cookie : CookieInput) : Cookie :=
  match cookie with
  | Instance cookie => cookie
  | Plain cookie =>
      mkCookie (name cookie) (value cookie)
        (match expirationDate cookie with
         | Some seconds => At seconds
         | None => Infinity
         end)
        (if truthyS (domain cookie)
         then canonicalDomain (default "" (domain cookie)) else None)
        (path cookie) (secure cookie) (httpOnly cookie)
        (convertSameSite (sameSite cookie)) (hostOnly cookie)
  end.

(** ['name' in c && c.name === 'SOCS'] *)
Definition namedSOCS (c : CookieInput) : bool :=
  match c with
  | Plain cookie => String.eqb (name cookie) "SOCS"
  | Instance _ => false
  end.

(** The jar and its [setCookieSync(cookie, 'https://www.youtube.com')],
    which may throw. *)
Variable Jar : Type.
Variable setCookieSync : Jar -> Cookie -> result Jar.

(** [for (const cookie of cookies) jar.setCookieSync(convertCookie(cookie), ...)]:
    the cookies [setCookieSync] was called with, in order, and the jar at the
    end or the error that stopped the loop. *)
Fixpoint setCookies (jar : Jar) (cookies : list CookieInput)
    : list Cookie * result Jar :=
  match cookies with
  | [] => ([], Ok jar)
  | cookie :: rest =>
      let c := convertCookie cookie in
      match setCookieSync jar c with
      | Ok jar' => let (calls, r) := setCookies jar' rest in (c :: calls, r)
      | Throw e => ([c], Throw e)
      end
  end.

(** What a call of [addCookies] leaves behind: the caller's array (which
    [push] mutates), the calls of [setCookieSync], and the jar or the error. *)
Record Added := mkAdded {
  array : option (list CookieInput);
  calls : list Cookie;
  outcome : result Jar
}.

(** [addCookies(jar, cookies)]: [None] is an argument that is not an array. *)
Definition addCookies (jar : Jar) (cookies : option (list CookieInput)) : Added :=
  match cookies with
  | None => mkAdded None [] (Throw (Error "cookies must be an array"))
  | Some cookies =>
      let cookies :=
        if negb (existsb namedSOCS cookies) then (cookies ++ [Plain SOCS])%list
        else cookies in
      let (calls, r) := setCookies jar cookies in
      mkAdded (Some cookies) calls r
  end.

(** [addCookiesFromString(jar, cookies)]; the array is a fresh one. *)
Definition addCookiesFromString (jar : Jar) (cookies : string) : Added :=
  if String.eqb cookies "" then mkAdded None [] (Throw (Error "cookies must be a string"))
  else
    addCookies jar
      (Some (map Instance
               (flat_map (fun c => match parse c with Some parsed => [parsed] | None => [] end)
                         (splitOn ";" cookies)))).

End WithToughCookie.

End Agent.

Module AgentFacts.
Import Agent.

Section WithToughCookie.
Variable canonicalDomain : string -> option string.
Variable parse : string -> option Cookie.
Variable Jar : Type.
Variable setCookieSync : Jar -> Cookie -> result Jar.

Local Abbreviation convert := (convertCookie canonicalDomain).
Local Abbreviation setCookies := (Agent.setCookies canonicalDomain Jar setCookieSync).
Local Abbreviation addCookies := (Agent.addCookies canonicalDomain Jar setCookieSync).
Local Abbreviation addCookiesFromString :=
  (Agent.addCookiesFromString canonicalDomain parse Jar setCookieSync).

Lemma setCookies_calls jar cookies :
  (exists rest, map convert cookies = (fst (setCookies jar cookies) ++ rest)%list) /\
  (forall jar', snd (setCookies jar cookies) = Ok jar' ->
                fst (setCookies jar cookies) = map convert cookies).
Proof.
  revert jar. induction cookies as [|c l IH]; intros jar; cbn [Agent.setCookies map].
  - split; [now exists []|reflexivity].
  - destruct (setCookieSync jar (convert c)) as [jar1|e].
    + destruct (IH jar1) as ((rest & Hrest) & Hok).
      destruct (setCookies jar1 l) as [cs r]. cbn [fst snd] in *. split.
      * exists rest. cbn [app]. now rewrite Hrest.
      * intros jar' Hr. now rewrite (Hok jar' Hr).
    + cbn [fst snd]. split; [now exists (map convert l)|discriminate].
Qed.

Lemma addCookies_array jar cookies :
  let cookies' := if existsb namedSOCS cookies then cookies
                  else (cookies ++ [Plain SOCS])%list in
  array Jar (addCookies jar (Some cookies)) = Some cookies' /\
  calls Jar (addCookies jar (Some cookies)) = fst (setCookies jar cookies') /\
  outcome Jar (addCookies jar (Some cookies)) = snd (setCookies jar cookies').
Proof.
  cbv zeta. unfold Agent.addCookies.
  destruct (existsb namedSOCS cookies); cbn [negb];
    destruct (Agent.setCookies _ _ _ _ _) as [cs r]; now cbn.
Qed.

(** X27 -- [addCookies] leaves the caller's array with a cookie object named
    [SOCS] in it: the consent cookie [SOCS=CAI] is pushed onto the array
    exactly when no plain cookie object in it is named [SOCS].  The jar is
    then offered the converted cookies of that array in order, all of them
    when no [setCookieSync] throws.  A tough-cookie [Cookie] does not count
    as named, so [addCookiesFromString] always adds the consent cookie after
    the parsed ones. *)
Theorem addCookies_consent_cookie :
  (forall jar (cookies : list CookieInput),
     exists cookies',
       array Jar (addCookies jar (Some cookies)) = Some cookies' /\
       (cookies' = if existsb namedSOCS cookies then cookies
                   else (cookies ++ [Plain SOCS])%list) /\
       (exists c, In c (map convert cookies') /\ key c = "SOCS") /\
       (exists rest, map convert cookies'
                     = (calls Jar (addCookies jar (Some cookies)) ++ rest)%list) /\
       (forall jar', outcome Jar (addCookies jar (Some cookies)) = Ok jar' ->
                     calls Jar (addCookies jar (Some cookies)) = map convert cookies')) /\
  (forall jar (cookies : string),
     cookies <> "" ->
     exists parsed,
       array Jar (addCookiesFromString jar cookies)
       = Some (map Instance parsed ++ [Plain SOCS])%list /\
       (forall c, In c parsed <-> exists s, In s (splitOn ";" cookies) /\ parse s = Some c) /\
       (forall jar', outcome Jar (addCookiesFromString jar cookies) = Ok jar' ->
                     calls Jar (addCookiesFromString jar cookies)
                     = (parsed ++ [convert (Plain SOCS)])%list)).
Proof.
  split.
  - intros jar cookies.
    destruct (addCookies_array jar cookies) as (Ha & Hc & Ho). cbv zeta in *.
    eexists. split; [exact Ha|]. split; [reflexivity|].
    rewrite Hc, Ho. split; [|exact (setCookies_calls jar _)].
    destruct (existsb namedSOCS cookies) eqn:E.
    + apply existsb_exists in E as (c & Hin & Hn).
      exists (convert c). split; [now apply in_map|].
      destruct c as [c|c]; cbn in Hn; [|discriminate].
      now apply String.eqb_eq in Hn.
    + exists (convert (Plain SOCS)). split; [|reflexivity].
      apply in_map, in_or_app. right. now left.
  - intros jar cookies Hne. unfold Agent.addCookiesFromString.
    destruct (String.eqb_spec cookies ""); [congruence|].
    set (parsed := flat_map _ _). exists parsed.
    destruct (addCookies_array jar (map Instance parsed)) as (Ha & Hc & Ho).
    cbv zeta in *.
    assert (existsb namedSOCS (map Instance parsed) = false) as E.
    { clear. induction parsed as [|c l IH]; [reflexivity|exact IH]. }
    rewrite E in Ha, Hc, Ho. split; [exact Ha|]. split.
    + intros c. subst parsed. rewrite in_flat_map. split.
      * intros (s & Hs & Hin). exists s. split; [exact Hs|].
        destruct (parse s) as [p|]; [|destruct Hin]. destruct Hin as [->|[]]. reflexivity.
      * intros (s & Hs & Hp). exists s. split; [exact Hs|]. rewrite Hp. now left.
    + intros jar' Hok. rewrite Hc. rewrite Ho in Hok.
      rewrite (proj2 (setCookies_calls jar _) jar' Hok).
      rewrite map_app, map_map. cbn [map]. f_equal. apply map_id.
Qed.

End WithToughCookie.

End AgentFacts.
